(** * Qitmeer indexing layer: Merkle engine, transaction index, block index

    A shallow embedding of
    - [nox/core/merkle/merkle.go]   (Merkle tree stores of both versions of
      the file, Merkle roots, witness commitment),
    - [services/index/txindex.go]   (transaction-by-hash index over a key-value store),
    - the [blockIndex] of the blockchain package (nodes and chain tips),
    followed by the properties of these functions.

    Conventions.  Go's fixed-width integers are integers of [Z] with the
    wrap-around written out ([uint32], [uint64], [int64]).  A byte slice is
    a [list byte].  A call of the Merkle engine that can end in a run-time
    panic returns an [option] ([None] is the panic); a call of the index
    that returns a Go [error] returns a [result] ([Ok], [Err] or [Panic]),
    next to the state it leaves.  Maps are [gmap]s; pointers to block nodes
    are addresses in a heap.  A loop without a bound of its own takes a
    number of rounds ([fuel]) and returns [None] when they do not suffice. *)

From Stdlib Require Import ZArith Lia Strings.Byte.
From stdpp Require Import base numbers option list gmap strings.

Local Open Scope Z_scope.

(** ** Bytes, hashes and machine integers *)

#[global] Instance byte_eq_dec : EqDecision byte := Byte.byte_eq_dec.
#[global] Instance byte_countable : Countable byte :=
  inj_countable Byte.to_N Byte.of_N Byte.of_to_N.

(** [hash.Hash] is [[HashSize]byte] with [HashSize = 32]; a hash is the list
    of its bytes, 32 long for every hash the program builds. *)
Abbreviation Hash := (list byte) (only parsing).

Definition HashSize : nat := 32.

(** [hash.ZeroHash], which is also the zero value [hash.Hash{}]. *)
Definition ZeroHash : Hash := replicate HashSize x00.

(** [copy(dst[:], src)] into a zeroed array of [n] bytes. *)
Definition copyInto (n : nat) (src : list byte) : list byte :=
  take n (src ++ replicate n x00).

(** Values of type [uint32]. *)
Definition uint32 (z : Z) : Z := z mod 2 ^ 32.

(** Values of type [uint] (64 bits). *)
Definition uint64 (z : Z) : Z := z mod 2 ^ 64.

(** Values of type [int] (64 bits, two's complement). *)
Definition int64 (z : Z) : Z := (z + 2 ^ 63) mod 2 ^ 64 - 2 ^ 63.

(** [binary.ByteOrder], restricted to the two methods the index uses.  The
    package variable [byteOrder] is declared outside the files modelled
    here, so the index is stated over any byte order; [bigEndian] and
    [littleEndian] below are the two of [encoding/binary]. *)
Class ByteOrder := {
  PutUint32 : Z → list byte;
  Uint32 : list byte → Z;
  PutUint32_length : ∀ v, length (PutUint32 v) = 4%nat;
  Uint32_PutUint32 : ∀ v, 0 ≤ v < 2 ^ 32 → Uint32 (PutUint32 v) = v;
}.

Definition byteOfZ (z : Z) : byte :=
  default x00 (Byte.of_N (Z.to_N (z mod 256))).

Definition ZOfByte (b : byte) : Z := Z.of_N (Byte.to_N b).

Definition bigEndianPut (v : Z) : list byte :=
  [byteOfZ (Z.shiftr v 24); byteOfZ (Z.shiftr v 16); byteOfZ (Z.shiftr v 8); byteOfZ v].

Definition bigEndianGet (b : list byte) : Z :=
  match b with
  | b0 :: b1 :: b2 :: b3 :: _ =>
      Z.lor (Z.lor (Z.lor (ZOfByte b3) (Z.shiftl (ZOfByte b2) 8))
                   (Z.shiftl (ZOfByte b1) 16)) (Z.shiftl (ZOfByte b0) 24)
  | _ => 0
  end.

Definition littleEndianPut (v : Z) : list byte :=
  [byteOfZ v; byteOfZ (Z.shiftr v 8); byteOfZ (Z.shiftr v 16); byteOfZ (Z.shiftr v 24)].

Definition littleEndianGet (b : list byte) : Z :=
  match b with
  | b0 :: b1 :: b2 :: b3 :: _ =>
      Z.lor (Z.lor (Z.lor (ZOfByte b0) (Z.shiftl (ZOfByte b1) 8))
                   (Z.shiftl (ZOfByte b2) 16)) (Z.shiftl (ZOfByte b3) 24)
  | _ => 0
  end.

(** ** Errors

    [fmt.Sprintf] and [fmt.Errorf] are kept unrendered: a formatted message
    is its format string with its arguments. *)
Inductive ErrorCode := ErrCorruption.

Inductive error :=
  | ErrorsNew (msg : string)
  | Errorf (format : string) (args : list fmtArg)
  | DatabaseError (code : ErrorCode) (format : string) (args : list fmtArg)
with fmtArg :=
  | ArgHash (h : Hash)
  | ArgError (e : error).

(** The outcome of a call that returns [(A, error)] and may panic. *)
Inductive result (A : Type) :=
  | Ok (a : A)
  | Err (e : error)
  | Panic.
Arguments Ok {A} a.
Arguments Err {A} e.
Arguments Panic {A}.

(** ** Transactions and blocks

    The [types] package is declared outside the files modelled here; its
    records hold the fields the modelled functions read. *)

(** Modelled from the spec: [types.TxOutPoint], the outpoint of an input;
    the coinbase's first input carries the witness commitment in [Hash]. *)
Record TxOutPoint := { OutPointHash : Hash; OutIndex : Z }.

(** Modelled from the spec: [types.TxInput]. *)
Record TxInput := { PreviousOut : TxOutPoint; Sequence : Z; SignScript : list byte }.

(** Modelled from the spec: [types.TxOutput]. *)
Record TxOutput := { Amount : Z; PkScript : list byte }.

(** Modelled from the spec: [types.Transaction]. *)
Record Transaction := {
  Version : Z;
  TxIn : list TxInput;
  TxOut : list TxOutput;
  LockTime : Z;
  Expire : Z;
}.

(** Modelled from the spec: [types.Tx], a transaction with its cached hash
    ([tx.Hash()]). *)
Record Tx := { TxTx : Transaction; TxCachedHash : Hash }.

(** Modelled from the spec: [types.TxLoc], offset and length of a
    transaction inside its serialized block. *)
Record TxLoc := { TxStart : Z; TxLen : Z }.

(** Modelled from the spec: [types.SerializedBlock] with [blk.Hash()],
    [blk.Transactions()] and [blk.TxLoc()], which deserializes the block and
    can fail. *)
Record SerializedBlock := {
  BlockHash : Hash;
  Transactions : list Tx;
  BlockTxLoc : result (list TxLoc);
}.

(** The hash primitives of the [hash] and [types] packages, declared
    outside the files modelled here and taken as parameters: the double
    hash of a byte string and the two hashes of a transaction. *)
Class HashFunctions := {
  DoubleHashH : list byte → Hash;
  TxHash : Transaction → Hash;
  TxHashFull : Transaction → Hash;
}.

(** [uint(math.Log2(float64(n)))]: the float64 logarithm of Go's [math]
    package, truncated by the conversion to [uint].  Floating point is not
    modelled: the value is a parameter, and the results that need it say
    what they assume of it. *)
Class FloatLog2 := { uintLog2 : Z → Z }.

(** ** MerkleEngine ([merkle.go]) *)

(** [nextPowerOfTwo(n int) int]. *)
Definition nextPowerOfTwo `{FloatLog2} (n : Z) : Z :=
  if Z.land n (int64 (n - 1)) =? 0 then n
  else
    let exponent := uint64 (uintLog2 n + 1) in
    if exponent <? 64 then int64 (Z.shiftl 1 exponent) else 0.

(** [HashMerkleBranches(left, right)]. *)
Definition HashMerkleBranches `{HashFunctions} (left right : Hash) : Hash :=
  DoubleHashH (copyInto HashSize left ++ copyInto HashSize right).

(** The leaf stored in slot [i] for transaction [tx]. *)
Definition leafHash `{HashFunctions} (witness : bool) (i : nat) (tx : Tx) : Hash :=
  if witness && (i =? 0)%nat then ZeroHash
  else if witness then TxHashFull (TxTx tx)
  else TxHash (TxTx tx).

(** [merkles[i] = v]; an index out of range panics. *)
Definition setSlot {A} (l : list A) (i : nat) (v : A) : option (list A) :=
  if decide (i < length l)%nat then Some (<[i := v]> l) else None.

(** [for i, tx := range transactions { merkles[i] = ... }]. *)
Fixpoint populateLeaves `{HashFunctions} (witness : bool) (i : nat) (txs : list Tx)
    (merkles : list (option Hash)) : option (list (option Hash)) :=
  match txs with
  | [] => Some merkles
  | tx :: rest =>
      merkles' ← setSlot merkles i (Some (leafHash witness i tx));
      populateLeaves witness (S i) rest merkles'
  end.

(** [for i := 0; i < arraySize-1; i += 2 { ...; offset++ }].  The loop runs
    at most [arraySize] times; [fuel] bounds it. *)
Fixpoint pairingLoop `{HashFunctions} (fuel : nat) (arraySize i offset : nat)
    (merkles : list (option Hash)) : option (list (option Hash)) :=
  match fuel with
  | O => None
  | S fuel' =>
      if (i <? arraySize - 1)%nat then
        left ← merkles !! i;
        parent ← match left with
                 | None => Some None
                 | Some l =>
                     right ← merkles !! (i + 1)%nat;
                     match right with
                     | None => Some (Some (HashMerkleBranches l l))
                     | Some r => Some (Some (HashMerkleBranches l r))
                     end
                 end;
        merkles' ← setSlot merkles offset parent;
        pairingLoop fuel' arraySize (i + 2)%nat (offset + 1)%nat merkles'
      else Some merkles
  end.

(** [BuildMerkleTreeStore(transactions, witness)]. *)
Definition BuildMerkleTreeStore `{HashFunctions} `{FloatLog2}
    (transactions : list Tx) (witness : bool) : option (list (option Hash)) :=
  if (length transactions =? 0)%nat then Some [Some ZeroHash]
  else
    let nextPoT := nextPowerOfTwo (Z.of_nat (length transactions)) in
    let arraySize := int64 (nextPoT * 2 - 1) in
    if arraySize <? 0 then None
    else
      let merkles := replicate (Z.to_nat arraySize) None in
      merkles ← populateLeaves witness 0 transactions merkles;
      pairingLoop (Z.to_nat arraySize) (Z.to_nat arraySize) 0 (Z.to_nat nextPoT) merkles.

(** Lines 366-371 of [ValidateWitnessCommitment]: the commitment computed
    from the witness Merkle root and the coinbase's signature script. *)
Definition computedCommitment `{HashFunctions} `{FloatLog2}
    (transactions : list Tx) (coinbase : list byte) : option Hash :=
  witnessMerkleTree ← BuildMerkleTreeStore transactions true;
  witnessMerkleRoot ← mjoin (last witnessMerkleTree);
  Some (DoubleHashH (witnessMerkleRoot ++ coinbase)).

(** [ValidateWitnessCommitment(blk)]: [Some None] is the [nil] error. *)
Definition ValidateWitnessCommitment `{HashFunctions} `{FloatLog2}
    (blk : SerializedBlock) : option (option error) :=
  match Transactions blk with
  | [] =>
      Some (Some (Errorf
        "cannot validate witness commitment of block without transactions" []))
  | coinbaseTx :: _ =>
      match TxIn (TxTx coinbaseTx) with
      | [] => Some (Some (Errorf "transaction has no inputs" []))
      | in0 :: _ =>
          let witnessCommitment := OutPointHash (PreviousOut in0) in
          if decide (witnessCommitment = ZeroHash) then
            Some (Some (Errorf "Coinbase inputs has no witness commitment" []))
          else
            computed ← computedCommitment (Transactions blk) (SignScript in0);
            if decide (computed = witnessCommitment) then Some None
            else
              Some (Some (Errorf
                "witness commitment does not match: computed %s, coinbase includes %s"
                [ArgHash computed; ArgHash witnessCommitment]))
      end
  end.

(** ** The other tree stores of [merkle.go] *)

(** [copy(dst, src)] on slices: the first [min (len dst) (len src)]
    elements of [dst] are overwritten with those of [src]. *)
Definition copySlice {A} (dst src : list A) : list A :=
  take (length dst) src ++ drop (length src) dst.

(** [BuildParentsMerkleTreeStore(parents)]: the entries are pointers and
    can be [nil]; the pairing loop is the one of [BuildMerkleTreeStore]. *)
Definition BuildParentsMerkleTreeStore `{HashFunctions} `{FloatLog2}
    (parents : list (option Hash)) : option (list (option Hash)) :=
  if (length parents =? 0)%nat then Some [Some ZeroHash]
  else
    let nextPoT := nextPowerOfTwo (Z.of_nat (length parents)) in
    let arraySize := int64 (nextPoT * 2 - 1) in
    if arraySize <? 0 then None
    else
      let merkles := copySlice (replicate (Z.to_nat arraySize) None) parents in
      pairingLoop (Z.to_nat arraySize) (Z.to_nat arraySize) 0 (Z.to_nat nextPoT) merkles.

(** [BuildTokenBalanceMerkleTreeStore(balance)]. *)
Definition BuildTokenBalanceMerkleTreeStore `{HashFunctions} `{FloatLog2}
    (balance : list (option Hash)) : option (list (option Hash)) :=
  if (length balance =? 0)%nat then Some [Some ZeroHash]
  else
    let nextPoT := nextPowerOfTwo (Z.of_nat (length balance)) in
    let arraySize := int64 (nextPoT * 2 - 1) in
    if arraySize <? 0 then None
    else
      let merkles := copySlice (replicate (Z.to_nat arraySize) None) balance in
      pairingLoop (Z.to_nat arraySize) (Z.to_nat arraySize) 0 (Z.to_nat nextPoT) merkles.

(** Modelled from the spec: [types.NewTx(tx)] is declared outside the files
    modelled here; it wraps [tx] in a [types.Tx] and caches its hash.  The
    Merkle functions read only the wrapped transaction. *)
Definition NewTx `{HashFunctions} (t : Transaction) : Tx :=
  {| TxTx := t; TxCachedHash := TxHash t |}.

(** [calcMerkleRoot(txns)]: [*merkles[len(merkles)-1]], which panics on a
    [nil] root. *)
Definition calcMerkleRoot `{HashFunctions} `{FloatLog2} (txns : list Transaction)
    : option Hash :=
  let utilTxns := NewTx <$> txns in
  merkles ← BuildMerkleTreeStore utilTxns false;
  mjoin (last merkles).

(** [CalcMerkleRoot(txns)]. *)
Definition CalcMerkleRoot `{HashFunctions} `{FloatLog2} (txns : list Transaction)
    : option Hash :=
  calcMerkleRoot txns.

(** ** The earlier version of the Merkle engine

    The first half of [merkle.go] is the version of the nox project: its
    tree store has no witness flag and hashes every transaction with
    [TxHashFull]; [hashMerkleBranches] and [nextPowerOfTwo] have the text
    of the later version. *)
Module Nox.
Section NoxMerkle.
Context `{HashFunctions} `{FloatLog2}.

(** [CalcMerkleRoot(nodes)]: a stub that returns the zero hash and no
    error. *)
Definition CalcMerkleRoot (nodes : list Hash) : Hash * option error := (ZeroHash, None).

(** [hashMerkleBranches(left, right)]. *)
Definition hashMerkleBranches (left right : Hash) : Hash :=
  DoubleHashH (copyInto HashSize left ++ copyInto HashSize right).

(** [for i, tx := range transactions { merkles[i] = &txHashFull }]. *)
Fixpoint populateLeaves (i : nat) (txs : list Tx) (merkles : list (option Hash))
    : option (list (option Hash)) :=
  match txs with
  | [] => Some merkles
  | tx :: rest =>
      merkles' ← setSlot merkles i (Some (TxHashFull (TxTx tx)));
      populateLeaves (S i) rest merkles'
  end.

(** The pairing loop, with [hashMerkleBranches]. *)
Fixpoint pairingLoop (fuel : nat) (arraySize i offset : nat)
    (merkles : list (option Hash)) : option (list (option Hash)) :=
  match fuel with
  | O => None
  | S fuel' =>
      if (i <? arraySize - 1)%nat then
        left ← merkles !! i;
        parent ← match left with
                 | None => Some None
                 | Some l =>
                     right ← merkles !! (i + 1)%nat;
                     match right with
                     | None => Some (Some (hashMerkleBranches l l))
                     | Some r => Some (Some (hashMerkleBranches l r))
                     end
                 end;
        merkles' ← setSlot merkles offset parent;
        pairingLoop fuel' arraySize (i + 2)%nat (offset + 1)%nat merkles'
      else Some merkles
  end.

(** [BuildMerkleTreeStore(transactions)]. *)
Definition BuildMerkleTreeStore (transactions : list Tx) : option (list (option Hash)) :=
  if (length transactions =? 0)%nat then Some [Some ZeroHash]
  else
    let nextPoT := nextPowerOfTwo (Z.of_nat (length transactions)) in
    let arraySize := int64 (nextPoT * 2 - 1) in
    if arraySize <? 0 then None
    else
      let merkles := replicate (Z.to_nat arraySize) None in
      merkles ← populateLeaves 0 transactions merkles;
      pairingLoop (Z.to_nat arraySize) (Z.to_nat arraySize) 0 (Z.to_nat nextPoT) merkles.

(** [calcMerkleRoot(txns)]. *)
Definition calcMerkleRoot (txns : list Transaction) : option Hash :=
  let utilTxns := NewTx <$> txns in
  merkles ← BuildMerkleTreeStore utilTxns;
  mjoin (last merkles).
End NoxMerkle.
End Nox.

(** ** Reference Merkle root

    The recursive pairing the tree store is compared with, written from the
    specification and not from the loop. *)

(** The parent of two optional children: absent when the left child is
    absent; the hash of the left child with itself when only the right
    child is absent; the hash of left and right otherwise. *)
Definition refParent `{HashFunctions} (left right : option Hash) : option Hash :=
  l ← left; Some (HashMerkleBranches l (default l right)).

(** The node at position [pos] of level [level] is the parent of the nodes
    at positions [2 * pos] and [2 * pos + 1] of the level below; level 0
    holds the leaves, absent beyond the last one. *)
Fixpoint refSubtree `{HashFunctions} (leaf : nat → option Hash) (level pos : nat)
    : option Hash :=
  match level with
  | O => leaf pos
  | S level' =>
      refParent (refSubtree leaf level' (2 * pos)) (refSubtree leaf level' (2 * pos + 1))
  end.

(** Number of pairing levels over [n] leaves: the least [d] with
    [n ≤ 2 ^ d]. *)
Definition merkleDepth (n : nat) : nat := Z.to_nat (Z.log2_up (Z.of_nat n)).

Definition refMerkleRoot `{HashFunctions} (leaves : list Hash) : option Hash :=
  refSubtree (λ i, leaves !! i) (merkleDepth (length leaves)) 0.

(** The leaf hashes [BuildMerkleTreeStore] starts from. *)
Definition leafHashes `{HashFunctions} (witness : bool) (txs : list Tx) : list Hash :=
  imap (leafHash witness) txs.

(** What the results below assume of [math.Log2]: when [nextPowerOfTwo]
    consults it at [n], its truncation is the integer logarithm of [n]. *)
Definition Log2ExactAt `{FloatLog2} (n : Z) : Prop :=
  Z.land n (n - 1) ≠ 0 → uintLog2 n = Z.log2 n.

(** The first input of the coinbase (first) transaction of a block. *)
Definition coinbaseInput (blk : SerializedBlock) : option TxInput :=
  coinbaseTx ← head (Transactions blk); head (TxIn (TxTx coinbaseTx)).

Definition commitmentMismatch (computed embedded : Hash) : error :=
  Errorf "witness commitment does not match: computed %s, coinbase includes %s"
    [ArgHash computed; ArgHash embedded].

(** The leaf at position [i] of a list of hash pointers: absent for a
    [nil] entry and beyond the end of the list. *)
Definition optLeaf (parents : list (option Hash)) (i : nat) : option Hash :=
  mjoin (parents !! i).

(** The leaves of the earlier tree store: the full hash of every
    transaction. *)
Definition fullHashes `{HashFunctions} (txs : list Tx) : list Hash :=
  (λ tx, TxHashFull (TxTx tx)) <$> txs.

(** ** Bookkeeping of the pairing loop *)

(** State of the array after [j] rounds of the pairing loop over [P] leaf
    slots: the leaf slots hold [leaf], and each of the first [j] parent
    slots holds the pairing of its two children. *)
Definition paired `{HashFunctions} (P : nat) (leaf : nat → option Hash) (j : nat)
    (merkles : list (option Hash)) : Prop :=
  length merkles = (2 * P - 1)%nat
  ∧ (∀ k, (k < P)%nat → merkles !! k = Some (leaf k))
  ∧ (∀ j', (j' < j)%nat → ∃ l r,
        merkles !! (2 * j')%nat = Some l
        ∧ merkles !! (2 * j' + 1)%nat = Some r
        ∧ merkles !! (P + j')%nat = Some (refParent l r)).

(** Slot at which level [k] of a tree of depth [d] starts. *)
Fixpoint levelOffset (d k : nat) : nat :=
  match k with
  | O => 0
  | S k' => levelOffset d k' + 2 ^ (d - k')
  end.

(** ** KeyValueStore

    The [database] package is declared outside the files modelled here. *)

(** Modelled from the spec: a bucket ([database.Bucket]) is a finite map
    from keys to values; [Get] returns [nil] ([None]) for an absent key and
    the stored slice, possibly empty, for a present one; [Put] and [Delete]
    on the buckets that [Create] allocated succeed. *)
Abbreviation Bucket := (gmap (list byte) (list byte)).

(** Modelled from the spec: the state of one database transaction
    ([database.Tx]), reduced to the three buckets of the transaction index:
    [txbyhashidx] (transaction hash to location entry), [idbyhashidx] (block
    hash to block ID) and [hashbyididx] (block ID to block hash). *)
Record DbTx := {
  txIndexBucket : Bucket;
  idByHashIndexBucket : Bucket;
  hashByIDIndexBucket : Bucket;
}.

(** [len(s)] of a slice returned by [Get]: [nil] has length 0. *)
Definition sliceLen (s : option (list byte)) : nat := length (default [] s).

(** Modelled from the spec: [database.BlockRegion]. *)
Record BlockRegion := { RegionHash : Hash; Offset : Z; Len : Z }.

(** ** BlockLocationIndex ([txindex.go]) *)

Definition errNoBlockIDEntry : error := ErrorsNew "no entry in the block ID index".

(** Modelled from the spec: [txEntrySize], declared with the address index;
    block ID, start offset and length take 4 bytes each. *)
Definition txEntrySize : nat := 12.

(** [dbPutBlockIDIndexEntry(dbTx, hash, id)]. *)
Definition dbPutBlockIDIndexEntry `{ByteOrder} (dbTx : DbTx) (hash : Hash) (id : Z)
    : DbTx * result unit :=
  let serializedID := PutUint32 id in
  let dbTx1 := {| txIndexBucket := txIndexBucket dbTx;
                  idByHashIndexBucket := <[hash := serializedID]> (idByHashIndexBucket dbTx);
                  hashByIDIndexBucket := hashByIDIndexBucket dbTx |} in
  ({| txIndexBucket := txIndexBucket dbTx1;
      idByHashIndexBucket := idByHashIndexBucket dbTx1;
      hashByIDIndexBucket := <[serializedID := hash]> (hashByIDIndexBucket dbTx1) |}, Ok ()).

(** [dbRemoveBlockIDIndexEntry(dbTx, hash)]. *)
Definition dbRemoveBlockIDIndexEntry (dbTx : DbTx) (hash : Hash) : DbTx * result unit :=
  match idByHashIndexBucket dbTx !! hash with
  | None => (dbTx, Ok ())
  | Some serializedID =>
      ({| txIndexBucket := txIndexBucket dbTx;
          idByHashIndexBucket := delete hash (idByHashIndexBucket dbTx);
          hashByIDIndexBucket := delete serializedID (hashByIDIndexBucket dbTx) |}, Ok ())
  end.

(** [dbFetchBlockIDByHash(dbTx, hash)]. *)
Definition dbFetchBlockIDByHash `{ByteOrder} (dbTx : DbTx) (hash : Hash) : result Z :=
  match idByHashIndexBucket dbTx !! hash with
  | None => Err errNoBlockIDEntry
  | Some serializedID =>
      if decide (length serializedID < 4)%nat then Panic else Ok (Uint32 serializedID)
  end.

(** [dbFetchBlockHashBySerializedID(dbTx, serializedID)]. *)
Definition dbFetchBlockHashBySerializedID (dbTx : DbTx) (serializedID : list byte)
    : result Hash :=
  match hashByIDIndexBucket dbTx !! serializedID with
  | None => Err errNoBlockIDEntry
  | Some hashBytes => Ok (copyInto HashSize hashBytes)
  end.

(** [dbFetchBlockHashByID(dbTx, id)]. *)
Definition dbFetchBlockHashByID `{ByteOrder} (dbTx : DbTx) (id : Z) : result Hash :=
  dbFetchBlockHashBySerializedID dbTx (PutUint32 id).

(** Writing [bs] into [buf] at [off], in place; panics when [buf] is too
    short. *)
Definition putAt (buf : list byte) (off : nat) (bs : list byte) : option (list byte) :=
  if decide (off + length bs ≤ length buf)%nat
  then Some (take off buf ++ bs ++ drop (off + length bs) buf)
  else None.

(** [putTxIndexEntry(target, blockID, txLoc)] with [target] the tail of
    [buf] from [off] on. *)
Definition putTxIndexEntry `{ByteOrder} (buf : list byte) (off : nat) (blockID : Z)
    (txLoc : TxLoc) : option (list byte) :=
  buf1 ← putAt buf off (PutUint32 blockID);
  buf2 ← putAt buf1 (off + 4) (PutUint32 (uint32 (TxStart txLoc)));
  putAt buf2 (off + 8) (PutUint32 (uint32 (TxLen txLoc))).

(** [dbPutTxIndexEntry(dbTx, txHash, serializedData)]. *)
Definition dbPutTxIndexEntry (dbTx : DbTx) (txHash : Hash) (serializedData : list byte)
    : DbTx * result unit :=
  ({| txIndexBucket := <[txHash := serializedData]> (txIndexBucket dbTx);
      idByHashIndexBucket := idByHashIndexBucket dbTx;
      hashByIDIndexBucket := hashByIDIndexBucket dbTx |}, Ok ()).

(** [dbFetchTxIndexEntry(dbTx, txHash)]: [Ok None] is the [nil] region with
    the [nil] error. *)
Definition dbFetchTxIndexEntry `{ByteOrder} (dbTx : DbTx) (txHash : Hash)
    : result (option BlockRegion) :=
  let serializedData := txIndexBucket dbTx !! txHash in
  if (sliceLen serializedData =? 0)%nat then Ok None
  else if (sliceLen serializedData <? 12)%nat then
    Err (DatabaseError ErrCorruption "corrupt transaction index entry for %s"
           [ArgHash txHash])
  else
    let data := default [] serializedData in
    match dbFetchBlockHashBySerializedID dbTx (take 4 data) with
    | Err err =>
        Err (DatabaseError ErrCorruption "corrupt transaction index entry for %s: %v"
               [ArgHash txHash; ArgError err])
    | Panic => Panic
    | Ok h =>
        Ok (Some {| RegionHash := copyInto HashSize h;
                    Offset := Uint32 (take 4 (drop 4 data));
                    Len := Uint32 (take 4 (drop 8 data)) |})
    end.

(** The closure [addEntries] of [dbAddTxIndexEntries]; [i] is the loop
    index, [offset] the position in the shared buffer. *)
Fixpoint addEntries `{ByteOrder} (dbTx : DbTx) (txns : list Tx) (txLocs : list TxLoc)
    (blockID : Z) (i offset : nat) (serializedValues : list byte) : DbTx * result unit :=
  match txns with
  | [] => (dbTx, Ok ())
  | tx :: rest =>
      match txLocs !! i with
      | None => (dbTx, Panic)
      | Some txLoc =>
          match putTxIndexEntry serializedValues offset blockID txLoc with
          | None => (dbTx, Panic)
          | Some buf =>
              match dbPutTxIndexEntry dbTx (TxCachedHash tx)
                      (take txEntrySize (drop offset buf)) with
              | (dbTx', Ok _) =>
                  addEntries dbTx' rest txLocs blockID (S i) (offset + txEntrySize) buf
              | (dbTx', r) => (dbTx', r)
              end
          end
      end
  end.

(** [dbAddTxIndexEntries(dbTx, block, blockID)]. *)
Definition dbAddTxIndexEntries `{ByteOrder} (dbTx : DbTx) (block : SerializedBlock)
    (blockID : Z) : DbTx * result unit :=
  match BlockTxLoc block with
  | Ok txLocs =>
      addEntries dbTx (Transactions block) txLocs blockID 0 0
        (replicate (length (Transactions block) * txEntrySize) x00)
  | Err e => (dbTx, Err e)
  | Panic => (dbTx, Panic)
  end.

(** [dbRemoveTxIndexEntry(dbTx, txHash)]. *)
Definition dbRemoveTxIndexEntry (dbTx : DbTx) (txHash : Hash) : DbTx * result unit :=
  if (sliceLen (txIndexBucket dbTx !! txHash) =? 0)%nat then
    (dbTx, Err (Errorf
       "can't remove non-existent transaction %s from the transaction index"
       [ArgHash txHash]))
  else
    ({| txIndexBucket := delete txHash (txIndexBucket dbTx);
        idByHashIndexBucket := idByHashIndexBucket dbTx;
        hashByIDIndexBucket := hashByIDIndexBucket dbTx |}, Ok ()).

(** The closure [removeEntries] of [dbRemoveTxIndexEntries]. *)
Fixpoint removeEntries (dbTx : DbTx) (txns : list Tx) : DbTx * result unit :=
  match txns with
  | [] => (dbTx, Ok ())
  | tx :: rest =>
      match dbRemoveTxIndexEntry dbTx (TxCachedHash tx) with
      | (dbTx', Ok _) => removeEntries dbTx' rest
      | (dbTx', r) => (dbTx', r)
      end
  end.

(** [dbRemoveTxIndexEntries(dbTx, block)]. *)
Definition dbRemoveTxIndexEntries (dbTx : DbTx) (block : SerializedBlock)
    : DbTx * result unit :=
  removeEntries dbTx (Transactions block).

(** [TxIndex]: the database (its committed buckets, which [View] reads) and
    the in-memory counter. *)
Record TxIndex := { db : DbTx; curBlockID : Z }.

(** [NewTxIndex(db)]: the counter is the zero value. *)
Definition NewTxIndex (d : DbTx) : TxIndex := {| db := d; curBlockID := 0 |}.

Definition increment : Z := 100000.

(** The forward scan of [Init]: returns [(highestKnown, nextUnknown)].  The
    loop has no bound of its own; [fuel] counts its iterations and [None]
    is a scan that has not ended within [fuel] probes. *)
Fixpoint forwardScan `{ByteOrder} (fuel : nat) (dbTx : DbTx) (highestKnown testBlockID : Z)
    : option (Z * Z) :=
  match fuel with
  | O => None
  | S fuel' =>
      match dbFetchBlockHashByID dbTx testBlockID with
      | Ok _ => forwardScan fuel' dbTx testBlockID (uint32 (testBlockID + increment))
      | _ => Some (highestKnown, testBlockID)
      end
  end.

(** The binary search of [Init]: returns the final [highestKnown]. *)
Fixpoint binarySearch `{ByteOrder} (fuel : nat) (dbTx : DbTx) (highestKnown nextUnknown : Z)
    : option Z :=
  match fuel with
  | O => None
  | S fuel' =>
      let testBlockID := uint32 (highestKnown + nextUnknown) / 2 in
      let '(highestKnown', nextUnknown') :=
        match dbFetchBlockHashByID dbTx testBlockID with
        | Ok _ => (testBlockID, nextUnknown)
        | _ => (highestKnown, testBlockID)
        end in
      if uint32 (highestKnown' + 1) =? nextUnknown' then Some highestKnown'
      else binarySearch fuel' dbTx highestKnown' nextUnknown'
  end.

(** [TxIndex.Init()]: the index after the call and the error returned;
    [None] when a loop has not ended within [fuel] probes. *)
Definition Init `{ByteOrder} (fuel : nat) (idx : TxIndex) : option (TxIndex * option error) :=
  '(highestKnown, nextUnknown) ← forwardScan fuel (db idx) 0 1;
  if nextUnknown =? 1 then Some (idx, None)
  else
    highestKnown' ← binarySearch fuel (db idx) highestKnown nextUnknown;
    Some ({| db := db idx; curBlockID := highestKnown' |}, None).

(** [TxIndex.ConnectBlock(dbTx, block, view)]: the counter, the
    transaction's buckets and the error after the call. *)
Definition ConnectBlock `{ByteOrder} (idx : TxIndex) (dbTx : DbTx) (block : SerializedBlock)
    : TxIndex * DbTx * result unit :=
  let newBlockID := uint32 (curBlockID idx + 1) in
  match dbAddTxIndexEntries dbTx block newBlockID with
  | (dbTx1, Ok _) =>
      match dbPutBlockIDIndexEntry dbTx1 (BlockHash block) newBlockID with
      | (dbTx2, Ok _) => ({| db := db idx; curBlockID := newBlockID |}, dbTx2, Ok ())
      | (dbTx2, r) => (idx, dbTx2, r)
      end
  | (dbTx1, r) => (idx, dbTx1, r)
  end.

(** [TxIndex.DisconnectBlock(dbTx, block, view)]. *)
Definition DisconnectBlock (idx : TxIndex) (dbTx : DbTx) (block : SerializedBlock)
    : TxIndex * DbTx * result unit :=
  match dbRemoveTxIndexEntries dbTx block with
  | (dbTx1, Ok _) =>
      match dbRemoveBlockIDIndexEntry dbTx1 (BlockHash block) with
      | (dbTx2, Ok _) =>
          ({| db := db idx; curBlockID := uint32 (curBlockID idx - 1) |}, dbTx2, Ok ())
      | (dbTx2, r) => (idx, dbTx2, r)
      end
  | (dbTx1, r) => (idx, dbTx1, r)
  end.

(** [TxIndex.TxBlockRegion(hash)]: [View] runs the closure on the
    database's buckets. *)
Definition TxBlockRegion `{ByteOrder} (idx : TxIndex) (hash : Hash)
    : result (option BlockRegion) :=
  dbFetchTxIndexEntry (db idx) hash.

(** ** Stores holding a range of locators *)

(** The locator-to-hash bucket holds an entry for exactly the locators
    [1 .. K]. *)
Definition holdsLocators `{ByteOrder} (dbTx : DbTx) (K : Z) : Prop :=
  ∀ id, 0 ≤ id < 2 ^ 32 →
    (is_Some (hashByIDIndexBucket dbTx !! PutUint32 id) ↔ 1 ≤ id ≤ K).

(** A store whose locator-to-hash bucket holds the locators [1 .. K]. *)
Definition locatorStore `{ByteOrder} (K : nat) : DbTx :=
  {| txIndexBucket := ∅;
     idByHashIndexBucket := ∅;
     hashByIDIndexBucket :=
       list_to_map ((λ i, (PutUint32 (Z.of_nat i), ZeroHash)) <$> seq 1 K) |}.

(** ** Sequences of connected blocks and the invariants of the index *)

(** A sequence of [ConnectBlock] calls in one transaction; it stops at the
    first call that fails. *)
Fixpoint connectBlocks `{ByteOrder} (idx : TxIndex) (dbTx : DbTx)
    (blocks : list SerializedBlock) : TxIndex * DbTx * result unit :=
  match blocks with
  | [] => (idx, dbTx, Ok ())
  | block :: rest =>
      match ConnectBlock idx dbTx block with
      | (idx', dbTx', Ok _) => connectBlocks idx' dbTx' rest
      | r => r
      end
  end.

(** [block.TxLoc()] succeeds with a location for each transaction. *)
Definition wellLocated (block : SerializedBlock) : Prop :=
  ∃ txLocs, BlockTxLoc block = Ok txLocs
    ∧ (length (Transactions block) ≤ length txLocs)%nat.

(** The 12 bytes [putTxIndexEntry] writes: block ID, start offset and
    length, the last two truncated to [uint32]. *)
Definition txEntry `{ByteOrder} (blockID : Z) (txLoc : TxLoc) : list byte :=
  PutUint32 blockID ++ PutUint32 (uint32 (TxStart txLoc)) ++ PutUint32 (uint32 (TxLen txLoc)).

(** The locator-to-hash bucket has an entry for block ID [id]. *)
Definition hasLocator `{ByteOrder} (dbTx : DbTx) (id : Z) : Prop :=
  is_Some (hashByIDIndexBucket dbTx !! PutUint32 id).

(** The two block ID buckets are inverse to each other. *)
Definition locatorsInverse (dbTx : DbTx) : Prop :=
  ∀ h s, idByHashIndexBucket dbTx !! h = Some s ↔ hashByIDIndexBucket dbTx !! s = Some h.

(** The counter is the highest block ID, the block IDs in use are
    [1 .. curBlockID], and the two block ID buckets are inverse to each
    other. *)
Definition indexInv `{ByteOrder} (idx : TxIndex) (dbTx : DbTx) : Prop :=
  0 ≤ curBlockID idx < 2 ^ 32
  ∧ holdsLocators dbTx (curBlockID idx)
  ∧ locatorsInverse dbTx.

(** ** BlockTopologyIndex ([blockIndex])

    A [*blockNode] is an address in a heap of nodes, [None] the [nil]
    pointer; two pointers are equal when they are the same address. *)
Abbreviation nodePtr := positive (only parsing).

(** Modelled from the spec: [blockNode] and [blockStatus] are declared
    outside the files modelled here; a node holds its hash, the pointer to
    its parent, its height and its status bitset. *)
Record blockNode := {
  hash : Hash;
  parent : option nodePtr;
  height : Z;
  status : Z;
}.

Abbreviation nodeHeap := (gmap positive blockNode).

(** The two maps of [blockIndex] (the [db] and [params] fields never
    change and the lock is not modelled). *)
Record blockIndex := {
  index : gmap (list byte) positive;
  chainTips : gmap Z (list positive);
}.

(** [newBlockIndex(db, par)]. *)
Definition newBlockIndex : blockIndex := {| index := ∅; chainTips := ∅ |}.

(** [bi.chainTips[h]]: a missing key reads as the [nil] slice. *)
Definition tipsAt (bi : blockIndex) (h : Z) : list positive :=
  default [] (chainTips bi !! h).

(** [lookupNode(hash)]. *)
Definition lookupNode (bi : blockIndex) (h : Hash) : option positive := index bi !! h.

(** [addChainTip(tip)]. *)
Definition addChainTip (hp : nodeHeap) (bi : blockIndex) (tip : positive)
    : option blockIndex :=
  t ← hp !! tip;
  Some {| index := index bi;
          chainTips := <[height t := tipsAt bi (height t) ++ [tip]]> (chainTips bi) |}.

(** The loop of [removeChainTip]: the first element equal to [tip] is cut
    out and the elements after it move one place down. *)
Fixpoint removeFirst (tip : positive) (nodes : list positive) : list positive :=
  match nodes with
  | [] => []
  | n :: rest => if decide (n = tip) then rest else n :: removeFirst tip rest
  end.

(** [removeChainTip(tip)]. *)
Definition removeChainTip (hp : nodeHeap) (bi : blockIndex) (tip : positive)
    : option blockIndex :=
  t ← hp !! tip;
  let nodes := removeFirst tip (tipsAt bi (height t)) in
  Some {| index := index bi;
          chainTips := if (length nodes =? 0)%nat
                       then delete (height t) (chainTips bi)
                       else <[height t := nodes]> (chainTips bi) |}.

(** [addNode(node)]. *)
Definition addNode (hp : nodeHeap) (bi : blockIndex) (node : positive) : option blockIndex :=
  n ← hp !! node;
  let bi1 := {| index := <[hash n := node]> (index bi); chainTips := chainTips bi |} in
  bi2 ← addChainTip hp bi1 node;
  match parent n with
  | Some p => removeChainTip hp bi2 p
  | None => Some bi2
  end.

(** A sequence of [addNode] calls. *)
Fixpoint addNodes (hp : nodeHeap) (bi : blockIndex) (nodes : list positive)
    : option blockIndex :=
  match nodes with
  | [] => Some bi
  | node :: rest => bi' ← addNode hp bi node; addNodes hp bi' rest
  end.

(** [LookupNode(hash)], [AddNode(node)] and [HaveBlock(hash)]: the first
    two take the lock around [lookupNode] and [addNode]. *)
Definition LookupNode (bi : blockIndex) (h : Hash) : option positive := lookupNode bi h.

Definition AddNode (hp : nodeHeap) (bi : blockIndex) (node : positive) : option blockIndex :=
  addNode hp bi node.

Definition HaveBlock (bi : blockIndex) (h : Hash) : bool :=
  bool_decide (is_Some (index bi !! h)).

(** [NodeStatus(node)]. *)
Definition NodeStatus (hp : nodeHeap) (node : positive) : option Z :=
  status <$> hp !! node.

Definition withStatus (n : blockNode) (s : Z) : blockNode :=
  {| hash := hash n; parent := parent n; height := height n; status := s |}.

(** [SetStatusFlags(node, flags)]: [node.status |= flags]. *)
Definition SetStatusFlags (hp : nodeHeap) (bi : blockIndex) (node : positive) (flags : Z)
    : option (nodeHeap * blockIndex) :=
  n ← hp !! node;
  Some (<[node := withStatus n (Z.lor (status n) flags)]> hp, bi).

(** [UnsetStatusFlags(node, flags)]: [node.status &^= flags]. *)
Definition UnsetStatusFlags (hp : nodeHeap) (bi : blockIndex) (node : positive) (flags : Z)
    : option (nodeHeap * blockIndex) :=
  n ← hp !! node;
  Some (<[node := withStatus n (Z.ldiff (status n) flags)]> hp, bi).

(** ** Chain tips of a sequence of added nodes *)

(** The parent pointer, the height and the hash of the node at an
    address. *)
Definition refParentNode (hp : nodeHeap) (p : positive) : option positive :=
  hp !! p ≫= parent.

Definition heightOfNode (hp : nodeHeap) (p : positive) : option Z :=
  height <$> hp !! p.

Definition hashOfNode (hp : nodeHeap) (p : positive) : option Hash :=
  hash <$> hp !! p.

(** Every node of the sequence has its parent, when it has one, earlier in
    the sequence. *)
Definition parentsAddedEarlier (hp : nodeHeap) (nodes : list positive) : Prop :=
  ∀ before p after q,
    nodes = before ++ p :: after → refParentNode hp p = Some q → q ∈ before.

(** The tips the claim describes: the added nodes of a height that are not
    the parent of an added node. *)
Definition isTipOf (hp : nodeHeap) (added : list positive) (h : Z) (p : positive) : Prop :=
  p ∈ added ∧ heightOfNode hp p = Some h
  ∧ ¬ ∃ q, q ∈ added ∧ refParentNode hp q = Some p.

Definition tipsInv (hp : nodeHeap) (added : list positive) (bi : blockIndex) : Prop :=
  (∀ h p, p ∈ tipsAt bi h ↔ isTipOf hp added h p)
  ∧ (∀ h, NoDup (tipsAt bi h))
  ∧ (∀ h l, chainTips bi !! h = Some l → l ≠ []).

(** The parent pointers of the nodes are [nil] or addresses of the heap. *)
Definition parentsInHeap (hp : nodeHeap) (nodes : list positive) : Prop :=
  ∀ p q, p ∈ nodes → refParentNode hp p = Some q → is_Some (hp !! q).

(** A call of [SetStatusFlags], or of [UnsetStatusFlags], after an earlier
    call on the index. *)
Definition thenSet (r : option (nodeHeap * blockIndex)) (node : positive) (flags : Z)
    : option (nodeHeap * blockIndex) :=
  '(hp, bi) ← r; SetStatusFlags hp bi node flags.

Definition thenUnset (r : option (nodeHeap * blockIndex)) (node : positive) (flags : Z)
    : option (nodeHeap * blockIndex) :=
  '(hp, bi) ← r; UnsetStatusFlags hp bi node flags.

(** ** Sample inputs

    Small inputs on which the model is run in the last part. *)

(** Stand-ins for the hash primitives and for the float logarithm, used
    only to run the model on concrete inputs. *)
Definition sampleHashFunctions : HashFunctions := {|
  DoubleHashH := λ bs, copyInto HashSize (byteOfZ (Z.of_nat (length bs)) :: bs);
  TxHash := λ t, replicate HashSize (byteOfZ (Version t));
  TxHashFull := λ t, replicate HashSize (byteOfZ (Version t + 128));
|}.

Definition exactLog2 : FloatLog2 := {| uintLog2 := Z.log2 |}.

Definition sampleTx (v : Z) : Tx :=
  let t := {| Version := v; TxIn := []; TxOut := []; LockTime := 0; Expire := 0 |} in
  {| TxTx := t; TxCachedHash := replicate HashSize (byteOfZ v) |}.

Definition sampleHash (b : byte) : Hash := replicate HashSize b.

Definition emptyDbTx : DbTx :=
  {| txIndexBucket := ∅; idByHashIndexBucket := ∅; hashByIDIndexBucket := ∅ |}.

Definition sampleIndexedTx (b : byte) : Tx :=
  {| TxTx := {| Version := 1; TxIn := []; TxOut := []; LockTime := 0; Expire := 0 |};
     TxCachedHash := sampleHash b |}.

(** A block of two transactions with distinct hashes. *)
Definition sampleBlock : SerializedBlock :=
  {| BlockHash := sampleHash xb0;
     Transactions := [sampleIndexedTx x01; sampleIndexedTx x02];
     BlockTxLoc := Ok [ {| TxStart := 80; TxLen := 100 |};
                        {| TxStart := 180; TxLen := 250 |} ] |}.

(** A block that lists the same transaction twice. *)
Definition duplicateTxBlock : SerializedBlock :=
  {| BlockHash := sampleHash xb1;
     Transactions := [sampleIndexedTx x01; sampleIndexedTx x01];
     BlockTxLoc := Ok [ {| TxStart := 80; TxLen := 100 |};
                        {| TxStart := 180; TxLen := 100 |} ] |}.

(** A block whose coinbase embeds the commitment [sampleHash x07]. *)
Definition committedBlock : SerializedBlock :=
  let coinbase :=
    {| Version := 1;
       TxIn := [ {| PreviousOut := {| OutPointHash := sampleHash x07; OutIndex := 0 |};
                    Sequence := 0; SignScript := [x51; x52] |} ];
       TxOut := []; LockTime := 0; Expire := 0 |} in
  {| BlockHash := sampleHash xb2;
     Transactions := [ {| TxTx := coinbase; TxCachedHash := sampleHash x03 |};
                       sampleIndexedTx x04 ];
     BlockTxLoc := Ok [] |}.

(** Genesis (address 1), two siblings on top of it (2 and 3) and a child of
    the first sibling (4). *)
Definition sampleHeap : nodeHeap :=
  list_to_map
    [ (1%positive, {| hash := sampleHash x0a; parent := None; height := 0; status := 1 |});
      (2%positive, {| hash := sampleHash x0b; parent := Some 1%positive; height := 1;
                      status := 1 |});
      (3%positive, {| hash := sampleHash x0c; parent := Some 1%positive; height := 1;
                      status := 5 |});
      (4%positive, {| hash := sampleHash x0d; parent := Some 2%positive; height := 2;
                      status := 0 |}) ].

(** A store with one transaction entry of [n] zero bytes. *)
Definition storeWithEntry (n : nat) : DbTx :=
  {| txIndexBucket := {[ sampleHash x01 := replicate n x00 ]};
     idByHashIndexBucket := ∅;
     hashByIDIndexBucket := ∅ |}.

(** A store that holds a 12-byte entry for the first transaction of
    [oneTxBlock] and no block ID entry at all. *)
Definition oneTxBlock : SerializedBlock :=
  {| BlockHash := sampleHash xb3;
     Transactions := [sampleIndexedTx x01];
     BlockTxLoc := Ok [ {| TxStart := 80; TxLen := 100 |} ] |}.

(** [committedBlock] with another coinbase transaction that has the same
    inputs. *)
Definition recommittedBlock : SerializedBlock :=
  let coinbase :=
    {| Version := 9;
       TxIn := [ {| PreviousOut := {| OutPointHash := sampleHash x07; OutIndex := 0 |};
                    Sequence := 0; SignScript := [x51; x52] |} ];
       TxOut := [ {| Amount := 50; PkScript := [x51] |} ]; LockTime := 7; Expire := 0 |} in
  {| BlockHash := sampleHash xb4;
     Transactions := [ {| TxTx := coinbase; TxCachedHash := sampleHash x09 |};
                       sampleIndexedTx x04 ];
     BlockTxLoc := Ok [] |}.

(** A store that holds the block IDs 1, 2 and 4, and not 3. *)
Definition gapStore `{ByteOrder} : DbTx :=
  {| txIndexBucket := ∅;
     idByHashIndexBucket := ∅;
     hashByIDIndexBucket :=
       list_to_map ((λ i, (PutUint32 i, ZeroHash)) <$> [1; 2; 4]) |}.

(** ** The byte orders of [encoding/binary] *)

Lemma ZOfByte_byteOfZ z : ZOfByte (byteOfZ z) = z mod 256.
Proof.
  unfold ZOfByte, byteOfZ.
  assert (Hr : 0 ≤ z mod 256 < 256) by (apply Z.mod_pos_bound; lia).
  destruct (Byte.of_N (Z.to_N (z mod 256))) as [b|] eqn:Hb; simpl.
  - apply Byte.to_of_N in Hb. rewrite Hb. lia.
  - apply Byte.of_N_None_iff in Hb. lia.
Qed.

Lemma bigEndian_roundtrip v : 0 ≤ v < 2 ^ 32 → bigEndianGet (bigEndianPut v) = v.
Proof.
  intros Hv. unfold bigEndianGet, bigEndianPut.
  rewrite !ZOfByte_byteOfZ, !Z.shiftr_div_pow2, !Z.shiftl_mul_pow2 by lia.
  apply Z.bits_inj'. intros i Hi.
  rewrite !Z.lor_spec.
  assert (Hbyte : ∀ k, 0 ≤ k → ∀ j, 0 ≤ j →
            Z.testbit ((v / 2 ^ k) mod 256 * 2 ^ k) j
            = Z.testbit v j && bool_decide (k ≤ j < k + 8)).
  { intros k Hk j Hj.
    destruct (decide (j < k)).
    - rewrite Z.mul_pow2_bits_low by lia.
      rewrite bool_decide_eq_false_2 by lia. by rewrite andb_false_r.
    - rewrite Z.mul_pow2_bits by lia.
      change 256 with (2 ^ 8).
      destruct (decide (j - k < 8)).
      + rewrite Z.mod_pow2_bits_low by lia.
        rewrite Z.div_pow2_bits by lia.
        rewrite bool_decide_eq_true_2 by lia.
        rewrite andb_true_r. f_equal. lia.
      + rewrite Z.mod_pow2_bits_high by lia.
        rewrite bool_decide_eq_false_2 by lia. by rewrite andb_false_r. }
  replace (v mod 256) with ((v / 2 ^ 0) mod 256 * 2 ^ 0)
    by (rewrite Z.pow_0_r, Z.div_1_r; lia).
  rewrite !Hbyte by lia.
  destruct (decide (i < 32)).
  - destruct (Z.testbit v i); simpl; [|done].
    repeat case_bool_decide; try done; lia.
  - assert (Z.testbit v i = false) as ->; [|done].
    apply Z.bits_above_log2; [lia|].
    destruct (decide (v = 0)) as [->|]; [simpl; lia|].
    apply Z.lt_le_trans with 32; [|lia].
    apply Z.log2_lt_pow2; lia.
Qed.

Lemma littleEndian_roundtrip v : 0 ≤ v < 2 ^ 32 → littleEndianGet (littleEndianPut v) = v.
Proof.
  intros Hv. rewrite <- (bigEndian_roundtrip v Hv) at 2.
  unfold littleEndianGet, littleEndianPut, bigEndianGet, bigEndianPut.
  apply Z.bits_inj'. intros i _. rewrite !Z.lor_spec.
  repeat match goal with |- context [Z.testbit ?a ?b] => destruct (Z.testbit a b) end;
    reflexivity.
Qed.

(** [binary.BigEndian]. *)
Definition bigEndian : ByteOrder := {|
  PutUint32 := bigEndianPut;
  Uint32 := bigEndianGet;
  PutUint32_length := λ _, eq_refl;
  Uint32_PutUint32 := bigEndian_roundtrip;
|}.

(** [binary.LittleEndian]. *)
Definition littleEndian : ByteOrder := {|
  PutUint32 := littleEndianPut;
  Uint32 := littleEndianGet;
  PutUint32_length := λ _, eq_refl;
  Uint32_PutUint32 := littleEndian_roundtrip;
|}.

(** * Properties *)

(** ** Machine integers *)

Lemma int64_small z : - 2 ^ 63 ≤ z < 2 ^ 63 → int64 z = z.
Proof. intros Hz. unfold int64. rewrite Z.mod_small; lia. Qed.

Lemma uint64_small z : 0 ≤ z < 2 ^ 64 → uint64 z = z.
Proof. intros Hz. unfold uint64. apply Z.mod_small; lia. Qed.

Lemma uint32_small z : 0 ≤ z < 2 ^ 32 → uint32 z = z.
Proof. intros Hz. unfold uint32. apply Z.mod_small; lia. Qed.

Lemma uint32_range z : 0 ≤ uint32 z < 2 ^ 32.
Proof. unfold uint32. apply Z.mod_pos_bound. lia. Qed.

Lemma land_pred_pow2 k : 0 ≤ k → Z.land (2 ^ k) (2 ^ k - 1) = 0.
Proof.
  intros Hk. replace (2 ^ k - 1) with (Z.ones k) by (rewrite Z.ones_equiv; lia).
  rewrite Z.land_ones by lia. apply Z.mod_same. apply Z.pow_nonzero; lia.
Qed.

Lemma land_pred_nonzero n : 0 < n → n ≠ 2 ^ Z.log2 n → Z.land n (n - 1) ≠ 0.
Proof.
  intros Hn Hne Hland.
  destruct (Z.log2_spec n Hn) as [Hlo Hhi].
  assert (Hk : 0 ≤ Z.log2 n) by apply Z.log2_nonneg.
  assert (Hpred : Z.log2 (n - 1) = Z.log2 n).
  { apply Z.log2_unique; [done|]. rewrite <- Z.add_1_r in Hhi. lia. }
  assert (Hbit : Z.testbit (Z.land n (n - 1)) (Z.log2 n) = true).
  { assert (0 < 2 ^ Z.log2 n) by (apply Z.pow_pos_nonneg; lia).
    rewrite Z.land_spec, Z.bit_log2 by lia.
    rewrite <- Hpred. rewrite Z.bit_log2 by lia. done. }
  rewrite Hland, Z.bits_0 in Hbit. done.
Qed.

Lemma log2_up_not_pow2 n : 0 < n → n ≠ 2 ^ Z.log2 n → Z.log2_up n = Z.log2 n + 1.
Proof.
  intros Hn Hne.
  destruct (Z.log2_spec n Hn) as [Hlo Hhi].
  assert (Hk : 0 ≤ Z.log2 n) by apply Z.log2_nonneg.
  assert (0 < 2 ^ Z.log2 n) by (apply Z.pow_pos_nonneg; lia).
  rewrite Z.log2_up_eqn by lia. unfold Z.succ, Z.pred.
  f_equal. apply Z.log2_unique; [done|]. rewrite <- Z.add_1_r in Hhi. lia.
Qed.

Lemma shiftl_one_int64_le e :
  0 ≤ e → (if e <? 64 then int64 (Z.shiftl 1 e) else 0) ≤ 2 ^ 62.
Proof.
  intros He. destruct (e <? 64) eqn:Hlt; [|lia]. apply Z.ltb_lt in Hlt.
  rewrite Z.shiftl_1_l. destruct (decide (e = 63)) as [->|Hne]; [by vm_compute|].
  assert (0 < 2 ^ e ≤ 2 ^ 62)
    by (split; [apply Z.pow_pos_nonneg; lia|apply Z.pow_le_mono_r; lia]).
  rewrite int64_small; lia.
Qed.

(** ** nextPowerOfTwo *)

Section NextPowerOfTwo.
Context `{FloatLog2}.

(** A power of two is returned unchanged; this branch never consults the
    float logarithm. *)
Lemma nextPowerOfTwo_pow2 k : 0 ≤ k ≤ 62 → nextPowerOfTwo (2 ^ k) = 2 ^ k.
Proof.
  intros Hk. unfold nextPowerOfTwo.
  assert (0 < 2 ^ k ≤ 2 ^ 62).
  { split; [apply Z.pow_pos_nonneg; lia|apply Z.pow_le_mono_r; lia]. }
  rewrite int64_small by lia.
  rewrite land_pred_pow2 by lia. done.
Qed.

(** Where the float logarithm is exact, the result is the power of two
    with exponent [Z.log2_up n]. *)
Lemma nextPowerOfTwo_exact n :
  1 ≤ n ≤ 2 ^ 62 → Log2ExactAt n → nextPowerOfTwo n = 2 ^ Z.log2_up n.
Proof.
  intros Hn Hlog.
  destruct (decide (n = 2 ^ Z.log2 n)) as [Hpow|Hnpow].
  - assert (Hk : 0 ≤ Z.log2 n ≤ 62).
    { split; [apply Z.log2_nonneg|].
    pose proof (Z.log2_le_mono n (2 ^ 62) ltac:(lia)) as Hm.
    rewrite Z.log2_pow2 in Hm; lia. }
    rewrite Hpow at 1. rewrite nextPowerOfTwo_pow2 by done.
    rewrite Hpow at 2. by rewrite Z.log2_up_pow2 by lia.
  - unfold nextPowerOfTwo. rewrite int64_small by lia.
    pose proof (land_pred_nonzero n ltac:(lia) Hnpow) as Hland.
    apply Z.eqb_neq in Hland as Hland'. rewrite Hland'.
    rewrite (Hlog Hland), log2_up_not_pow2 by (done || lia).
    destruct (Z.log2_spec n ltac:(lia)) as [Hlo Hhi].
    assert (Hk : 0 ≤ Z.log2 n) by apply Z.log2_nonneg.
    assert (Z.log2 n < 62).
    { apply Z.log2_lt_pow2; [lia|]. assert (n ≠ 2 ^ 62); [|lia].
      intros ->. rewrite Z.log2_pow2 in Hnpow by lia. done. }
    rewrite uint64_small by lia.
    assert ((Z.log2 n + 1 <? 64) = true) as -> by (apply Z.ltb_lt; lia).
    rewrite Z.shiftl_1_l. apply int64_small.
    assert (0 < 2 ^ (Z.log2 n + 1) ≤ 2 ^ 62).
    { split; [apply Z.pow_pos_nonneg; lia|apply Z.pow_le_mono_r; lia]. }
    lia.
Qed.

(** [2 ^ Z.log2_up n] is the least power of two that is at least [n]. *)
Lemma pow2_log2_up_least n :
  1 ≤ n → n ≤ 2 ^ Z.log2_up n ∧ ∀ j, 0 ≤ j → n ≤ 2 ^ j → 2 ^ Z.log2_up n ≤ 2 ^ j.
Proof.
  intros Hn. split.
  - destruct (decide (n = 1)) as [->|]; [done|].
    apply Z.log2_up_spec. lia.
  - intros j Hj Hle. apply Z.pow_le_mono_r; [lia|].
    apply Z.log2_up_le_pow2; lia.
Qed.

(** The values the specification lists: 1, 2 and 1024 take the
    power-of-two branch; 3, 5 and 1025 consult the logarithm. *)
Lemma nextPowerOfTwo_listed_values :
  Log2ExactAt 3 → Log2ExactAt 5 → Log2ExactAt 1025 →
  nextPowerOfTwo 1 = 1 ∧ nextPowerOfTwo 2 = 2 ∧ nextPowerOfTwo 3 = 4
  ∧ nextPowerOfTwo 5 = 8 ∧ nextPowerOfTwo 1024 = 1024 ∧ nextPowerOfTwo 1025 = 2048.
Proof.
  intros H3 H5 H1025.
  rewrite (nextPowerOfTwo_exact 3), (nextPowerOfTwo_exact 5),
    (nextPowerOfTwo_exact 1025) by (done || lia).
  repeat split; reflexivity.
Qed.
(** C8 (amended). A power of two up to [2 ^ 62] is returned unchanged,
    whatever the float logarithm.  For every [n] with [1 ≤ n ≤ 2 ^ 62] at
    which the float logarithm is exact where [nextPowerOfTwo] consults it,
    the result is [2 ^ ⌈log2 n⌉]: a power of two that is at least [n] and
    at most every power of two that is at least [n]. *)
Theorem nextPowerOfTwo_least_power (n : Z) :
  (∀ k, 0 ≤ k ≤ 62 → nextPowerOfTwo (2 ^ k) = 2 ^ k)
  ∧ (1 ≤ n ≤ 2 ^ 62 → Log2ExactAt n →
     nextPowerOfTwo n = 2 ^ Z.log2_up n
     ∧ 0 ≤ Z.log2_up n ≤ 62
     ∧ n ≤ nextPowerOfTwo n
     ∧ ∀ j, 0 ≤ j → n ≤ 2 ^ j → nextPowerOfTwo n ≤ 2 ^ j).
Proof.
  split; [apply nextPowerOfTwo_pow2|]. intros Hn Hlog.
  rewrite nextPowerOfTwo_exact by done.
  destruct (pow2_log2_up_least n ltac:(lia)) as [Hge Hleast].
  split; [done|]. split; [|by split].
  split; [apply Z.log2_up_nonneg|]. apply Z.log2_up_le_pow2; lia.
Qed.
End NextPowerOfTwo.

(** ** The Merkle tree store *)

Section MerkleTree.
Context `{HashFunctions}.
#[local] Arguments Nat.mul : simpl never.
#[local] Arguments Nat.pow : simpl never.
#[local] Arguments Nat.sub : simpl never.

Lemma setSlot_Some {A} (l : list A) i v :
  (i < length l)%nat → setSlot l i v = Some (<[i := v]> l).
Proof. intros Hi. unfold setSlot. by rewrite decide_True. Qed.

Lemma leafHashes_lookup witness txs k :
  leafHashes witness txs !! k = leafHash witness k <$> txs !! k.
Proof. apply list_lookup_imap. Qed.

Lemma leafHashes_length witness txs : length (leafHashes witness txs) = length txs.
Proof. apply length_imap. Qed.

(** The leaf loop writes slot [i + k] for the [k]-th transaction and leaves
    the other slots as they were. *)
Lemma populateLeaves_spec witness txs : ∀ i merkles,
  (i + length txs ≤ length merkles)%nat →
  ∃ merkles', populateLeaves witness i txs merkles = Some merkles'
    ∧ length merkles' = length merkles
    ∧ (∀ k, (k < i ∨ i + length txs ≤ k)%nat → merkles' !! k = merkles !! k)
    ∧ (∀ k tx, txs !! k = Some tx →
         merkles' !! (i + k)%nat = Some (Some (leafHash witness (i + k) tx))).
Proof.
  induction txs as [|tx rest IH]; intros i merkles Hlen; simpl in *.
  - exists merkles. split; [done|]. split; [done|]. split; [done|].
    intros k tx Hk. by rewrite lookup_nil in Hk.
  - rewrite setSlot_Some by lia. simpl.
    destruct (IH (S i) (<[i := Some (leafHash witness i tx)]> merkles))
      as (m' & Hrun & Hl & Hout & Hin).
    { rewrite length_insert. lia. }
    exists m'. rewrite length_insert in Hl. split; [done|]. split; [done|]. split.
    + intros k Hk. rewrite Hout by lia. apply list_lookup_insert_ne. lia.
    + intros [|k] tx' Hk; simpl in Hk.
      * injection Hk as <-. rewrite Nat.add_0_r, Hout by lia.
        apply list_lookup_insert_eq. lia.
      * replace (i + S k)%nat with (S i + k)%nat by lia. by apply Hin.
Qed.

Lemma paired_step P leaf j merkles l r :
  (j < P - 1)%nat → paired P leaf j merkles →
  merkles !! (2 * j)%nat = Some l → merkles !! (2 * j + 1)%nat = Some r →
  paired P leaf (S j) (<[(P + j)%nat := refParent l r]> merkles).
Proof.
  intros Hj (Hlen & Hleaf & Hpar) Hl Hr.
  split; [by rewrite length_insert|]. split.
  - intros k Hk. rewrite list_lookup_insert_ne by lia. by apply Hleaf.
  - intros j' Hj'. destruct (decide (j' = j)) as [->|Hne].
    + exists l, r. rewrite !list_lookup_insert_ne by lia.
      split; [done|]. split; [done|]. apply list_lookup_insert_eq. lia.
    + destruct (Hpar j' ltac:(lia)) as (l' & r' & Hl' & Hr' & Hp').
      exists l', r'. by rewrite !list_lookup_insert_ne by lia.
Qed.

Lemma pairingLoop_paired P leaf : ∀ fuel j merkles,
  (1 ≤ P)%nat → (j ≤ P - 1)%nat → (P - 1 - j < fuel)%nat →
  paired P leaf j merkles →
  ∃ merkles', pairingLoop fuel (2 * P - 1) (2 * j) (P + j) merkles = Some merkles'
    ∧ paired P leaf (P - 1) merkles'.
Proof.
  induction fuel as [|fuel IH]; intros j merkles HP Hj Hfuel Hinv; [lia|].
  simpl. destruct (2 * j <? 2 * P - 1 - 1)%nat eqn:Hcond.
  - apply Nat.ltb_lt in Hcond.
    pose proof Hinv as (Hlen & _ & _).
    destruct (lookup_lt_is_Some_2 merkles (2 * j)) as [l Hl]; [lia|].
    destruct (lookup_lt_is_Some_2 merkles (2 * j + 1)) as [r Hr]; [lia|].
    pose proof (paired_step P leaf j merkles l r ltac:(lia) Hinv Hl Hr) as Hnext.
    rewrite Hl. simpl.
    replace (2 * j + 2)%nat with (2 * S j)%nat by lia.
    replace (P + j + 1)%nat with (P + S j)%nat by lia.
    destruct l as [l0|]; simpl.
    + rewrite Hr. simpl.
      destruct r as [r0|]; simpl; rewrite setSlot_Some by lia; simpl;
        (apply IH; [lia..|done]).
    + rewrite setSlot_Some by lia. simpl. apply IH; [lia..|done].
  - apply Nat.ltb_ge in Hcond. exists merkles. split; [done|].
    by replace (P - 1)%nat with j by lia.
Qed.

Lemma levelOffset_sum d k :
  (k ≤ d)%nat → (levelOffset d k + 2 * 2 ^ (d - k) = 2 * 2 ^ d)%nat.
Proof.
  induction k as [|k IH]; intros Hk; simpl levelOffset.
  - by rewrite Nat.sub_0_r.
  - specialize (IH ltac:(lia)).
    replace (d - k)%nat with (S (d - S k)) in * by lia.
    rewrite Nat.pow_succ_r' in *. lia.
Qed.

(** Every slot of the finished array is the reference subtree at its level
    and position. *)
Lemma paired_subtree d leaf merkles :
  paired (2 ^ d) leaf (2 ^ d - 1) merkles →
  ∀ k pos, (k ≤ d)%nat → (pos < 2 ^ (d - k))%nat →
    merkles !! (levelOffset d k + pos)%nat = Some (refSubtree leaf k pos).
Proof.
  intros (Hlen & Hleaf & Hpar). induction k as [|k IH]; intros pos Hk Hpos.
  - simpl. rewrite Nat.sub_0_r in Hpos. by apply Hleaf.
  - pose proof (levelOffset_sum d k ltac:(lia)) as Hsum.
    pose proof (levelOffset_sum d (S k) ltac:(lia)) as Hsum'.
    assert (Hpow : (2 ^ (d - k) = 2 * 2 ^ (d - S k))%nat).
    { replace (d - k)%nat with (S (d - S k)) by lia. apply Nat.pow_succ_r'. }
    assert (Hle : (2 ^ (d - k) ≤ 2 ^ d)%nat) by (apply Nat.pow_le_mono_r; lia).
    simpl levelOffset in *.
    destruct (Hpar (levelOffset d k + 2 ^ (d - k) + pos - 2 ^ d)%nat ltac:(lia))
      as (l & r & Hl & Hr & Hp).
    replace (2 ^ d + (levelOffset d k + 2 ^ (d - k) + pos - 2 ^ d))%nat
      with (levelOffset d k + 2 ^ (d - k) + pos)%nat in Hp by lia.
    replace (2 * (levelOffset d k + 2 ^ (d - k) + pos - 2 ^ d) + 1)%nat
      with (levelOffset d k + (2 * pos + 1))%nat in Hr by lia.
    replace (2 * (levelOffset d k + 2 ^ (d - k) + pos - 2 ^ d))%nat
      with (levelOffset d k + 2 * pos)%nat in Hl by lia.
    rewrite IH in Hl by lia. rewrite IH in Hr by lia.
    injection Hl as <-. injection Hr as <-. done.
Qed.

Lemma refSubtree_leftmost leaf k :
  is_Some (leaf 0%nat) → is_Some (refSubtree leaf k 0).
Proof.
  intros Hleaf. induction k as [|k [h Hh]]; simpl; [done|].
  change (2 * 0)%nat with 0%nat. rewrite Hh. by eapply mk_is_Some.
Qed.
End MerkleTree.

Section MerkleStore.
Context `{HashFunctions} `{FloatLog2}.
#[local] Arguments Nat.mul : simpl never.
#[local] Arguments Nat.pow : simpl never.
#[local] Arguments Nat.sub : simpl never.

Lemma pow2_merkleDepth n :
  Z.of_nat (2 ^ merkleDepth n) = 2 ^ Z.log2_up (Z.of_nat n).
Proof.
  unfold merkleDepth. rewrite Nat2Z.inj_pow, Z2Nat.id; [done|apply Z.log2_up_nonneg].
Qed.

(** The array built for [n ≥ 1] transactions: [2 * P - 1] slots with
    [P = 2 ^ merkleDepth n], each holding the reference subtree of its level
    and position. *)
Lemma BuildMerkleTreeStore_slots transactions witness :
  (0 < length transactions)%nat →
  Z.of_nat (length transactions) ≤ 2 ^ 62 →
  Log2ExactAt (Z.of_nat (length transactions)) →
  let d := merkleDepth (length transactions) in
  nextPowerOfTwo (Z.of_nat (length transactions)) = Z.of_nat (2 ^ d)
  ∧ ∃ merkles, BuildMerkleTreeStore transactions witness = Some merkles
      ∧ length merkles = (2 * 2 ^ d - 1)%nat
      ∧ ∀ k pos, (k ≤ d)%nat → (pos < 2 ^ (d - k))%nat →
          merkles !! (levelOffset d k + pos)%nat
          = Some (refSubtree (λ i, leafHashes witness transactions !! i) k pos).
Proof.
  intros Hpos Hmax Hlog d.
  set (n := length transactions) in *.
  assert (Hd : Z.of_nat (2 ^ d) = 2 ^ Z.log2_up (Z.of_nat n))
    by apply pow2_merkleDepth.
  clearbody d.
  assert (HP : nextPowerOfTwo (Z.of_nat n) = Z.of_nat (2 ^ d)).
  { rewrite nextPowerOfTwo_exact by (done || lia). by rewrite Hd. }
  split; [done|].
  assert (HnP : (n ≤ 2 ^ d)%nat).
  { apply Nat2Z.inj_le. rewrite Hd.
    apply (pow2_log2_up_least (Z.of_nat n)). lia. }
  assert (HPmax : Z.of_nat (2 ^ d) ≤ 2 ^ 62).
  { rewrite Hd. apply Z.pow_le_mono_r; [lia|].
    apply Z.log2_up_le_pow2; lia. }
  unfold BuildMerkleTreeStore. fold n.
  destruct (n =? 0)%nat eqn:Hn0; [apply Nat.eqb_eq in Hn0; lia|].
  rewrite HP. rewrite int64_small by lia.
  destruct (Z.of_nat (2 ^ d) * 2 - 1 <? 0) eqn:Hneg; [apply Z.ltb_lt in Hneg; lia|].
  replace (Z.to_nat (Z.of_nat (2 ^ d) * 2 - 1)) with (2 * 2 ^ d - 1)%nat by lia.
  rewrite Nat2Z.id.
  destruct (populateLeaves_spec witness transactions 0
              (replicate (2 * 2 ^ d - 1) None))
    as (m0 & Hrun & Hlen0 & Hout & Hin).
  { rewrite length_replicate. fold n. lia. }
  rewrite Hrun. simpl. rewrite length_replicate in Hlen0.
  assert (Hinv : paired (2 ^ d) (λ i, leafHashes witness transactions !! i) 0 m0).
  { split; [done|]. split; [|intros; lia].
    intros k Hk. rewrite leafHashes_lookup.
    destruct (transactions !! k) as [tx|] eqn:Htx; simpl.
    - by apply (Hin k tx).
    - apply lookup_ge_None in Htx. rewrite Hout by (fold n; lia).
      apply lookup_replicate_2. lia. }
  destruct (pairingLoop_paired (2 ^ d) _ (2 * 2 ^ d - 1) 0 m0
              ltac:(lia) ltac:(lia) ltac:(lia) Hinv) as (m' & Hloop & Hfin).
  replace (2 * 0)%nat with 0%nat in Hloop by lia.
  rewrite Nat.add_0_r in Hloop.
  exists m'. split; [done|]. split; [apply Hfin|].
  by apply paired_subtree.
Qed.

Lemma BuildMerkleTreeStore_root transactions witness :
  (0 < length transactions)%nat →
  Z.of_nat (length transactions) ≤ 2 ^ 62 →
  Log2ExactAt (Z.of_nat (length transactions)) →
  ∃ merkles root, BuildMerkleTreeStore transactions witness = Some merkles
    ∧ Z.of_nat (length merkles)
      = 2 * nextPowerOfTwo (Z.of_nat (length transactions)) - 1
    ∧ last merkles = Some (Some root)
    ∧ refMerkleRoot (leafHashes witness transactions) = Some root.
Proof.
  intros Hpos Hmax Hlog.
  destruct (BuildMerkleTreeStore_slots transactions witness Hpos Hmax Hlog)
    as (HP & m & Hrun & Hlen & Hslots).
  set (d := merkleDepth (length transactions)) in *.
  assert (Hd : (0 < 2 ^ d)%nat) by (apply Nat.neq_0_lt_0, Nat.pow_nonzero; lia).
  destruct (refSubtree_leftmost (λ i, leafHashes witness transactions !! i) d)
    as [root Hroot].
  { rewrite leafHashes_lookup. destruct transactions; [simpl in Hpos; lia|].
    by eapply mk_is_Some. }
  assert (Href : refMerkleRoot (leafHashes witness transactions) = Some root).
  { unfold refMerkleRoot. by rewrite leafHashes_length. }
  clearbody d.
  exists m, root. split; [done|]. split; [rewrite HP; lia|].
  split; [|done].
  rewrite last_lookup, Hlen.
  pose proof (levelOffset_sum d d ltac:(lia)) as Hsum.
  rewrite Nat.sub_diag in Hsum. change (2 ^ 0)%nat with 1%nat in Hsum.
  replace (Nat.pred (2 * 2 ^ d - 1)) with (levelOffset d d + 0)%nat by lia.
  rewrite Hslots; [by rewrite Hroot|lia|].
  rewrite Nat.sub_diag. change (2 ^ 0)%nat with 1%nat. lia.
Qed.

(** C2. For every list of transactions and either witness flag,
    [BuildMerkleTreeStore] returns an array that, for an empty list, is the
    single zero hash and, for [n > 0] transactions, has length
    [2 * nextPowerOfTwo n - 1] and ends in the root of the reference
    pairing of the leaf hashes ([refMerkleRoot]: an absent left child gives
    an absent parent, an absent right child pairs the left child with
    itself).  The list holds at most [2 ^ 62] transactions, so that the
    sizes fit Go's [int], and the float logarithm is exact at [n] where
    [nextPowerOfTwo] consults it. *)
Theorem BuildMerkleTreeStore_correct (transactions : list Tx) (witness : bool) :
  Z.of_nat (length transactions) ≤ 2 ^ 62 →
  Log2ExactAt (Z.of_nat (length transactions)) →
  ∃ merkles, BuildMerkleTreeStore transactions witness = Some merkles
    ∧ (length transactions = 0%nat → merkles = [Some ZeroHash])
    ∧ ((0 < length transactions)%nat →
         Z.of_nat (length merkles)
         = 2 * nextPowerOfTwo (Z.of_nat (length transactions)) - 1
         ∧ last merkles = Some (refMerkleRoot (leafHashes witness transactions))).
Proof.
  intros Hmax Hlog. destruct (decide (length transactions = 0%nat)) as [Hz|Hnz].
  - exists [Some ZeroHash]. unfold BuildMerkleTreeStore. rewrite Hz. simpl.
    split; [done|]. split; [done|lia].
  - destruct (BuildMerkleTreeStore_root transactions witness ltac:(lia) Hmax Hlog)
      as (m & root & Hrun & Hlen & Hlast & Hroot).
    exists m. split; [done|]. split; [done|]. intros _. by rewrite Hroot.
Qed.
End MerkleStore.

(** ** Witness commitment *)

Section WitnessCommitment.
Context `{HashFunctions} `{FloatLog2}.

(** The commitment is the double hash of the witness-mode reference root
    followed by the signature script. *)
Lemma computedCommitment_spec transactions :
  (0 < length transactions)%nat →
  Z.of_nat (length transactions) ≤ 2 ^ 62 →
  Log2ExactAt (Z.of_nat (length transactions)) →
  ∃ root, refMerkleRoot (leafHashes true transactions) = Some root
    ∧ ∀ coinbase,
        computedCommitment transactions coinbase = Some (DoubleHashH (root ++ coinbase)).
Proof.
  intros Hpos Hmax Hlog.
  destruct (BuildMerkleTreeStore_root transactions true Hpos Hmax Hlog)
    as (m & root & Hrun & _ & Hlast & Hroot).
  exists root. split; [done|]. intros coinbase.
  unfold computedCommitment. rewrite Hrun. simpl. rewrite Hlast. done.
Qed.

(** C3. [ValidateWitnessCommitment] returns an error exactly when the block
    has no transactions, or its coinbase has no inputs, or the commitment
    embedded in the coinbase's first input is the zero hash, or the double
    hash of the witness-mode Merkle root followed by that input's signature
    script differs from the embedded commitment; in the last case the error
    carries the computed and the embedded commitment.  (At most [2 ^ 62]
    transactions, and the float logarithm exact where [nextPowerOfTwo]
    consults it.) *)
Theorem ValidateWitnessCommitment_error_iff (blk : SerializedBlock) :
  Z.of_nat (length (Transactions blk)) ≤ 2 ^ 62 →
  Log2ExactAt (Z.of_nat (length (Transactions blk))) →
  ∃ r, ValidateWitnessCommitment blk = Some r
    ∧ (is_Some r ↔
         Transactions blk = []
         ∨ (∃ coinbaseTx, head (Transactions blk) = Some coinbaseTx
              ∧ TxIn (TxTx coinbaseTx) = [])
         ∨ (∃ in0, coinbaseInput blk = Some in0
              ∧ OutPointHash (PreviousOut in0) = ZeroHash)
         ∨ (∃ in0 root, coinbaseInput blk = Some in0
              ∧ refMerkleRoot (leafHashes true (Transactions blk)) = Some root
              ∧ DoubleHashH (root ++ SignScript in0) ≠ OutPointHash (PreviousOut in0)))
    ∧ (∀ in0 root, coinbaseInput blk = Some in0 →
         OutPointHash (PreviousOut in0) ≠ ZeroHash →
         refMerkleRoot (leafHashes true (Transactions blk)) = Some root →
         DoubleHashH (root ++ SignScript in0) ≠ OutPointHash (PreviousOut in0) →
         r = Some (commitmentMismatch (DoubleHashH (root ++ SignScript in0))
                     (OutPointHash (PreviousOut in0)))).
Proof.
  intros Hmax Hlog. unfold ValidateWitnessCommitment, coinbaseInput.
  destruct (Transactions blk) as [|coinbaseTx rest] eqn:Htxs.
  { eexists. split; [done|]. split; [|by intros in0 root [=]].
    split; [by left|by eexists]. }
  simpl head. simpl mbind.
  destruct (TxIn (TxTx coinbaseTx)) as [|in0 ins] eqn:Hin.
  { eexists. split; [done|]. split; [|by intros in0 root [=]].
    split; [|by eexists]. intros _. right. left. by exists coinbaseTx. }
  simpl head.
  destruct (decide (OutPointHash (PreviousOut in0) = ZeroHash)) as [Hzero|Hnz].
  { eexists. split; [done|]. split.
    - split; [|by eexists]. intros _. right. right. left. by exists in0.
    - intros in0' root [= <-]. done. }
  destruct (computedCommitment_spec (coinbaseTx :: rest)) as (root & Hroot & Hcomp);
    [simpl; lia|done..|].
  rewrite Hcomp. simpl.
  destruct (decide (DoubleHashH (root ++ SignScript in0)
                    = OutPointHash (PreviousOut in0))) as [Heq|Hne].
  - exists None. split; [done|]. split.
    + split; [by intros [? [=]]|].
      intros [[=]|[(cb & [= <-] & Hcb)|[(in0' & [= <-] & Hz)|(in0' & root' & [= <-] & Hr & Hd)]]].
      * congruence.
      * done.
      * rewrite Hroot in Hr. injection Hr as <-. done.
    + intros in0' root' [= <-] _ Hr Hd. rewrite Hroot in Hr. injection Hr as <-. done.
  - eexists. split; [done|]. split.
    + split; [|by eexists]. intros _. right. right. right. by exists in0, root.
    + intros in0' root' [= <-] _ Hr Hd. rewrite Hroot in Hr. by injection Hr as <-.
Qed.

(** C10. The witness-mode tree of a single transaction is the one-element
    array holding the zero hash, whatever the transaction; so the
    commitment computed for a single-transaction block is the double hash
    of the zero hash followed by the signature script, and
    [ValidateWitnessCommitment] on such a block reads nothing of the
    transaction but its first input. *)
Theorem single_transaction_witness_root (tx : Tx) (coinbase : list byte)
    (blockHash : Hash) (txLoc : result (list TxLoc)) :
  BuildMerkleTreeStore [tx] true = Some [Some ZeroHash]
  ∧ computedCommitment [tx] coinbase = Some (DoubleHashH (ZeroHash ++ coinbase))
  ∧ ValidateWitnessCommitment
      {| BlockHash := blockHash; Transactions := [tx]; BlockTxLoc := txLoc |}
    = match TxIn (TxTx tx) with
      | [] => Some (Some (Errorf "transaction has no inputs" []))
      | in0 :: _ =>
          if decide (OutPointHash (PreviousOut in0) = ZeroHash) then
            Some (Some (Errorf "Coinbase inputs has no witness commitment" []))
          else if decide (DoubleHashH (ZeroHash ++ SignScript in0)
                          = OutPointHash (PreviousOut in0)) then Some None
          else Some (Some (commitmentMismatch
                             (DoubleHashH (ZeroHash ++ SignScript in0))
                             (OutPointHash (PreviousOut in0))))
      end.
Proof.
  assert (Htree : BuildMerkleTreeStore [tx] true = Some [Some ZeroHash]) by reflexivity.
  assert (Hcomp : ∀ c, computedCommitment [tx] c = Some (DoubleHashH (ZeroHash ++ c))).
  { intros c. unfold computedCommitment. by rewrite Htree. }
  split; [done|]. split; [done|].
  unfold ValidateWitnessCommitment. cbn [Transactions].
  destruct (TxIn (TxTx tx)) as [|in0 ins]; [done|].
  destruct (decide (OutPointHash (PreviousOut in0) = ZeroHash)); [done|].
  rewrite Hcomp. simpl. by destruct (decide _).
Qed.
End WitnessCommitment.

(** ** The transaction index: lookup and removal *)

Lemma uint32_succ_pred c : 0 ≤ c < 2 ^ 32 → uint32 (uint32 (c + 1) - 1) = c.
Proof.
  intros Hc. unfold uint32. rewrite Zminus_mod_idemp_l.
  replace (c + 1 - 1) with c by lia. apply Z.mod_small. lia.
Qed.

Section TxIndexLookup.
Context `{ByteOrder}.

Lemma PutUint32_inj a b :
  0 ≤ a < 2 ^ 32 → 0 ≤ b < 2 ^ 32 → PutUint32 a = PutUint32 b → a = b.
Proof.
  intros Ha Hb Heq. rewrite <- (Uint32_PutUint32 a Ha), <- (Uint32_PutUint32 b Hb).
  by rewrite Heq.
Qed.

(** [TxBlockRegion] is [dbFetchTxIndexEntry] on the database's buckets. *)
Lemma TxBlockRegion_fetch idx h : TxBlockRegion idx h = dbFetchTxIndexEntry (db idx) h.
Proof. reflexivity. Qed.

(** C5 (amended). A lookup returns the [nil] region and the [nil] error
    when no record is stored for the hash, and also when the stored record
    is empty; it returns a corruption error naming the hash when the record
    holds between 1 and 11 bytes, and when the record holds at least 12
    bytes but its 4-byte locator has no entry in the locator-to-hash
    bucket. *)
Theorem TxBlockRegion_outcomes (idx : TxIndex) (h : Hash) :
  (txIndexBucket (db idx) !! h = None → TxBlockRegion idx h = Ok None)
  ∧ (txIndexBucket (db idx) !! h = Some [] → TxBlockRegion idx h = Ok None)
  ∧ (∀ data, txIndexBucket (db idx) !! h = Some data →
       (0 < length data < 12)%nat →
       TxBlockRegion idx h
       = Err (DatabaseError ErrCorruption "corrupt transaction index entry for %s"
                [ArgHash h]))
  ∧ (∀ data, txIndexBucket (db idx) !! h = Some data →
       (12 ≤ length data)%nat →
       hashByIDIndexBucket (db idx) !! take 4 data = None →
       TxBlockRegion idx h
       = Err (DatabaseError ErrCorruption "corrupt transaction index entry for %s: %v"
                [ArgHash h; ArgError errNoBlockIDEntry])).
Proof.
  unfold TxBlockRegion, dbFetchTxIndexEntry.
  split; [by intros ->|]. split; [by intros ->|]. split.
  - intros data -> Hlen. unfold sliceLen. simpl.
    destruct (length data =? 0)%nat eqn:H0; [apply Nat.eqb_eq in H0; lia|].
    destruct (length data <? 12)%nat eqn:H12; [done|]. apply Nat.ltb_ge in H12. lia.
  - intros data -> Hlen Hid. unfold sliceLen. simpl.
    destruct (length data =? 0)%nat eqn:H0; [apply Nat.eqb_eq in H0; lia|].
    destruct (length data <? 12)%nat eqn:H12; [apply Nat.ltb_lt in H12; lia|].
    unfold dbFetchBlockHashBySerializedID. by rewrite Hid.
Qed.
End TxIndexLookup.

Section TxIndexRemoval.

Lemma removeEntries_other_buckets txns : ∀ dbTx,
  idByHashIndexBucket (removeEntries dbTx txns).1 = idByHashIndexBucket dbTx
  ∧ hashByIDIndexBucket (removeEntries dbTx txns).1 = hashByIDIndexBucket dbTx.
Proof.
  induction txns as [|tx rest IH]; intros dbTx; simpl; [done|].
  unfold dbRemoveTxIndexEntry.
  destruct (sliceLen (txIndexBucket dbTx !! TxCachedHash tx) =? 0)%nat; [done|].
  apply (IH {| txIndexBucket := delete (TxCachedHash tx) (txIndexBucket dbTx);
               idByHashIndexBucket := idByHashIndexBucket dbTx;
               hashByIDIndexBucket := hashByIDIndexBucket dbTx |}).
Qed.

(** Removing the entries of a list of transactions fails as soon as one of
    them has no stored entry. *)
Lemma removeEntries_missing txns : ∀ dbTx tx,
  tx ∈ txns → txIndexBucket dbTx !! TxCachedHash tx = None →
  ∃ e, (removeEntries dbTx txns).2 = Err e.
Proof.
  induction txns as [|tx0 rest IH]; intros dbTx tx Hin Hnone.
  - by apply elem_of_nil in Hin.
  - simpl. unfold dbRemoveTxIndexEntry.
    destruct (sliceLen (txIndexBucket dbTx !! TxCachedHash tx0) =? 0)%nat eqn:Hlen.
    + by eexists.
    + apply elem_of_cons in Hin as [->|Hin].
      * rewrite Hnone in Hlen. done.
      * apply (IH _ tx Hin). simpl.
        destruct (decide (TxCachedHash tx0 = TxCachedHash tx)) as [->|Hne].
        -- apply lookup_delete_eq.
        -- by rewrite lookup_delete_ne.
Qed.

(** C6 (amended). [DisconnectBlock] returns an error when a transaction of
    the block has no stored location entry.  When the entries of all its
    transactions are removed and the block's hash has no entry in the
    hash-to-locator bucket, [dbRemoveBlockIDIndexEntry] returns [nil]:
    [DisconnectBlock] reports no error, leaves both locator buckets as they
    were and decrements the counter. *)
Theorem DisconnectBlock_unindexed (idx : TxIndex) (dbTx : DbTx) (block : SerializedBlock) :
  (∀ tx, tx ∈ Transactions block →
     txIndexBucket dbTx !! TxCachedHash tx = None →
     ∃ e, DisconnectBlock idx dbTx block = (idx, (removeEntries dbTx (Transactions block)).1, Err e))
  ∧ (∀ dbTx1, dbRemoveTxIndexEntries dbTx block = (dbTx1, Ok ()) →
       idByHashIndexBucket dbTx !! BlockHash block = None →
       DisconnectBlock idx dbTx block
       = ({| db := db idx; curBlockID := uint32 (curBlockID idx - 1) |}, dbTx1, Ok ())
       ∧ idByHashIndexBucket dbTx1 = idByHashIndexBucket dbTx
       ∧ hashByIDIndexBucket dbTx1 = hashByIDIndexBucket dbTx).
Proof.
  split.
  - intros tx Hin Hnone.
    destruct (removeEntries_missing (Transactions block) dbTx tx Hin Hnone) as [e He].
    exists e. unfold DisconnectBlock, dbRemoveTxIndexEntries.
    destruct (removeEntries dbTx (Transactions block)) as [dbTx1 r]. simpl in *.
    by subst r.
  - intros dbTx1 Hrem Hnone.
    pose proof (removeEntries_other_buckets (Transactions block) dbTx) as [Hid Hhash].
    unfold DisconnectBlock. rewrite Hrem.
    unfold dbRemoveTxIndexEntries in Hrem. rewrite Hrem in Hid, Hhash. simpl in *.
    unfold dbRemoveBlockIDIndexEntry. rewrite Hid, Hnone. done.
Qed.
End TxIndexRemoval.

(** ** Connecting and disconnecting a block *)

Section ConnectDisconnect.
Context `{ByteOrder}.

Lemma putAt_Some buf off bs :
  (off + length bs ≤ length buf)%nat →
  ∃ buf', putAt buf off bs = Some buf' ∧ length buf' = length buf.
Proof.
  intros Hlen. unfold putAt. rewrite decide_True by done. eexists. split; [done|].
  rewrite !length_app, length_take, length_drop. lia.
Qed.

Lemma putTxIndexEntry_Some buf off blockID txLoc :
  (off + txEntrySize ≤ length buf)%nat →
  ∃ buf', putTxIndexEntry buf off blockID txLoc = Some buf' ∧ length buf' = length buf.
Proof.
  unfold txEntrySize. intros Hlen. unfold putTxIndexEntry.
  destruct (putAt_Some buf off (PutUint32 blockID)) as (b1 & -> & Hl1);
    [rewrite PutUint32_length; lia|]. simpl.
  destruct (putAt_Some b1 (off + 4) (PutUint32 (uint32 (TxStart txLoc))))
    as (b2 & -> & Hl2); [rewrite PutUint32_length; lia|]. simpl.
  destruct (putAt_Some b2 (off + 8) (PutUint32 (uint32 (TxLen txLoc))))
    as (b3 & -> & Hl3); [rewrite PutUint32_length; lia|].
  exists b3. split; [done|]. lia.
Qed.

(** [addEntries] succeeds when there is a location for every transaction
    and room in the buffer; it stores a 12-byte entry under the hash of
    each transaction and touches no other key and no other bucket. *)
Lemma addEntries_spec txLocs blockID txns : ∀ dbTx i offset buf,
  (i + length txns ≤ length txLocs)%nat →
  (offset + length txns * txEntrySize ≤ length buf)%nat →
  ∃ dbTx', addEntries dbTx txns txLocs blockID i offset buf = (dbTx', Ok ())
    ∧ idByHashIndexBucket dbTx' = idByHashIndexBucket dbTx
    ∧ hashByIDIndexBucket dbTx' = hashByIDIndexBucket dbTx
    ∧ (∀ tx, tx ∈ txns →
         sliceLen (txIndexBucket dbTx' !! TxCachedHash tx) = txEntrySize)
    ∧ (∀ h, h ∉ TxCachedHash <$> txns →
         txIndexBucket dbTx' !! h = txIndexBucket dbTx !! h).
Proof.
  induction txns as [|tx rest IH]; intros dbTx i offset buf Hlocs Hbuf.
  - exists dbTx. split; [done|]. split; [done|]. split; [done|].
    split; [|done]. intros tx Hin. by apply elem_of_nil in Hin.
  - simpl in Hlocs, Hbuf. simpl addEntries.
    destruct (lookup_lt_is_Some_2 txLocs i) as [txLoc ->]; [lia|].
    destruct (putTxIndexEntry_Some buf offset blockID txLoc) as (buf' & -> & Hlen');
      [unfold txEntrySize in *; lia|].
    unfold dbPutTxIndexEntry.
    set (entry := take txEntrySize (drop offset buf')).
    assert (Hentry : length entry = txEntrySize).
    { unfold entry. rewrite length_take, length_drop. unfold txEntrySize in *. lia. }
    destruct (IH {| txIndexBucket := <[TxCachedHash tx := entry]> (txIndexBucket dbTx);
                    idByHashIndexBucket := idByHashIndexBucket dbTx;
                    hashByIDIndexBucket := hashByIDIndexBucket dbTx |}
                 (S i) (offset + txEntrySize)%nat buf')
      as (dbTx' & Hrun & Hid & Hhash & Hin & Hout);
      [unfold txEntrySize in *; lia..|].
    exists dbTx'. split; [done|]. split; [done|]. split; [done|]. simpl in *. split.
    + intros tx' Htx'. apply elem_of_cons in Htx' as [->|Htx']; [|by apply Hin].
      destruct (decide (TxCachedHash tx ∈ TxCachedHash <$> rest)) as [Hdup|Hfresh].
      * apply list_elem_of_fmap in Hdup as (tx'' & -> & Hin''). by apply Hin.
      * rewrite Hout by done. by rewrite lookup_insert_eq.
    + intros h Hh. apply not_elem_of_cons in Hh as [Hne Hh].
      rewrite Hout by done. by rewrite lookup_insert_ne.
Qed.

(** [removeEntries] succeeds on pairwise distinct hashes that all have a
    non-empty entry, and deletes exactly these keys. *)
Lemma removeEntries_present txns : ∀ dbTx,
  NoDup (TxCachedHash <$> txns) →
  (∀ tx, tx ∈ txns → sliceLen (txIndexBucket dbTx !! TxCachedHash tx) ≠ 0%nat) →
  ∃ dbTx', removeEntries dbTx txns = (dbTx', Ok ())
    ∧ idByHashIndexBucket dbTx' = idByHashIndexBucket dbTx
    ∧ hashByIDIndexBucket dbTx' = hashByIDIndexBucket dbTx
    ∧ (∀ h, txIndexBucket dbTx' !! h
          = if decide (h ∈ TxCachedHash <$> txns) then None
            else txIndexBucket dbTx !! h).
Proof.
  induction txns as [|tx rest IH]; intros dbTx Hnodup Hpresent.
  - exists dbTx. split; [done|]. split; [done|]. split; [done|].
    intros h. rewrite decide_False; [done|]. apply not_elem_of_nil.
  - rewrite fmap_cons in Hnodup. apply NoDup_cons in Hnodup as [Hfresh Hnodup].
    simpl removeEntries. unfold dbRemoveTxIndexEntry.
    destruct (sliceLen (txIndexBucket dbTx !! TxCachedHash tx) =? 0)%nat eqn:Hlen.
    { apply Nat.eqb_eq in Hlen. by apply Hpresent in Hlen; [|left]. }
    destruct (IH {| txIndexBucket := delete (TxCachedHash tx) (txIndexBucket dbTx);
                    idByHashIndexBucket := idByHashIndexBucket dbTx;
                    hashByIDIndexBucket := hashByIDIndexBucket dbTx |} Hnodup)
      as (dbTx' & Hrun & Hid & Hhash & Hlook).
    { intros tx' Hin. simpl. rewrite lookup_delete_ne; [apply Hpresent; by right|].
      intros Heq. apply Hfresh. rewrite Heq. by apply list_elem_of_fmap_2. }
    exists dbTx'. split; [done|]. split; [done|]. split; [done|].
    intros h. rewrite Hlook. simpl. rewrite ?fmap_cons.
    destruct (decide (h ∈ TxCachedHash <$> rest)) as [Hin|Hnin].
    + rewrite decide_True; [done|by right].
    + destruct (decide (h = TxCachedHash tx)) as [->|Hne].
      * rewrite decide_True by left. apply lookup_delete_eq.
      * rewrite decide_False by (by apply not_elem_of_cons).
        by rewrite lookup_delete_ne.
Qed.

(** C4 (amended). Let the counter be [c], let the block's transactions
    have pairwise distinct hashes, none of them stored in the transaction
    bucket, let the block's hash have no entry in the hash-to-locator
    bucket and locator [c + 1] none in the locator-to-hash bucket, and let
    the block yield a location for each of its transactions.  Then
    [ConnectBlock] followed by [DisconnectBlock] both succeed and leave the
    counter and the three buckets exactly as they were. *)
Theorem ConnectBlock_DisconnectBlock_restores
    (idx : TxIndex) (dbTx : DbTx) (block : SerializedBlock) (txLocs : list TxLoc) :
  0 ≤ curBlockID idx < 2 ^ 32 →
  BlockTxLoc block = Ok txLocs →
  (length (Transactions block) ≤ length txLocs)%nat →
  NoDup (TxCachedHash <$> Transactions block) →
  (∀ tx, tx ∈ Transactions block → txIndexBucket dbTx !! TxCachedHash tx = None) →
  idByHashIndexBucket dbTx !! BlockHash block = None →
  hashByIDIndexBucket dbTx !! PutUint32 (uint32 (curBlockID idx + 1)) = None →
  ∃ idx1 dbTx1,
    ConnectBlock idx dbTx block = (idx1, dbTx1, Ok ())
    ∧ curBlockID idx1 = uint32 (curBlockID idx + 1)
    ∧ DisconnectBlock idx1 dbTx1 block = (idx, dbTx, Ok ()).
Proof.
  intros Hcur Hlocs Hlen Hnodup Hfresh Hhash Hid.
  unfold ConnectBlock, dbAddTxIndexEntries. rewrite Hlocs.
  destruct (addEntries_spec txLocs (uint32 (curBlockID idx + 1)) (Transactions block)
              dbTx 0 0 (replicate (length (Transactions block) * txEntrySize) x00))
    as (dbTxA & -> & HidA & HhashA & HinA & HoutA);
    [lia|rewrite length_replicate; lia|].
  unfold dbPutBlockIDIndexEntry. simpl.
  eexists _, _. split; [done|]. split; [done|].
  unfold DisconnectBlock, dbRemoveTxIndexEntries.
  match goal with |- context [removeEntries ?d _] =>
    destruct (removeEntries_present (Transactions block) d Hnodup)
      as (dbTxR & -> & HidR & HhashR & HlookR)
  end.
  { intros tx Hin. simpl. rewrite (HinA tx Hin). done. }
  simpl in *. unfold dbRemoveBlockIDIndexEntry.
  rewrite HidR, lookup_insert_eq. simpl.
  rewrite uint32_succ_pred by done.
  destruct idx as [d c]. destruct dbTx as [bt bi bh]. simpl in *.
  assert (Htx : txIndexBucket dbTxR = bt).
  { apply map_eq. intros h. rewrite HlookR. case_decide as Hh.
    - apply list_elem_of_fmap in Hh as (tx & -> & Hin). symmetry. by apply Hfresh.
    - by apply HoutA. }
  rewrite Htx, HhashR, HidA, HhashA, !delete_insert_id by done. done.
Qed.
End ConnectDisconnect.

(** ** Init: recovering the counter *)

Section TxIndexInit.
Context `{ByteOrder}.

Lemma probe_present dbTx K id :
  holdsLocators dbTx K → 0 ≤ id < 2 ^ 32 → 1 ≤ id ≤ K →
  ∃ h, dbFetchBlockHashByID dbTx id = Ok h.
Proof.
  intros Hhold Hid Hin. apply (Hhold id Hid) in Hin as [v Hv].
  unfold dbFetchBlockHashByID, dbFetchBlockHashBySerializedID. rewrite Hv. by eexists.
Qed.

Lemma probe_absent dbTx K id :
  holdsLocators dbTx K → 0 ≤ id < 2 ^ 32 → ¬ (1 ≤ id ≤ K) →
  dbFetchBlockHashByID dbTx id = Err errNoBlockIDEntry.
Proof.
  intros Hhold Hid Hout.
  unfold dbFetchBlockHashByID, dbFetchBlockHashBySerializedID.
  destruct (hashByIDIndexBucket dbTx !! PutUint32 id) as [v|] eqn:Hv; [|done].
  exfalso. apply Hout, (Hhold id Hid). by eexists.
Qed.

(** The forward scan stops at the first probe above [K]; the probe before
    it, if there is one, is [increment] below. *)
Lemma forwardScan_spec dbTx K : ∀ fuel highestKnown testBlockID,
  holdsLocators dbTx K → K + increment < 2 ^ 32 →
  1 ≤ testBlockID ≤ K + increment →
  K + increment - testBlockID < increment * Z.of_nat fuel →
  ∃ h n, forwardScan fuel dbTx highestKnown testBlockID = Some (h, n)
    ∧ K < n ≤ K + increment
    ∧ ((n = testBlockID ∧ h = highestKnown)
       ∨ (testBlockID < n ∧ h = n - increment ∧ testBlockID ≤ h)).
Proof.
  unfold increment.
  induction fuel as [|fuel IH]; intros h t Hhold HK Ht Hfuel; [lia|].
  simpl. destruct (decide (t ≤ K)) as [Hle|Hgt].
  - destruct (probe_present dbTx K t Hhold ltac:(lia) ltac:(lia)) as [v ->].
    unfold increment. rewrite uint32_small by lia.
    destruct (IH t (t + 100000) Hhold HK ltac:(lia) ltac:(lia))
      as (h' & n' & -> & Hn & Hcase).
    exists h', n'. split; [done|]. split; [done|]. right. lia.
  - rewrite (probe_absent dbTx K t Hhold) by lia.
    exists h, t. split; [done|]. split; [lia|]. by left.
Qed.

(** The binary search ends on [K] once the gap fits the fuel, as long as
    [K] plus the upper bound stays below [2 ^ 32], so that no midpoint
    wraps around. *)
Lemma binarySearch_spec dbTx K : ∀ fuel highestKnown nextUnknown,
  holdsLocators dbTx K →
  1 ≤ highestKnown ≤ K → K < nextUnknown →
  K + nextUnknown < 2 ^ 32 →
  2 ≤ nextUnknown - highestKnown ≤ 2 ^ Z.of_nat fuel →
  binarySearch fuel dbTx highestKnown nextUnknown = Some K.
Proof.
  induction fuel as [|fuel IH]; intros h n Hhold Hh Hn Hsum Hgap.
  { simpl in Hgap. lia. }
  rewrite Nat2Z.inj_succ, Z.pow_succ_r in Hgap by lia.
  simpl. rewrite (uint32_small (h + n)) by lia.
  assert (Hmid : h < (h + n) / 2 < n ∧ 2 * ((h + n) / 2) ≤ h + n < 2 * ((h + n) / 2) + 2).
  { pose proof (Z.div_mod (h + n) 2 ltac:(lia)).
    pose proof (Z.mod_pos_bound (h + n) 2 ltac:(lia)). lia. }
  set (mid := (h + n) / 2) in *. clearbody mid.
  destruct (decide (mid ≤ K)) as [Hle|Hgt].
  - destruct (probe_present dbTx K mid Hhold ltac:(lia) ltac:(lia)) as [v ->].
    rewrite (uint32_small (mid + 1)) by lia.
    destruct (mid + 1 =? n) eqn:Hexit.
    + apply Z.eqb_eq in Hexit. f_equal. lia.
    + apply Z.eqb_neq in Hexit. apply IH; [done|lia..].
  - rewrite (probe_absent dbTx K mid Hhold) by lia.
    rewrite (uint32_small (h + 1)) by lia.
    destruct (h + 1 =? mid) eqn:Hexit.
    + apply Z.eqb_eq in Hexit. f_equal. lia.
    + apply Z.eqb_neq in Hexit. apply IH; [done|lia..].
Qed.

(** The two loops of [Init] in sequence: the counter after [Init] is [K],
    except on the empty store, where it is not assigned. *)
Lemma Init_scan_then_search (K : Z) (idx : TxIndex) (fuel : nat) :
  0 ≤ K → 2 * K + increment < 2 ^ 32 →
  holdsLocators (db idx) K →
  K / increment + 18 ≤ Z.of_nat fuel →
  Init fuel idx
  = Some ({| db := db idx; curBlockID := if decide (K = 0) then curBlockID idx else K |},
          None).
Proof.
  unfold increment. intros HK Hmax Hhold Hfuel.
  assert (Hdiv : 100000 * (K / 100000) ≤ K < 100000 * (K / 100000) + 100000).
  { pose proof (Z.div_mod K 100000 ltac:(lia)).
    pose proof (Z.mod_pos_bound K 100000 ltac:(lia)). lia. }
  unfold Init.
  destruct (forwardScan_spec (db idx) K fuel 0 1 Hhold)
    as (h & n & -> & Hn & Hcase); [unfold increment; lia..|].
  unfold increment in *. simpl.
  destruct Hcase as [[-> ->]|(Hlt & -> & Hh)].
  - rewrite decide_True by lia. simpl. by destruct idx.
  - destruct (n =? 1) eqn:Hn1; [apply Z.eqb_eq in Hn1; lia|].
    rewrite decide_False by lia.
    rewrite (binarySearch_spec (db idx) K fuel (n - 100000) n Hhold); [done|lia..|].
    split; [lia|]. apply Z.le_trans with (2 ^ 17); [lia|].
    apply Z.pow_le_mono_r; lia.
Qed.

(** C1 (amended). Let the locator-to-hash bucket hold exactly the locators
    [1 .. K] with [2 * K + 100000 < 2 ^ 32].  Then [Init] returns without
    error; for [K ≥ 1] it sets the counter to [K] (forward scan in steps of
    100000, then binary search), and for [K = 0] it returns after the first
    probe and leaves the counter as it was, which is 0 on an index fresh
    from [NewTxIndex].  [K / 100000 + 18] probes per loop suffice. *)
Theorem Init_recovers_counter (K : Z) (idx : TxIndex) (fuel : nat) :
  0 ≤ K → 2 * K + increment < 2 ^ 32 →
  holdsLocators (db idx) K →
  K / increment + 18 ≤ Z.of_nat fuel →
  Init fuel idx
  = Some ({| db := db idx; curBlockID := if decide (K = 0) then curBlockID idx else K |},
          None)
  ∧ Init fuel (NewTxIndex (db idx)) = Some ({| db := db idx; curBlockID := K |}, None).
Proof.
  intros HK Hmax Hhold Hfuel. split; [by apply Init_scan_then_search|].
  rewrite (Init_scan_then_search K (NewTxIndex (db idx)) fuel) by done.
  simpl. case_decide; by subst.
Qed.

(** The locator counts the specification lists, on a fresh index. *)
Corollary Init_listed_counts (K : Z) (d : DbTx) :
  K ∈ [0; 1; 99999; 100000; 100001; 5000000] →
  holdsLocators d K →
  Init 68 (NewTxIndex d) = Some ({| db := d; curBlockID := K |}, None).
Proof.
  intros HK Hhold.
  assert (HKr : 0 ≤ K ≤ 5000000).
  { repeat (apply elem_of_cons in HK as [->|HK]); [lia..|by apply elem_of_nil in HK]. }
  pose proof (Z.div_mod K 100000 ltac:(lia)).
  pose proof (Z.mod_pos_bound K 100000 ltac:(lia)).
  rewrite (Init_scan_then_search K (NewTxIndex d) 68);
    [|lia|unfold increment; lia|done|unfold increment; lia].
  simpl. case_decide; by subst.
Qed.
End TxIndexInit.

(** ** The block index: status flags *)

Section StatusFlags.

(** C9. [SetStatusFlags] replaces the status of the node by
    [status OR flags] and [UnsetStatusFlags] by [status AND-NOT flags]; in
    both every status bit outside [flags] keeps its value, the node's other
    fields, every other node and the two maps of the index stay as they
    were. *)
Theorem StatusFlags_frame (hp : nodeHeap) (bi : blockIndex) (node : positive)
    (flags : Z) (n : blockNode) :
  hp !! node = Some n →
  (SetStatusFlags hp bi node flags
   = Some (<[node := withStatus n (Z.lor (status n) flags)]> hp, bi)
   ∧ NodeStatus (<[node := withStatus n (Z.lor (status n) flags)]> hp) node
     = Some (Z.lor (status n) flags)
   ∧ ∀ i, Z.testbit flags i = false →
       Z.testbit (Z.lor (status n) flags) i = Z.testbit (status n) i)
  ∧ (UnsetStatusFlags hp bi node flags
     = Some (<[node := withStatus n (Z.land (status n) (Z.lnot flags))]> hp, bi)
     ∧ NodeStatus (<[node := withStatus n (Z.land (status n) (Z.lnot flags))]> hp) node
       = Some (Z.land (status n) (Z.lnot flags))
     ∧ ∀ i, Z.testbit flags i = false →
         Z.testbit (Z.land (status n) (Z.lnot flags)) i = Z.testbit (status n) i)
  ∧ ∀ s, hash (withStatus n s) = hash n
       ∧ parent (withStatus n s) = parent n
       ∧ height (withStatus n s) = height n
       ∧ ∀ other, other ≠ node → <[node := withStatus n s]> hp !! other = hp !! other.
Proof.
  intros Hn. split; [|split].
  - unfold SetStatusFlags, NodeStatus. rewrite Hn, lookup_insert_eq. simpl.
    split; [done|]. split; [done|].
    intros i Hi. by rewrite Z.lor_spec, Hi, orb_false_r.
  - unfold UnsetStatusFlags, NodeStatus. rewrite Hn, lookup_insert_eq. simpl.
    rewrite Z.ldiff_land. split; [done|]. split; [done|].
    intros i Hi. destruct (decide (0 ≤ i)).
    + by rewrite Z.land_spec, Z.lnot_spec, Hi, andb_true_r by done.
    + by rewrite !Z.testbit_neg_r by lia.
  - intros s. split; [done|]. split; [done|]. split; [done|].
    intros other Hne. by rewrite lookup_insert_ne.
Qed.
End StatusFlags.

(** ** The block index: chain tips *)

Section ChainTips.

Lemma elem_of_removeFirst tip nodes x :
  NoDup nodes → x ∈ removeFirst tip nodes ↔ x ∈ nodes ∧ x ≠ tip.
Proof.
  induction nodes as [|n rest IH]; intros Hnd; simpl.
  - split; [by intros ?%elem_of_nil|by intros [?%elem_of_nil _]].
  - apply NoDup_cons in Hnd as [Hfresh Hnd]. destruct (decide (n = tip)) as [->|Hne].
    + rewrite elem_of_cons. split; [|intros [[->|?] ?]; done].
      intros Hx. split; [by right|]. by intros ->.
    + rewrite !elem_of_cons, IH by done. intuition congruence.
Qed.

Lemma NoDup_removeFirst tip nodes : NoDup nodes → NoDup (removeFirst tip nodes).
Proof.
  induction nodes as [|n rest IH]; intros Hnd; simpl; [done|].
  apply NoDup_cons in Hnd as [Hfresh Hnd]. destruct (decide (n = tip)); [done|].
  apply NoDup_cons. split; [|by apply IH].
  rewrite elem_of_removeFirst by done. tauto.
Qed.

Lemma tipsInv_empty hp : tipsInv hp [] newBlockIndex.
Proof.
  split; [|split].
  - intros h p. unfold tipsAt, isTipOf. simpl. rewrite lookup_empty. simpl.
    split; [by intros ?%elem_of_nil|by intros [?%elem_of_nil _]].
  - intros h. unfold tipsAt. simpl. rewrite lookup_empty. apply NoDup_nil_2.
  - intros h l. simpl. by rewrite lookup_empty.
Qed.

Lemma addChainTip_spec hp bi tip t :
  hp !! tip = Some t →
  ∃ bi', addChainTip hp bi tip = Some bi'
    ∧ index bi' = index bi
    ∧ (∀ h, tipsAt bi' h
          = if decide (h = height t) then tipsAt bi h ++ [tip] else tipsAt bi h)
    ∧ (∀ h l, chainTips bi' !! h = Some l → l ≠ [] ∨ chainTips bi !! h = Some l).
Proof.
  intros Ht. unfold addChainTip. rewrite Ht. simpl. eexists. split; [done|].
  split; [done|]. split.
  - intros h. unfold tipsAt at 1. simpl. rewrite lookup_insert.
    destruct (decide (height t = h)) as [<-|Hne].
    + by rewrite decide_True.
    + by rewrite decide_False by done.
  - intros h l. simpl. rewrite lookup_insert. case_decide; [|by right].
    intros [= <-]. left. by destruct (tipsAt bi (height t)).
Qed.

Lemma removeChainTip_spec hp bi tip t :
  hp !! tip = Some t →
  ∃ bi', removeChainTip hp bi tip = Some bi'
    ∧ index bi' = index bi
    ∧ (∀ h, tipsAt bi' h
          = if decide (h = height t) then removeFirst tip (tipsAt bi h) else tipsAt bi h)
    ∧ (∀ h l, chainTips bi' !! h = Some l → l ≠ [] ∨ chainTips bi !! h = Some l).
Proof.
  intros Ht. unfold removeChainTip. rewrite Ht. simpl. eexists. split; [done|].
  split; [done|].
  set (nodes := removeFirst tip (tipsAt bi (height t))).
  destruct (length nodes =? 0)%nat eqn:Hlen.
  - apply Nat.eqb_eq, nil_length_inv in Hlen. split.
    + intros h. unfold tipsAt at 1. simpl. rewrite lookup_delete.
      destruct (decide (height t = h)) as [<-|Hne].
      * rewrite decide_True by done. by fold nodes.
      * by rewrite decide_False by done.
    + intros h l. simpl. rewrite lookup_delete. case_decide; [done|by right].
  - apply Nat.eqb_neq in Hlen. split.
    + intros h. unfold tipsAt at 1. simpl. rewrite lookup_insert.
      destruct (decide (height t = h)) as [<-|Hne].
      * by rewrite decide_True.
      * by rewrite decide_False by done.
    + intros h l. simpl. rewrite lookup_insert. case_decide; [|by right].
      intros [= <-]. left. intros Hnil. by rewrite Hnil in Hlen.
Qed.

(** One [addNode] call: the new node becomes a tip of its height and its
    parent stops being one. *)
Lemma addNode_tipsInv hp added bi p n :
  tipsInv hp added bi →
  hp !! p = Some n → p ∉ added →
  (∀ q, q ∈ added → is_Some (hp !! q)) →
  (∀ q, parent n = Some q → q ∈ added) →
  (∀ q, q ∈ added → refParentNode hp q ≠ Some p) →
  ∃ bi', addNode hp bi p = Some bi' ∧ tipsInv hp (added ++ [p]) bi'.
Proof.
  intros (Htips & Hnodup & Hnonempty) Hn Hfresh Hvalid Hparent Hchild.
  unfold addNode. rewrite Hn. simpl.
  destruct (addChainTip_spec hp
              {| index := <[hash n := p]> (index bi); chainTips := chainTips bi |} p n Hn)
    as (bi2 & -> & _ & Hat2 & Hne2). simpl.
  assert (Htips2 : ∀ h x, x ∈ tipsAt bi2 h
                          ↔ isTipOf hp added h x ∨ (x = p ∧ h = height n)).
  { intros h x. rewrite Hat2. change (tipsAt {| index := _; chainTips := chainTips bi |} h)
      with (tipsAt bi h). case_decide as Hh.
    - rewrite elem_of_app, list_elem_of_singleton, Htips. subst h. unfold isTipOf. tauto.
    - rewrite Htips. tauto. }
  assert (Hnodup2 : ∀ h, NoDup (tipsAt bi2 h)).
  { intros h. rewrite Hat2. change (tipsAt {| index := _; chainTips := chainTips bi |} h)
      with (tipsAt bi h). case_decide as Hh; [|apply Hnodup].
    apply NoDup_app. split; [apply Hnodup|]. split; [|apply NoDup_singleton].
    intros x Hx ->%list_elem_of_singleton. apply Htips in Hx as [Hx _]. done. }
  assert (Hnonempty2 : ∀ h l, chainTips bi2 !! h = Some l → l ≠ []).
  { intros h l Hl. destruct (Hne2 h l Hl) as [?|Hold]; [done|]. by eapply Hnonempty. }
  assert (Hself : refParentNode hp p = parent n).
  { unfold refParentNode. by rewrite Hn. }
  assert (Hheight : heightOfNode hp p = Some (height n)).
  { unfold heightOfNode. by rewrite Hn. }
  assert (Hgrow : ∀ h x, isTipOf hp added h x ∨ (x = p ∧ h = height n) →
            parent n ≠ Some x → isTipOf hp (added ++ [p]) h x).
  { intros h x [(Hx & Hhx & Hnc)|[-> ->]] Hpx.
    - split; [apply elem_of_app; by left|]. split; [done|].
      intros (c & [Hc| ->%list_elem_of_singleton]%elem_of_app & Hcp);
        [apply Hnc; eauto|]. by rewrite Hself in Hcp.
    - split; [apply elem_of_app; right; by apply list_elem_of_singleton|].
      split; [done|].
      intros (c & [Hc| ->%list_elem_of_singleton]%elem_of_app & Hcp);
        [by eapply Hchild|]. by rewrite Hself in Hcp. }
  assert (Hshrink : ∀ h x, isTipOf hp (added ++ [p]) h x →
            (isTipOf hp added h x ∨ (x = p ∧ h = height n)) ∧ parent n ≠ Some x).
  { intros h x ([Hx| ->%list_elem_of_singleton]%elem_of_app & Hhx & Hnc).
    - split.
      + left. split; [done|]. split; [done|].
        intros (c & Hc & Hcp). apply Hnc. exists c. rewrite elem_of_app. eauto.
      + intros Hpx. apply Hnc. exists p.
        rewrite elem_of_app, list_elem_of_singleton, Hself. eauto.
    - split; [right; split; [done|]; congruence|].
      intros Hpx. apply Hfresh. by apply Hparent. }
  destruct (parent n) as [q|] eqn:Hpar.
  - destruct (Hvalid q (Hparent q eq_refl)) as [nq Hq].
    destruct (removeChainTip_spec hp bi2 q nq Hq) as (bi3 & -> & _ & Hat3 & Hne3).
    exists bi3. split; [done|]. split; [|split].
    + intros h x. rewrite Hat3. case_decide as Hh.
      * rewrite elem_of_removeFirst, Htips2 by done. split.
        -- intros [Hx Hxq]. apply Hgrow; [done|congruence].
        -- intros Hx. apply Hshrink in Hx as [Hx Hxq]. split; [done|congruence].
      * rewrite Htips2. split.
        -- intros Hx. apply Hgrow; [done|]. intros [= ->].
           destruct Hx as [(_ & Hhx & _)|[-> _]].
           ++ unfold heightOfNode in Hhx. rewrite Hq in Hhx. by injection Hhx as <-.
           ++ apply Hfresh. by apply Hparent.
        -- intros Hx. by apply Hshrink in Hx as [Hx _].
    + intros h. rewrite Hat3. case_decide; [by apply NoDup_removeFirst|done].
    + intros h l Hl. destruct (Hne3 h l Hl) as [?|Hold]; [done|]. by eapply Hnonempty2.
  - exists bi2. split; [done|]. split; [|split; [done..]].
    intros h x. rewrite Htips2. split.
    + intros Hx. by apply Hgrow.
    + intros Hx. by apply Hshrink in Hx as [Hx _].
Qed.

Lemma addNodes_tipsInv hp nodes : ∀ added bi,
  tipsInv hp added bi →
  NoDup (added ++ nodes) →
  (∀ q, q ∈ added ++ nodes → is_Some (hp !! q)) →
  parentsAddedEarlier hp (added ++ nodes) →
  ∃ bi', addNodes hp bi nodes = Some bi' ∧ tipsInv hp (added ++ nodes) bi'.
Proof.
  induction nodes as [|p rest IH]; intros added bi Hinv Hnodup Hvalid Hparents.
  - exists bi. by rewrite app_nil_r.
  - destruct (Hvalid p) as [n Hn]; [apply elem_of_app; right; by left|].
    apply NoDup_app in Hnodup as Hsplit. destruct Hsplit as (_ & Hdisj & _).
    destruct (addNode_tipsInv hp added bi p n Hinv Hn) as (bi1 & Hadd & Hinv1).
    + intros Hp. by apply (Hdisj p Hp); left.
    + intros q Hq. apply Hvalid, elem_of_app. by left.
    + intros q Hq. apply (Hparents added p rest q eq_refl).
      unfold refParentNode. by rewrite Hn.
    + intros q Hq Hqp. apply list_elem_of_split in Hq as (d1 & d2 & ->).
      assert (Hp1 : p ∈ d1).
      { apply (Hparents d1 q (d2 ++ p :: rest) p); [by rewrite <- app_assoc|done]. }
      apply (Hdisj p); [|by left]. apply elem_of_app. by left.
    + simpl. rewrite Hadd. simpl.
      rewrite (cons_middle p added rest), app_assoc in *.
      by apply IH.
Qed.

(** C7. Starting from the empty index, after a sequence of [addNode] calls
    on nodes with pairwise distinct hashes, each added after its parent,
    the tip list of every height holds exactly the added nodes of that
    height that are not the parent of an added node, each once; and no
    height is mapped to an empty list. *)
Theorem addNodes_chainTips (hp : nodeHeap) (nodes : list positive) :
  (∀ p, p ∈ nodes → is_Some (hp !! p)) →
  NoDup (hashOfNode hp <$> nodes) →
  parentsAddedEarlier hp nodes →
  ∃ bi, addNodes hp newBlockIndex nodes = Some bi
    ∧ (∀ h p, p ∈ tipsAt bi h ↔ isTipOf hp nodes h p)
    ∧ (∀ h, NoDup (tipsAt bi h))
    ∧ (∀ h l, chainTips bi !! h = Some l → l ≠ []).
Proof.
  intros Hvalid Hnodup Hparents. apply NoDup_fmap_1 in Hnodup.
  by apply (addNodes_tipsInv hp nodes [] newBlockIndex (tipsInv_empty hp)).
Qed.
End ChainTips.

(** ** Init: the midpoint beyond [2 ^ 31] locators *)

Section InitOverflow.
Context `{ByteOrder}.

Lemma holdsLocators_locatorStore (K : nat) :
  Z.of_nat K < 2 ^ 32 → holdsLocators (locatorStore K) (Z.of_nat K).
Proof.
  intros HK id Hid. unfold locatorStore. simpl.
  rewrite <- not_eq_None_Some, <- not_elem_of_list_to_map, <- list_fmap_compose.
  split.
  - intros Hin. apply dec_stable in Hin.
    apply list_elem_of_fmap in Hin as (i & Heq & Hi). simpl in Heq.
    apply elem_of_seq in Hi. apply PutUint32_inj in Heq; lia.
  - intros Hin Hnot. apply Hnot, list_elem_of_fmap. exists (Z.to_nat id). simpl.
    split; [by rewrite Z2Nat.id by lia|]. apply elem_of_seq. lia.
Qed.

(** Once [K ≥ 2 ^ 31], every midpoint [uint32 (h + n) / 2] is below
    [2 ^ 31]: the search keeps a lower bound that never comes within one of
    the upper bound, or an upper bound of 0, and does not end. *)
Lemma binarySearch_no_exit dbTx K : ∀ fuel highestKnown nextUnknown,
  holdsLocators dbTx K → 2 ^ 31 ≤ K < 2 ^ 32 - 1 →
  0 ≤ highestKnown ≤ K →
  nextUnknown = 0 ∨ (K < nextUnknown < 2 ^ 32 ∧ highestKnown + 1 < nextUnknown) →
  binarySearch fuel dbTx highestKnown nextUnknown = None.
Proof.
  induction fuel as [|fuel IH]; intros h n Hhold HK Hh Hn; [done|].
  simpl.
  assert (Hmid : 0 ≤ uint32 (h + n) / 2 < 2 ^ 31
                 ∧ (n = 0 → uint32 (h + n) / 2 ≤ h)).
  { pose proof (uint32_range (h + n)) as Hr.
    pose proof (Z.div_mod (uint32 (h + n)) 2 ltac:(lia)).
    pose proof (Z.mod_pos_bound (uint32 (h + n)) 2 ltac:(lia)).
    split; [lia|]. intros ->. rewrite Z.add_0_r, uint32_small in * by lia. lia. }
  set (mid := uint32 (h + n) / 2) in *. clearbody mid.
  destruct (decide (1 ≤ mid)) as [Hpos|Hzero].
  - destruct (probe_present dbTx K mid Hhold ltac:(lia) ltac:(lia)) as [v ->].
    rewrite (uint32_small (mid + 1)) by lia.
    destruct (mid + 1 =? n) eqn:Hexit; [apply Z.eqb_eq in Hexit; lia|].
    apply IH; [done|lia|lia|]. destruct Hn as [->|[Hn1 Hn2]]; [by left|right; lia].
  - rewrite (probe_absent dbTx K mid Hhold) by lia.
    rewrite (uint32_small (h + 1)) by lia.
    destruct (h + 1 =? mid) eqn:Hexit; [apply Z.eqb_eq in Hexit; lia|].
    apply IH; [done|lia|lia|]. left. lia.
Qed.

Lemma forwardScan_result dbTx K : ∀ fuel highestKnown testBlockID h n,
  holdsLocators dbTx K → K + increment < 2 ^ 32 →
  1 ≤ testBlockID ≤ K + increment →
  forwardScan fuel dbTx highestKnown testBlockID = Some (h, n) →
  K < n ≤ K + increment
  ∧ ((n = testBlockID ∧ h = highestKnown)
     ∨ (testBlockID < n ∧ h = n - increment ∧ testBlockID ≤ h)).
Proof.
  unfold increment.
  induction fuel as [|fuel IH]; intros h0 t h n Hhold HK Ht Hscan; [done|].
  simpl in Hscan. destruct (decide (t ≤ K)) as [Hle|Hgt].
  - destruct (probe_present dbTx K t Hhold ltac:(lia) ltac:(lia)) as [v Hv].
    rewrite Hv in Hscan. unfold increment in Hscan.
    rewrite uint32_small in Hscan by lia.
    apply IH in Hscan as [Hn Hcase]; [|done|lia..]. split; [done|]. right. lia.
  - rewrite (probe_absent dbTx K t Hhold) in Hscan by lia.
    injection Hscan as <- <-. split; [lia|]. by left.
Qed.

(** With [2 ^ 31] locators or more (and the forward scan still below
    [2 ^ 32]) [Init] does not return, whatever the number of probes. *)
Lemma Init_midpoint_wraps (K : Z) (idx : TxIndex) (fuel : nat) :
  2 ^ 31 ≤ K → K + increment < 2 ^ 32 →
  holdsLocators (db idx) K →
  Init fuel idx = None.
Proof.
  intros HK Hmax Hhold. unfold Init.
  destruct (forwardScan fuel (db idx) 0 1) as [[h n]|] eqn:Hscan; [|done].
  apply (forwardScan_result (db idx) K) in Hscan as [Hn Hcase];
    [|done..|unfold increment; lia].
  unfold increment in *. simpl.
  destruct (n =? 1) eqn:Hn1; [apply Z.eqb_eq in Hn1; lia|].
  rewrite (binarySearch_no_exit (db idx) K fuel h n Hhold); [done|lia..|].
  right. lia.
Qed.

(** For instance with 3000000000 locators. *)
Lemma Init_diverges_3000000000 (fuel : nat) :
  Init fuel (NewTxIndex (locatorStore (Z.to_nat 3000000000))) = None.
Proof.
  apply (Init_midpoint_wraps 3000000000); [lia|unfold increment; lia|].
  rewrite <- (Z2Nat.id 3000000000) at 2 by lia.
  apply holdsLocators_locatorStore. rewrite Z2Nat.id; lia.
Qed.
End InitOverflow.

(** * Further properties *)

(** ** Tree stores over hash pointers *)

Section ParentsStore.
Context `{HashFunctions} `{FloatLog2}.
#[local] Arguments Nat.mul : simpl never.
#[local] Arguments Nat.pow : simpl never.
#[local] Arguments Nat.sub : simpl never.

Lemma copySlice_lookup (parents : list (option Hash)) N k :
  (length parents ≤ N)%nat → (k < N)%nat →
  copySlice (replicate N None) parents !! k = Some (optLeaf parents k).
Proof.
  intros Hn Hk. unfold copySlice, optLeaf. rewrite length_replicate.
  rewrite take_ge by lia.
  destruct (parents !! k) as [v|] eqn:Hv.
  - rewrite lookup_app_l by (by eapply lookup_lt_Some). by rewrite Hv.
  - apply lookup_ge_None in Hv. rewrite lookup_app_r by done.
    rewrite lookup_drop, lookup_replicate_2 by lia. done.
Qed.

Lemma copySlice_length (parents : list (option Hash)) N :
  (length parents ≤ N)%nat → length (copySlice (replicate N (@None Hash)) parents) = N.
Proof.
  intros Hn. unfold copySlice. rewrite length_replicate, length_app, length_take,
    length_drop, length_replicate. lia.
Qed.

(** The array built over [n ≥ 1] hash pointers satisfies the bookkeeping
    invariant of the pairing loop after its last round. *)
Lemma BuildParentsMerkleTreeStore_paired parents :
  (0 < length parents)%nat →
  Z.of_nat (length parents) ≤ 2 ^ 62 →
  Log2ExactAt (Z.of_nat (length parents)) →
  let d := merkleDepth (length parents) in
  nextPowerOfTwo (Z.of_nat (length parents)) = Z.of_nat (2 ^ d)
  ∧ (length parents ≤ 2 ^ d)%nat
  ∧ ∃ merkles, BuildParentsMerkleTreeStore parents = Some merkles
      ∧ paired (2 ^ d) (optLeaf parents) (2 ^ d - 1) merkles.
Proof.
  intros Hpos Hmax Hlog d.
  set (n := length parents) in *.
  assert (Hd : Z.of_nat (2 ^ d) = 2 ^ Z.log2_up (Z.of_nat n))
    by apply pow2_merkleDepth.
  clearbody d.
  assert (HP : nextPowerOfTwo (Z.of_nat n) = Z.of_nat (2 ^ d)).
  { rewrite nextPowerOfTwo_exact by (done || lia). by rewrite Hd. }
  split; [done|].
  assert (HnP : (n ≤ 2 ^ d)%nat).
  { apply Nat2Z.inj_le. rewrite Hd.
    apply (pow2_log2_up_least (Z.of_nat n)). lia. }
  split; [done|].
  assert (HPmax : Z.of_nat (2 ^ d) ≤ 2 ^ 62).
  { rewrite Hd. apply Z.pow_le_mono_r; [lia|].
    apply Z.log2_up_le_pow2; lia. }
  unfold BuildParentsMerkleTreeStore. fold n.
  destruct (n =? 0)%nat eqn:Hn0; [apply Nat.eqb_eq in Hn0; lia|].
  rewrite HP. rewrite int64_small by lia.
  destruct (Z.of_nat (2 ^ d) * 2 - 1 <? 0) eqn:Hneg; [apply Z.ltb_lt in Hneg; lia|].
  replace (Z.to_nat (Z.of_nat (2 ^ d) * 2 - 1)) with (2 * 2 ^ d - 1)%nat by lia.
  rewrite Nat2Z.id.
  assert (Hinv : paired (2 ^ d) (optLeaf parents) 0
                   (copySlice (replicate (2 * 2 ^ d - 1) None) parents)).
  { split; [apply copySlice_length; fold n; lia|]. split; [|intros; lia].
    intros k Hk. apply copySlice_lookup; fold n; lia. }
  destruct (pairingLoop_paired (2 ^ d) _ (2 * 2 ^ d - 1) 0 _
              ltac:(lia) ltac:(lia) ltac:(lia) Hinv) as (m' & Hloop & Hfin).
  replace (2 * 0)%nat with 0%nat in Hloop by lia.
  rewrite Nat.add_0_r in Hloop.
  exists m'. done.
Qed.
Lemma refSubtree_leftmost_None leaf k :
  leaf 0%nat = None → refSubtree leaf k 0 = None.
Proof.
  intros Hleaf. induction k as [|k IH]; simpl; [done|].
  change (2 * 0)%nat with 0%nat. by rewrite IH.
Qed.

Lemma paired_last d leaf merkles :
  paired (2 ^ d) leaf (2 ^ d - 1) merkles →
  last merkles = Some (refSubtree leaf d 0).
Proof.
  intros Hfin. pose proof Hfin as (Hlen & _ & _).
  assert (Hd : (0 < 2 ^ d)%nat) by (apply Nat.neq_0_lt_0, Nat.pow_nonzero; lia).
  rewrite last_lookup, Hlen.
  pose proof (levelOffset_sum d d ltac:(lia)) as Hsum.
  rewrite Nat.sub_diag in Hsum. change (2 ^ 0)%nat with 1%nat in Hsum.
  replace (Nat.pred (2 * 2 ^ d - 1)) with (levelOffset d d + 0)%nat by lia.
  apply (paired_subtree d leaf merkles Hfin d 0%nat); [lia|].
  rewrite Nat.sub_diag. change (2 ^ 0)%nat with 1%nat. lia.
Qed.

(** X1. [BuildParentsMerkleTreeStore] and [BuildTokenBalanceMerkleTreeStore]
    are the same function.  On an empty list they return the single zero
    hash.  On [n > 0] hash pointers, some of which may be [nil], they do
    not panic and return an array of [2 * P - 1] slots with
    [P = nextPowerOfTwo n]: slot [k < n] holds the [k]-th pointer, the
    slots from [n] to [P - 1] are [nil], and slot [P + j] holds the parent
    of the slots [2 * j] and [2 * j + 1] ([nil] under a [nil] left child,
    the left child hashed with itself under a [nil] right child).  (At
    most [2 ^ 62] entries, and the float logarithm exact where
    [nextPowerOfTwo] consults it.) *)
Theorem BuildParentsMerkleTreeStore_layout (parents : list (option Hash)) :
  BuildParentsMerkleTreeStore [] = Some [Some ZeroHash]
  ∧ BuildTokenBalanceMerkleTreeStore parents = BuildParentsMerkleTreeStore parents
  ∧ ((0 < length parents)%nat →
     Z.of_nat (length parents) ≤ 2 ^ 62 →
     Log2ExactAt (Z.of_nat (length parents)) →
     ∃ merkles (P : nat),
       BuildParentsMerkleTreeStore parents = Some merkles
       ∧ Z.of_nat P = nextPowerOfTwo (Z.of_nat (length parents))
       ∧ length merkles = (2 * P - 1)%nat
       ∧ (∀ k, (k < length parents)%nat → merkles !! k = parents !! k)
       ∧ (∀ k, (length parents ≤ k < P)%nat → merkles !! k = Some None)
       ∧ (∀ j, (j < P - 1)%nat → ∃ l r,
            merkles !! (2 * j)%nat = Some l
            ∧ merkles !! (2 * j + 1)%nat = Some r
            ∧ merkles !! (P + j)%nat = Some (refParent l r))).
Proof.
  split; [done|]. split; [done|]. intros Hpos Hmax Hlog.
  destruct (BuildParentsMerkleTreeStore_paired parents Hpos Hmax Hlog)
    as (HP & HnP & m & Hrun & Hlen & Hleaf & Hpar).
  exists m, (2 ^ merkleDepth (length parents))%nat.
  split; [done|]. split; [done|]. split; [done|]. split; [|split; [|done]].
  - intros k Hk. rewrite Hleaf by lia. unfold optLeaf.
    destruct (lookup_lt_is_Some_2 parents k Hk) as [v ->]. done.
  - intros k Hk. rewrite Hleaf by lia. unfold optLeaf.
    by rewrite (lookup_ge_None_2 parents k) by lia.
Qed.

(** X2. The last slot of the array built by
    [BuildParentsMerkleTreeStore] (and so by
    [BuildTokenBalanceMerkleTreeStore]) is the reference pairing of the
    entries, and it is [nil] exactly when the first entry is [nil].  A
    single entry is returned as it is, without hashing.  (At most
    [2 ^ 62] entries, and the float logarithm exact where [nextPowerOfTwo]
    consults it.) *)
Theorem BuildParentsMerkleTreeStore_root (parents : list (option Hash)) :
  (∀ h, BuildParentsMerkleTreeStore [Some h] = Some [Some h])
  ∧ ((0 < length parents)%nat →
     Z.of_nat (length parents) ≤ 2 ^ 62 →
     Log2ExactAt (Z.of_nat (length parents)) →
     ∃ merkles root,
       BuildParentsMerkleTreeStore parents = Some merkles
       ∧ last merkles = Some root
       ∧ root = refSubtree (optLeaf parents) (merkleDepth (length parents)) 0
       ∧ (root = None ↔ head parents = Some None)).
Proof.
  split; [done|]. intros Hpos Hmax Hlog.
  destruct (BuildParentsMerkleTreeStore_paired parents Hpos Hmax Hlog)
    as (HP & HnP & m & Hrun & Hfin).
  eexists m, _. split; [done|]. split; [by apply paired_last|]. split; [done|].
  destruct parents as [|p0 rest]; [simpl in Hpos; lia|]. simpl head.
  destruct p0 as [h|].
  - split; [|done]. intros Hnone.
    destruct (refSubtree_leftmost (optLeaf (Some h :: rest))
                (merkleDepth (length (Some h :: rest)))) as [r Hr]; [by eexists|].
    congruence.
  - split; [done|]. intros _. by apply refSubtree_leftmost_None.
Qed.

(** The leaf loop of [BuildMerkleTreeStore] fills the array as [copy] fills
    it with the leaf hashes. *)
Lemma populateLeaves_copySlice witness txs N :
  (length txs ≤ N)%nat →
  populateLeaves witness 0 txs (replicate N None)
  = Some (copySlice (replicate N None) (Some <$> leafHashes witness txs)).
Proof.
  intros Hn.
  destruct (populateLeaves_spec witness txs 0 (replicate N None))
    as (m0 & -> & Hlen & Hout & Hin); [rewrite length_replicate; lia|].
  f_equal. rewrite length_replicate in Hlen.
  assert (Hl : length (Some <$> leafHashes witness txs) = length txs)
    by (by rewrite length_fmap, leafHashes_length).
  apply list_eq. intros k. destruct (decide (k < N)%nat) as [Hk|Hk].
  - rewrite copySlice_lookup by (rewrite ?Hl; lia).
    unfold optLeaf. rewrite list_lookup_fmap, leafHashes_lookup.
    destruct (txs !! k) as [tx|] eqn:Htx; simpl.
    + by apply (Hin k tx).
    + apply lookup_ge_None in Htx. rewrite Hout by lia.
      apply lookup_replicate_2. lia.
  - rewrite !lookup_ge_None_2; [done| |lia].
    rewrite copySlice_length; rewrite ?Hl; lia.
Qed.

(** X3. The tree store of a list of transactions is the tree store
    [BuildParentsMerkleTreeStore] builds over their leaf hashes, in either
    witness mode; the leaf hashes are the [TxHash] hashes without witness,
    and with witness the full hashes with leaf 0 replaced by the zero
    hash.  (At most [2 ^ 62] transactions, and the float logarithm
    exact where [nextPowerOfTwo] consults it.) *)
Theorem BuildMerkleTreeStore_as_parents_store (transactions : list Tx) (witness : bool) :
  leafHashes false transactions = (λ tx, TxHash (TxTx tx)) <$> transactions
  ∧ leafHashes true transactions = <[0%nat := ZeroHash]> (fullHashes transactions)
  ∧ (Z.of_nat (length transactions) ≤ 2 ^ 62 →
     Log2ExactAt (Z.of_nat (length transactions)) →
     BuildMerkleTreeStore transactions witness
     = BuildParentsMerkleTreeStore (Some <$> leafHashes witness transactions)).
Proof.
  split; [|split].
  { apply list_eq. intros i. rewrite leafHashes_lookup, list_lookup_fmap.
    by destruct (transactions !! i). }
  { apply list_eq. intros [|i]; rewrite leafHashes_lookup.
    - by destruct transactions.
    - rewrite list_lookup_insert_ne by lia. unfold fullHashes.
      rewrite list_lookup_fmap. by destruct (transactions !! S i). }
  intros Hmax Hlog.
  unfold BuildMerkleTreeStore, BuildParentsMerkleTreeStore.
  rewrite length_fmap, leafHashes_length.
  set (n := length transactions) in *.
  destruct (n =? 0)%nat eqn:Hn0; [done|]. apply Nat.eqb_neq in Hn0.
  assert (Hd : Z.of_nat (2 ^ merkleDepth n) = 2 ^ Z.log2_up (Z.of_nat n))
    by apply pow2_merkleDepth.
  set (d := merkleDepth n) in *. clearbody d.
  assert (HP : nextPowerOfTwo (Z.of_nat n) = Z.of_nat (2 ^ d)).
  { rewrite nextPowerOfTwo_exact by (done || lia). by rewrite Hd. }
  assert (HnP : (n ≤ 2 ^ d)%nat).
  { apply Nat2Z.inj_le. rewrite Hd.
    apply (pow2_log2_up_least (Z.of_nat n)). lia. }
  assert (HPmax : Z.of_nat (2 ^ d) ≤ 2 ^ 62).
  { rewrite Hd. apply Z.pow_le_mono_r; [lia|].
    apply Z.log2_up_le_pow2; lia. }
  rewrite HP, int64_small by lia.
  destruct (Z.of_nat (2 ^ d) * 2 - 1 <? 0) eqn:Hneg; [done|]. apply Z.ltb_ge in Hneg.
  rewrite populateLeaves_copySlice by (fold n; lia). done.
Qed.


(** X4. Layout of the array [BuildMerkleTreeStore] returns for [n > 0]
    transactions, with [d] the number of levels above the leaves: slot
    [i < n] holds the leaf hash of the [i]-th transaction, the slots from
    [n] to [2 ^ d - 1] are [nil], and level [k] starts at slot
    [levelOffset d k] and holds at position [pos] the reference subtree of
    that level and position; so a node without right sibling is paired
    with itself at every level.  (At most [2 ^ 62] transactions, and the
    float logarithm exact where [nextPowerOfTwo] consults it.) *)
Theorem BuildMerkleTreeStore_levels (transactions : list Tx) (witness : bool) :
  (0 < length transactions)%nat →
  Z.of_nat (length transactions) ≤ 2 ^ 62 →
  Log2ExactAt (Z.of_nat (length transactions)) →
  let d := merkleDepth (length transactions) in
  ∃ merkles, BuildMerkleTreeStore transactions witness = Some merkles
    ∧ (∀ i tx, transactions !! i = Some tx →
         merkles !! i = Some (Some (leafHash witness i tx)))
    ∧ (∀ i, (length transactions ≤ i < 2 ^ d)%nat → merkles !! i = Some None)
    ∧ (∀ k pos, (k ≤ d)%nat → (pos < 2 ^ (d - k))%nat →
         merkles !! (levelOffset d k + pos)%nat
         = Some (refSubtree (λ i, leafHashes witness transactions !! i) k pos)).
Proof.
  intros Hpos Hmax Hlog d.
  destruct (BuildMerkleTreeStore_slots transactions witness Hpos Hmax Hlog)
    as (HP & m & Hrun & Hlen & Hslots).
  fold d in HP, Hlen, Hslots.
  assert (HnP : (length transactions ≤ 2 ^ d)%nat).
  { apply Nat2Z.inj_le. unfold d. rewrite pow2_merkleDepth.
    apply (pow2_log2_up_least (Z.of_nat (length transactions))). lia. }
  exists m. split; [done|]. split; [|split; [|done]].
  - intros i tx Htx. pose proof (lookup_lt_Some _ _ _ Htx) as Hi.
    specialize (Hslots 0%nat i ltac:(lia)). simpl in Hslots.
    rewrite Hslots by (rewrite Nat.sub_0_r; lia).
    by rewrite leafHashes_lookup, Htx.
  - intros i Hi. specialize (Hslots 0%nat i ltac:(lia)). simpl in Hslots.
    rewrite Hslots by (rewrite Nat.sub_0_r; lia).
    rewrite leafHashes_lookup, (lookup_ge_None_2 transactions i) by lia. done.
Qed.
End ParentsStore.

(** ** Merkle roots of transaction lists *)

Section MerkleRoots.
Context `{HashFunctions} `{FloatLog2}.
#[local] Arguments Nat.mul : simpl never.
#[local] Arguments Nat.pow : simpl never.
#[local] Arguments Nat.sub : simpl never.

Lemma leafHashes_NewTx txns : leafHashes false (NewTx <$> txns) = TxHash <$> txns.
Proof.
  apply list_eq. intros i.
  rewrite leafHashes_lookup, !list_lookup_fmap. by destruct (txns !! i).
Qed.

Lemma calcMerkleRoot_spec txns :
  (0 < length txns)%nat →
  Z.of_nat (length txns) ≤ 2 ^ 62 →
  Log2ExactAt (Z.of_nat (length txns)) →
  ∃ root, calcMerkleRoot txns = Some root
    ∧ refMerkleRoot (TxHash <$> txns) = Some root.
Proof.
  intros Hpos Hmax Hlog.
  destruct (BuildMerkleTreeStore_root (NewTx <$> txns) false)
    as (m & root & Hrun & _ & Hlast & Hroot); [by rewrite ?length_fmap..|].
  exists root. unfold calcMerkleRoot. rewrite Hrun. simpl. rewrite Hlast.
  by rewrite leafHashes_NewTx in Hroot.
Qed.

(** X5. [CalcMerkleRoot] returns the zero hash for no transactions, the
    transaction's hash for one, the hash of the two transaction hashes for
    two, and in general, without panicking on a [nil] root, the root of
    the reference pairing of the [TxHash] hashes.  (At most [2 ^ 62]
    transactions, and the float logarithm exact where [nextPowerOfTwo]
    consults it.) *)
Theorem CalcMerkleRoot_reference (txns : list Transaction) :
  CalcMerkleRoot [] = Some ZeroHash
  ∧ (∀ t, CalcMerkleRoot [t] = Some (TxHash t))
  ∧ (∀ a b, CalcMerkleRoot [a; b] = Some (HashMerkleBranches (TxHash a) (TxHash b)))
  ∧ ((0 < length txns)%nat →
     Z.of_nat (length txns) ≤ 2 ^ 62 →
     Log2ExactAt (Z.of_nat (length txns)) →
     ∃ root, CalcMerkleRoot txns = Some root
       ∧ calcMerkleRoot txns = Some root
       ∧ refMerkleRoot (TxHash <$> txns) = Some root).
Proof.
  split; [done|]. split; [done|]. split; [done|].
  intros Hpos Hmax Hlog.
  destruct (calcMerkleRoot_spec txns Hpos Hmax Hlog) as (root & Hrun & Href).
  by exists root.
Qed.
End MerkleRoots.

(** ** A repeated last transaction *)

Section MerkleMutation.
Context `{HashFunctions} `{FloatLog2}.
#[local] Arguments Nat.mul : simpl never.
#[local] Arguments Nat.pow : simpl never.
#[local] Arguments Nat.sub : simpl never.

Lemma refSubtree_ext_above f g :
  (∀ pos, refSubtree f 1 pos = refSubtree g 1 pos) →
  ∀ k pos, refSubtree f (S k) pos = refSubtree g (S k) pos.
Proof.
  intros H1. induction k as [|k IH]; intros pos; [apply H1|].
  change (refSubtree f (S (S k)) pos)
    with (refParent (refSubtree f (S k) (2 * pos)) (refSubtree f (S k) (2 * pos + 1))).
  change (refSubtree g (S (S k)) pos)
    with (refParent (refSubtree g (S k) (2 * pos)) (refSubtree g (S k) (2 * pos + 1))).
  by rewrite !IH.
Qed.

(** After an even number of leaves, a last leaf alone and the same leaf
    twice give the same level 1. *)
Lemma refSubtree_duplicate_last (hs : list Hash) (x : Hash) (q : nat) :
  length hs = (2 * q)%nat →
  ∀ pos, refSubtree (λ i, (hs ++ [x]) !! i) 1 pos
         = refSubtree (λ i, (hs ++ [x; x]) !! i) 1 pos.
Proof.
  intros Hlen pos. simpl.
  destruct (decide (pos < q)%nat) as [Hlt|Hge].
  - by rewrite !lookup_app_l by lia.
  - rewrite !lookup_app_r by lia. rewrite Hlen.
    destruct (decide (pos = q)) as [->|Hne].
    + replace (2 * q - 2 * q)%nat with 0%nat by lia.
      replace (2 * q + 1 - 2 * q)%nat with 1%nat by lia. done.
    + replace (2 * pos - 2 * q)%nat with (S (S (2 * (pos - q - 1)))) by lia.
      replace (2 * pos + 1 - 2 * q)%nat with (S (S (2 * (pos - q - 1) + 1))) by lia.
      done.
Qed.

Lemma log2_up_odd_succ n q : 1 ≤ q → n = 2 * q + 1 → Z.log2_up (n + 1) = Z.log2_up n ∧ 2 ≤ Z.log2_up n.
Proof.
  intros Hq ->.
  destruct (Z.log2_up_spec (2 * q + 1) ltac:(lia)) as [Hlo Hhi].
  set (e := Z.log2_up (2 * q + 1)) in *.
  assert (He : 2 ≤ e).
  { destruct (decide (2 ≤ e)) as [|Hsmall]; [done|].
    assert (2 ^ e ≤ 2 ^ 1) by (apply Z.pow_le_mono_r; lia). lia. }
  split; [|done].
  apply Z.log2_up_unique; [lia|]. unfold Z.pred in *. split; [lia|].
  assert (Heven : 2 ^ e = 2 * 2 ^ (e - 1)).
  { rewrite <- Z.pow_succ_r by lia. f_equal. lia. }
  lia.
Qed.

Lemma refMerkleRoot_duplicate_last (hs : list Hash) (x : Hash) (q : nat) :
  (1 ≤ q)%nat → length hs = (2 * q)%nat →
  refMerkleRoot (hs ++ [x]) = refMerkleRoot (hs ++ [x; x]).
Proof.
  intros Hq Hlen. unfold refMerkleRoot, merkleDepth.
  rewrite !length_app, Hlen. simpl length.
  destruct (log2_up_odd_succ (Z.of_nat (2 * q + 1)) (Z.of_nat q)) as [Heq Hge]; [lia..|].
  replace (Z.of_nat (2 * q + 2)) with (Z.of_nat (2 * q + 1) + 1) by lia.
  rewrite Heq.
  destruct (Z.to_nat (Z.log2_up (Z.of_nat (2 * q + 1)))) as [|k] eqn:Hk; [lia|].
  apply refSubtree_ext_above. by apply (refSubtree_duplicate_last hs x q).
Qed.

(** X6. The Merkle root does not fix the number of transactions: for an
    odd number (at least 3) of transactions, appending a copy of the last
    one leaves [CalcMerkleRoot] unchanged.  (Sizes up to [2 ^ 62], and the
    float logarithm exact where [nextPowerOfTwo] consults it.) *)
Theorem CalcMerkleRoot_duplicate_last (txns : list Transaction) (t : Transaction) :
  (2 ≤ length txns)%nat → Nat.Even (length txns) →
  Z.of_nat (length txns) + 2 ≤ 2 ^ 62 →
  Log2ExactAt (Z.of_nat (length txns) + 1) →
  Log2ExactAt (Z.of_nat (length txns) + 2) →
  ∃ root, CalcMerkleRoot (txns ++ [t]) = Some root
    ∧ CalcMerkleRoot (txns ++ [t; t]) = Some root.
Proof.
  intros Hlen [q Hq] Hmax Hlog1 Hlog2.
  destruct (calcMerkleRoot_spec (txns ++ [t])) as (r1 & Hrun1 & Href1).
  { rewrite length_app. simpl. lia. }
  { rewrite length_app. simpl. lia. }
  { rewrite length_app. simpl length.
    by replace (Z.of_nat (length txns + 1)) with (Z.of_nat (length txns) + 1) by lia. }
  destruct (calcMerkleRoot_spec (txns ++ [t; t])) as (r2 & Hrun2 & Href2).
  { rewrite length_app. simpl. lia. }
  { rewrite length_app. simpl. lia. }
  { rewrite length_app. simpl length.
    by replace (Z.of_nat (length txns + 2)) with (Z.of_nat (length txns) + 2) by lia. }
  exists r1. split; [done|]. unfold CalcMerkleRoot. rewrite Hrun2. f_equal.
  rewrite fmap_app in Href1, Href2. simpl in Href1, Href2.
  rewrite (refMerkleRoot_duplicate_last (TxHash <$> txns) (TxHash t) q) in Href1;
    [congruence|lia|by rewrite length_fmap].
Qed.
End MerkleMutation.

(** ** The earlier tree store *)

Section NoxStore.
Context `{HashFunctions} `{FloatLog2}.
#[local] Arguments Nat.mul : simpl never.
#[local] Arguments Nat.pow : simpl never.
#[local] Arguments Nat.sub : simpl never.

(** The two pairing loops are the same function. *)
Lemma Nox_pairingLoop_eq fuel : ∀ arraySize i offset merkles,
  Nox.pairingLoop fuel arraySize i offset merkles
  = pairingLoop fuel arraySize i offset merkles.
Proof.
  induction fuel as [|fuel IH]; intros arraySize i offset merkles; [done|].
  simpl. destruct (i <? arraySize - 1)%nat; [|done].
  destruct (merkles !! i) as [l|]; [|done]. simpl.
  change Nox.hashMerkleBranches with HashMerkleBranches.
  destruct (match l with
            | Some l0 => _
            | None => Some None
            end) as [parent|]; [|done]. simpl.
  destruct (setSlot merkles offset parent); [|done]. simpl. apply IH.
Qed.

Lemma Nox_populateLeaves_spec txs : ∀ i merkles,
  (i + length txs ≤ length merkles)%nat →
  ∃ merkles', Nox.populateLeaves i txs merkles = Some merkles'
    ∧ length merkles' = length merkles
    ∧ (∀ k, (k < i ∨ i + length txs ≤ k)%nat → merkles' !! k = merkles !! k)
    ∧ (∀ k tx, txs !! k = Some tx →
         merkles' !! (i + k)%nat = Some (Some (TxHashFull (TxTx tx)))).
Proof.
  induction txs as [|tx rest IH]; intros i merkles Hlen; simpl in *.
  - exists merkles. split; [done|]. split; [done|]. split; [done|].
    intros k tx Hk. by rewrite lookup_nil in Hk.
  - rewrite setSlot_Some by lia. simpl.
    destruct (IH (S i) (<[i := Some (TxHashFull (TxTx tx))]> merkles))
      as (m' & Hrun & Hl & Hout & Hin).
    { rewrite length_insert. lia. }
    exists m'. rewrite length_insert in Hl. split; [done|]. split; [done|]. split.
    + intros k Hk. rewrite Hout by lia. apply list_lookup_insert_ne. lia.
    + intros [|k] tx' Hk; simpl in Hk.
      * injection Hk as <-. rewrite Nat.add_0_r, Hout by lia.
        apply list_lookup_insert_eq. lia.
      * replace (i + S k)%nat with (S i + k)%nat by lia. by apply Hin.
Qed.

Lemma Nox_populateLeaves_copySlice txs N :
  (length txs ≤ N)%nat →
  Nox.populateLeaves 0 txs (replicate N None)
  = Some (copySlice (replicate N None) (Some <$> fullHashes txs)).
Proof.
  intros Hn.
  destruct (Nox_populateLeaves_spec txs 0 (replicate N None))
    as (m0 & -> & Hlen & Hout & Hin); [rewrite length_replicate; lia|].
  f_equal. rewrite length_replicate in Hlen.
  assert (Hl : length (Some <$> fullHashes txs) = length txs)
    by (unfold fullHashes; by rewrite !length_fmap).
  apply list_eq. intros k. destruct (decide (k < N)%nat) as [Hk|Hk].
  - rewrite copySlice_lookup by (rewrite ?Hl; lia).
    unfold optLeaf, fullHashes. rewrite !list_lookup_fmap.
    destruct (txs !! k) as [tx|] eqn:Htx; simpl.
    + by apply (Hin k tx).
    + apply lookup_ge_None in Htx. rewrite Hout by lia.
      apply lookup_replicate_2. lia.
  - rewrite !lookup_ge_None_2; [done| |lia].
    rewrite copySlice_length; rewrite ?Hl; lia.
Qed.

Lemma Nox_BuildMerkleTreeStore_parents txs :
  Z.of_nat (length txs) ≤ 2 ^ 62 →
  Log2ExactAt (Z.of_nat (length txs)) →
  Nox.BuildMerkleTreeStore txs = BuildParentsMerkleTreeStore (Some <$> fullHashes txs).
Proof.
  intros Hmax Hlog.
  unfold Nox.BuildMerkleTreeStore, BuildParentsMerkleTreeStore, fullHashes.
  rewrite !length_fmap. fold (fullHashes txs).
  set (n := length txs) in *.
  destruct (n =? 0)%nat eqn:Hn0; [done|]. apply Nat.eqb_neq in Hn0.
  assert (Hd : Z.of_nat (2 ^ merkleDepth n) = 2 ^ Z.log2_up (Z.of_nat n))
    by apply pow2_merkleDepth.
  set (d := merkleDepth n) in *. clearbody d.
  assert (HP : nextPowerOfTwo (Z.of_nat n) = Z.of_nat (2 ^ d)).
  { rewrite nextPowerOfTwo_exact by (done || lia). by rewrite Hd. }
  assert (HnP : (n ≤ 2 ^ d)%nat).
  { apply Nat2Z.inj_le. rewrite Hd.
    apply (pow2_log2_up_least (Z.of_nat n)). lia. }
  assert (HPmax : Z.of_nat (2 ^ d) ≤ 2 ^ 62).
  { rewrite Hd. apply Z.pow_le_mono_r; [lia|].
    apply Z.log2_up_le_pow2; lia. }
  rewrite HP, int64_small by lia.
  destruct (Z.of_nat (2 ^ d) * 2 - 1 <? 0) eqn:Hneg; [done|]. apply Z.ltb_ge in Hneg.
  rewrite Nox_populateLeaves_copySlice by (fold n; lia). simpl.
  apply Nox_pairingLoop_eq.
Qed.

(** X7. The earlier version of the file: its [CalcMerkleRoot] returns
    the zero hash and no error whatever the nodes; its
    [BuildMerkleTreeStore] is the tree store
    [BuildParentsMerkleTreeStore] builds over the full hashes of the
    transactions; and its [calcMerkleRoot] returns the root of the
    reference pairing of the full hashes.  (At most [2 ^ 62]
    transactions, and the float logarithm exact where [nextPowerOfTwo]
    consults it.) *)
Theorem Nox_BuildMerkleTreeStore_full_hashes (txs : list Tx) (nodes : list Hash) :
  Nox.CalcMerkleRoot nodes = (ZeroHash, None)
  ∧ (Z.of_nat (length txs) ≤ 2 ^ 62 →
     Log2ExactAt (Z.of_nat (length txs)) →
     Nox.BuildMerkleTreeStore txs = BuildParentsMerkleTreeStore (Some <$> fullHashes txs)
     ∧ ((0 < length txs)%nat →
        ∃ merkles root, Nox.BuildMerkleTreeStore txs = Some merkles
          ∧ last merkles = Some (Some root)
          ∧ refMerkleRoot (fullHashes txs) = Some root
          ∧ Nox.calcMerkleRoot (TxTx <$> txs) = Some root)).
Proof.
  split; [done|]. intros Hmax Hlog.
  pose proof (Nox_BuildMerkleTreeStore_parents txs Hmax Hlog) as Hnox.
  split; [done|].
  - intros Hpos.
    assert (Hl : length (Some <$> fullHashes txs) = length txs)
      by (unfold fullHashes; by rewrite !length_fmap).
    destruct (BuildParentsMerkleTreeStore_paired (Some <$> fullHashes txs))
      as (_ & _ & m & Hrun & Hfin); [rewrite Hl; done..|].
    rewrite Hl in Hfin. apply paired_last in Hfin.
    assert (Hleaf : ∀ k pos,
              refSubtree (optLeaf (Some <$> fullHashes txs)) k pos
              = refSubtree (λ i, fullHashes txs !! i) k pos).
    { induction k as [|k IH]; intros pos; simpl.
      - unfold optLeaf. rewrite list_lookup_fmap. by destruct (fullHashes txs !! pos).
      - by rewrite !IH. }
    rewrite Hleaf in Hfin.
    destruct (refSubtree_leftmost (λ i, fullHashes txs !! i) (merkleDepth (length txs)))
      as [root Hroot].
    { destruct txs; [simpl in Hpos; lia|]. by eexists. }
    assert (Href : refMerkleRoot (fullHashes txs) = Some root).
    { unfold refMerkleRoot, fullHashes. rewrite length_fmap. done. }
    exists m, root. rewrite Hnox. split; [done|]. rewrite Hfin, Hroot.
    split; [done|]. split; [done|].
    unfold Nox.calcMerkleRoot.
    assert (Hsame : Nox.BuildMerkleTreeStore (NewTx <$> (TxTx <$> txs))
                    = Nox.BuildMerkleTreeStore txs).
    { rewrite !Nox_BuildMerkleTreeStore_parents by (rewrite ?length_fmap; done).
      f_equal. f_equal. unfold fullHashes. rewrite <- !list_fmap_compose.
      by apply list_fmap_ext. }
    rewrite Hsame, Hnox, Hrun. simpl. by rewrite Hfin, Hroot.
Qed.
End NoxStore.

(** ** nextPowerOfTwo without the float logarithm *)

Section NextPowerOfTwoFixed.
Context `{FloatLog2}.

Lemma land_pred_zero_pow2 n : 1 ≤ n → Z.land n (n - 1) = 0 → n = 2 ^ Z.log2 n.
Proof.
  intros Hn Hland. destruct (decide (n = 2 ^ Z.log2 n)) as [|Hne]; [done|].
  by apply land_pred_nonzero in Hne; [|lia].
Qed.

(** X8. Whatever [math.Log2] returns, [nextPowerOfTwo] returns its
    argument unchanged exactly on the powers of two (for [1 ≤ n < 2 ^ 63];
    it also returns 0 on 0), and every result is the argument, a power of
    two up to [2 ^ 62], 0 or [- 2 ^ 63]. *)
Theorem nextPowerOfTwo_fixed_points (n : Z) :
  nextPowerOfTwo 0 = 0
  ∧ (1 ≤ n < 2 ^ 63 →
     (nextPowerOfTwo n = n ↔ ∃ k, 0 ≤ k ≤ 62 ∧ n = 2 ^ k)
     ∧ (nextPowerOfTwo n = n ∨ nextPowerOfTwo n = 0 ∨ nextPowerOfTwo n = - 2 ^ 63
        ∨ ∃ e, 0 ≤ e ≤ 62 ∧ nextPowerOfTwo n = 2 ^ e)).
Proof.
  split; [done|]. intros Hn.
  assert (Hcase : (∃ k, 0 ≤ k ≤ 62 ∧ n = 2 ^ k) ∨ Z.land n (n - 1) ≠ 0).
  { destruct (decide (Z.land n (n - 1) = 0)) as [Hz|Hnz]; [left|by right].
    exists (Z.log2 n). split; [|by apply land_pred_zero_pow2; [lia|]].
    split; [apply Z.log2_nonneg|].
    assert (Z.log2 n < 63); [|lia]. apply Z.log2_lt_pow2; lia. }
  assert (Hshape : ∀ e, 0 ≤ e →
            (if e <? 64 then int64 (Z.shiftl 1 e) else 0) = 0
            ∨ (if e <? 64 then int64 (Z.shiftl 1 e) else 0) = - 2 ^ 63
            ∨ ∃ e', 0 ≤ e' ≤ 62 ∧ (if e <? 64 then int64 (Z.shiftl 1 e) else 0) = 2 ^ e').
  { intros e He. destruct (e <? 64) eqn:Hlt; [|by left]. apply Z.ltb_lt in Hlt.
    rewrite Z.shiftl_1_l. destruct (decide (e = 63)) as [->|Hne].
    - right. left. reflexivity.
    - right. right. exists e. split; [lia|]. apply int64_small.
      assert (0 < 2 ^ e ≤ 2 ^ 62); [|lia].
      split; [apply Z.pow_pos_nonneg; lia|apply Z.pow_le_mono_r; lia]. }
  destruct Hcase as [(k & Hk & ->)|Hnz].
  - rewrite nextPowerOfTwo_pow2 by done. split; [|by left].
    split; [|done]. intros _. by exists k.
  - unfold nextPowerOfTwo. rewrite int64_small by lia.
    apply Z.eqb_neq in Hnz as Hnz'. rewrite Hnz'.
    pose proof (Z.mod_pos_bound (uintLog2 n + 1) (2 ^ 64) ltac:(lia)) as He.
    fold (uint64 (uintLog2 n + 1)) in He.
    destruct (Hshape (uint64 (uintLog2 n + 1)) (proj1 He)) as [H0|[Hm|(e' & He' & Hp)]].
    + rewrite H0. split; [|tauto]. split; [lia|].
      intros (k & Hk & ->). by rewrite land_pred_pow2 in Hnz by lia.
    + rewrite Hm. split; [|tauto]. split; [lia|].
      intros (k & Hk & ->). by rewrite land_pred_pow2 in Hnz by lia.
    + rewrite Hp. split; [|right; right; right; by exists e'].
      split.
      * intros Heq. exfalso. rewrite <- Heq in Hnz.
        by rewrite land_pred_pow2 in Hnz by lia.
      * intros (k & Hk & ->). by rewrite land_pred_pow2 in Hnz by lia.
Qed.
End NextPowerOfTwoFixed.

(** ** The coinbase in the witness commitment *)

Section WitnessCoinbase.
Context `{HashFunctions} `{FloatLog2}.

Lemma BuildMerkleTreeStore_witness_head cb cb' rest :
  BuildMerkleTreeStore (cb :: rest) true = BuildMerkleTreeStore (cb' :: rest) true.
Proof. reflexivity. Qed.

(** X9. The witness-mode tree does not depend on the first transaction,
    and [ValidateWitnessCommitment] reads nothing of the coinbase
    transaction but its first input: two blocks with the same other
    transactions and coinbases with the same first input (or both without
    inputs) get the same verdict. *)
Theorem ValidateWitnessCommitment_ignores_coinbase
    (cb cb' : Tx) (rest : list Tx) (h h' : Hash) (locs locs' : result (list TxLoc)) :
  BuildMerkleTreeStore (cb :: rest) true = BuildMerkleTreeStore (cb' :: rest) true
  ∧ (head (TxIn (TxTx cb)) = head (TxIn (TxTx cb')) →
     ValidateWitnessCommitment
       {| BlockHash := h; Transactions := cb :: rest; BlockTxLoc := locs |}
     = ValidateWitnessCommitment
         {| BlockHash := h'; Transactions := cb' :: rest; BlockTxLoc := locs' |}).
Proof.
  split; [apply BuildMerkleTreeStore_witness_head|].
  intros Hhead. unfold ValidateWitnessCommitment. cbn [Transactions].
  destruct (TxIn (TxTx cb)) as [|in0 ins], (TxIn (TxTx cb')) as [|in0' ins'];
    try done.
  injection Hhead as <-.
  unfold computedCommitment.
  by rewrite (BuildMerkleTreeStore_witness_head cb cb' rest).
Qed.
End WitnessCoinbase.

(** ** Transaction index entries *)

Section TxEntryRoundTrip.
Context `{ByteOrder}.

Lemma copyInto_length n src : length (copyInto n src) = n.
Proof. unfold copyInto. rewrite length_take, length_app, length_replicate. lia. Qed.

Lemma copyInto_exact n src : length src = n → copyInto n src = src.
Proof.
  intros Hlen. unfold copyInto. rewrite take_app_le by lia. apply take_ge. lia.
Qed.

Lemma copyInto_idemp n src : copyInto n (copyInto n src) = copyInto n src.
Proof. apply copyInto_exact, copyInto_length. Qed.

(** A write into a buffer changes the bytes written and no others. *)
Lemma putAt_spec buf off bs buf' :
  putAt buf off bs = Some buf' →
  length buf' = length buf
  ∧ take off buf' = take off buf
  ∧ take (length bs) (drop off buf') = bs
  ∧ drop (off + length bs) buf' = drop (off + length bs) buf.
Proof.
  unfold putAt. case_decide as Hlen; [|done]. intros [= <-].
  assert (Ht : length (take off buf) = off) by (rewrite length_take; lia).
  split; [rewrite !length_app, length_take, length_drop; lia|]. split; [|split].
  - rewrite take_app_le by lia. rewrite take_take. f_equal. lia.
  - rewrite drop_app_ge by lia. rewrite Ht, Nat.sub_diag, drop_0.
    rewrite take_app_le by lia. apply take_ge. lia.
  - rewrite drop_app_ge by lia. rewrite Ht.
    replace (off + length bs - off)%nat with (length bs) by lia.
    rewrite drop_app_ge by lia. by rewrite Nat.sub_diag, drop_0.
Qed.

Lemma take_drop_segment {A} (l l' : list A) a b :
  take a l' = take a l → drop b l' = drop b l → length l' = length l →
  ∀ i n, (i + n ≤ a ∨ b ≤ i)%nat → take n (drop i l') = take n (drop i l).
Proof.
  intros Ha Hb Hlen i n Hin. apply list_eq. intros k.
  rewrite !lookup_take, !lookup_drop.
  destruct (decide (k < n)%nat) as [Hk|Hk]; [|done].
  destruct Hin as [Hin|Hin].
  - assert (Hl : take a l' !! (i + k)%nat = take a l !! (i + k)%nat) by by rewrite Ha.
    rewrite !lookup_take in Hl. by rewrite !decide_True in Hl by lia.
  - assert (Hl : drop b l' !! (i + k - b)%nat = drop b l !! (i + k - b)%nat)
      by by rewrite Hb.
    rewrite !lookup_drop in Hl.
    by replace (b + (i + k - b))%nat with (i + k)%nat in Hl by lia.
Qed.

Lemma take_plus {A} (l : list A) a b : take (a + b) l = take a l ++ take b (drop a l).
Proof.
  revert l. induction a as [|a IH]; intros [|x l]; simpl; rewrite ?take_nil; [done..|].
  by rewrite IH.
Qed.

Lemma putTxIndexEntry_entry buf off blockID txLoc buf' :
  putTxIndexEntry buf off blockID txLoc = Some buf' →
  take txEntrySize (drop off buf') = txEntry blockID txLoc.
Proof.
  unfold putTxIndexEntry, txEntry, txEntrySize. intros Hput.
  destruct (putAt buf off (PutUint32 blockID)) as [b1|] eqn:H1; [|done].
  simpl in Hput.
  destruct (putAt b1 (off + 4) (PutUint32 (uint32 (TxStart txLoc)))) as [b2|] eqn:H2;
    [|done]. simpl in Hput.
  apply putAt_spec in H1 as (Hl1 & Ht1 & Hm1 & Hd1).
  apply putAt_spec in H2 as (Hl2 & Ht2 & Hm2 & Hd2).
  apply putAt_spec in Hput as (Hl3 & Ht3 & Hm3 & Hd3).
  rewrite !PutUint32_length in *.
  assert (Hseg1 : take 4 (drop off buf') = PutUint32 blockID).
  { rewrite <- Hm1.
    rewrite (take_drop_segment b2 buf' (off + 8) (off + 8 + 4)) by (done || lia).
    apply (take_drop_segment b1 b2 (off + 4) (off + 4 + 4)); (done || lia). }
  assert (Hseg2 : take 4 (drop (off + 4) buf') = PutUint32 (uint32 (TxStart txLoc))).
  { rewrite <- Hm2.
    apply (take_drop_segment b2 buf' (off + 8) (off + 8 + 4)); (done || lia). }
  rewrite <- Hseg1, <- Hseg2, <- Hm3.
  rewrite <- !drop_drop.
  change 12%nat with (4 + (4 + 4))%nat. rewrite !take_plus.
  do 3 f_equal. apply drop_drop.
Qed.

Lemma txEntry_decode blockID txLoc extra :
  0 ≤ blockID < 2 ^ 32 →
  let data := txEntry blockID txLoc ++ extra in
  (12 ≤ length data)%nat
  ∧ take 4 data = PutUint32 blockID
  ∧ Uint32 (take 4 (drop 4 data)) = uint32 (TxStart txLoc)
  ∧ Uint32 (take 4 (drop 8 data)) = uint32 (TxLen txLoc).
Proof.
  intros Hid data. unfold data, txEntry.
  pose proof (PutUint32_length blockID) as L1.
  pose proof (PutUint32_length (uint32 (TxStart txLoc))) as L2.
  pose proof (PutUint32_length (uint32 (TxLen txLoc))) as L3.
  split; [rewrite !length_app; lia|]. rewrite <- !app_assoc.
  split; [by apply take_app_length'|]. split.
  - rewrite drop_app_length' by done. rewrite take_app_length' by done.
    apply Uint32_PutUint32, uint32_range.
  - change 8%nat with (4 + 4)%nat. rewrite <- drop_drop.
    rewrite !drop_app_length' by done. rewrite take_app_length' by done.
    apply Uint32_PutUint32, uint32_range.
Qed.

Lemma dbFetchTxIndexEntry_txEntry dbTx h blockID txLoc extra bh :
  0 ≤ blockID < 2 ^ 32 →
  txIndexBucket dbTx !! h = Some (txEntry blockID txLoc ++ extra) →
  hashByIDIndexBucket dbTx !! PutUint32 blockID = Some bh →
  dbFetchTxIndexEntry dbTx h
  = Ok (Some {| RegionHash := copyInto HashSize bh;
                Offset := uint32 (TxStart txLoc);
                Len := uint32 (TxLen txLoc) |}).
Proof.
  intros Hid Hentry Hloc.
  destruct (txEntry_decode blockID txLoc extra Hid) as (Hlen & Hkey & Hoff & Hln).
  unfold dbFetchTxIndexEntry. rewrite Hentry. unfold sliceLen. simpl.
  destruct (length _ =? 0)%nat eqn:H0; [apply Nat.eqb_eq in H0; lia|].
  destruct (length _ <? 12)%nat eqn:H12; [apply Nat.ltb_lt in H12; lia|].
  unfold dbFetchBlockHashBySerializedID. rewrite Hkey, Hloc, Hoff, Hln.
  by rewrite copyInto_idemp.
Qed.
Lemma putTxIndexEntry_frame buf off blockID txLoc buf' :
  putTxIndexEntry buf off blockID txLoc = Some buf' →
  drop (off + txEntrySize) buf' = drop (off + txEntrySize) buf.
Proof.
  unfold putTxIndexEntry, txEntrySize. intros Hput.
  destruct (putAt buf off (PutUint32 blockID)) as [b1|] eqn:H1; [|done].
  simpl in Hput.
  destruct (putAt b1 (off + 4) (PutUint32 (uint32 (TxStart txLoc)))) as [b2|] eqn:H2;
    [|done]. simpl in Hput.
  apply putAt_spec in H1 as (_ & _ & _ & Hd1).
  apply putAt_spec in H2 as (_ & _ & _ & Hd2).
  apply putAt_spec in Hput as (_ & _ & _ & Hd3).
  rewrite !PutUint32_length in *.
  replace (off + 12)%nat with (off + 8 + 4)%nat by lia. rewrite Hd3.
  replace (off + 8 + 4)%nat with (off + 4 + 4 + 4)%nat by lia.
  rewrite <- (drop_drop b2), Hd2, drop_drop.
  replace (off + 4 + 4 + 4)%nat with ((off + 4) + 8)%nat by lia.
  by rewrite <- (drop_drop b1), Hd1, drop_drop.
Qed.

Lemma putTxIndexEntry_short buf off blockID txLoc :
  (length buf < off + txEntrySize)%nat → putTxIndexEntry buf off blockID txLoc = None.
Proof.
  unfold txEntrySize, putTxIndexEntry. intros Hlen.
  destruct (putAt buf off (PutUint32 blockID)) as [b1|] eqn:H1; [|done]. simpl.
  destruct (putAt b1 (off + 4) (PutUint32 (uint32 (TxStart txLoc)))) as [b2|] eqn:H2;
    [|done]. simpl.
  apply putAt_spec in H1 as (Hl1 & _). apply putAt_spec in H2 as (Hl2 & _).
  unfold putAt. rewrite decide_False; [done|]. rewrite PutUint32_length. lia.
Qed.

(** X10. [putTxIndexEntry] writes 12 bytes into a target of at least 12
    bytes and panics on a shorter one.  A record that starts with these
    12 bytes, whatever follows them, is decoded by [dbFetchTxIndexEntry]
    to the hash stored for the block ID and to the start offset and the
    length truncated to [uint32]. *)
Theorem TxIndexEntry_roundtrip
    (dbTx : DbTx) (h bh : Hash) (blockID : Z) (txLoc : TxLoc) (extra target : list byte) :
  ((length target < txEntrySize)%nat → putTxIndexEntry target 0 blockID txLoc = None)
  ∧ ((txEntrySize ≤ length target)%nat →
     ∃ target', putTxIndexEntry target 0 blockID txLoc = Some target'
       ∧ take txEntrySize target' = txEntry blockID txLoc
       ∧ drop txEntrySize target' = drop txEntrySize target)
  ∧ (0 ≤ blockID < 2 ^ 32 →
     txIndexBucket dbTx !! h = Some (txEntry blockID txLoc ++ extra) →
     hashByIDIndexBucket dbTx !! PutUint32 blockID = Some bh →
     dbFetchTxIndexEntry dbTx h
     = Ok (Some {| RegionHash := copyInto HashSize bh;
                   Offset := uint32 (TxStart txLoc);
                   Len := uint32 (TxLen txLoc) |})).
Proof.
  split; [intros Hlen; by apply putTxIndexEntry_short|]. split.
  - intros Hlen.
    destruct (putTxIndexEntry_Some target 0 blockID txLoc Hlen) as (t' & Hput & Hl).
    exists t'. split; [done|]. split; [by apply (putTxIndexEntry_entry target 0)|].
    by apply (putTxIndexEntry_frame target 0 blockID txLoc).
  - apply dbFetchTxIndexEntry_txEntry.
Qed.
End TxEntryRoundTrip.

(** ** ConnectBlock and the lookup *)

Section ConnectLookup.
Context `{ByteOrder}.

(** The entry stored for a transaction is the one of its last occurrence
    in the list. *)
Lemma addEntries_lookup txLocs blockID txns : ∀ dbTx i offset buf,
  (i + length txns ≤ length txLocs)%nat →
  (offset + length txns * txEntrySize ≤ length buf)%nat →
  ∀ k tx txLoc,
    txns !! k = Some tx → txLocs !! (i + k)%nat = Some txLoc →
    (∀ j tx', (k < j)%nat → txns !! j = Some tx' → TxCachedHash tx' ≠ TxCachedHash tx) →
    txIndexBucket (addEntries dbTx txns txLocs blockID i offset buf).1 !! TxCachedHash tx
    = Some (txEntry blockID txLoc).
Proof.
  induction txns as [|tx0 rest IH]; intros dbTx i offset buf Hlocs Hbuf k tx txLoc Hk Hloc Hlast.
  { by rewrite lookup_nil in Hk. }
  simpl in Hlocs, Hbuf. simpl addEntries.
  destruct (lookup_lt_is_Some_2 txLocs i) as [txLoc0 Hloc0]; [lia|]. rewrite Hloc0.
  destruct (putTxIndexEntry_Some buf offset blockID txLoc0) as (buf' & Hput & Hlen');
    [unfold txEntrySize in *; lia|].
  rewrite Hput. apply putTxIndexEntry_entry in Hput.
  unfold dbPutTxIndexEntry. rewrite Hput.
  set (dbTx1 := {| txIndexBucket := <[TxCachedHash tx0 := txEntry blockID txLoc0]>
                                      (txIndexBucket dbTx);
                   idByHashIndexBucket := idByHashIndexBucket dbTx;
                   hashByIDIndexBucket := hashByIDIndexBucket dbTx |}).
  destruct k as [|k]; simpl in Hk.
  - injection Hk as ->. rewrite Nat.add_0_r, Hloc0 in Hloc. injection Hloc as ->.
    destruct (addEntries_spec txLocs blockID rest dbTx1 (S i) (offset + txEntrySize)%nat buf')
      as (dbTx' & Hrun & _ & _ & _ & Hout); [unfold txEntrySize in *; lia..|].
    rewrite Hrun. simpl. rewrite Hout; [apply lookup_insert_eq|].
    intros (tx' & Heq & Hin)%list_elem_of_fmap.
    apply list_elem_of_lookup in Hin as [j Hj].
    by apply (Hlast (S j) tx' ltac:(lia)).
  - assert (Hl1 : (S i + length rest ≤ length txLocs)%nat) by lia.
    assert (Hb1 : (offset + txEntrySize + length rest * txEntrySize ≤ length buf')%nat)
      by (unfold txEntrySize in *; lia).
    apply (IH dbTx1 (S i) (offset + txEntrySize)%nat buf' Hl1 Hb1 k tx txLoc Hk).
    + by replace (S i + k)%nat with (i + S k)%nat by lia.
    + intros j tx' Hj Htx'. by apply (Hlast (S j) tx' ltac:(lia)).
Qed.

(** With fewer locations than transactions, [txLocs[i]] panics. *)
Lemma addEntries_short txLocs blockID txns : ∀ dbTx i offset buf,
  (i ≤ length txLocs < i + length txns)%nat →
  (offset + length txns * txEntrySize ≤ length buf)%nat →
  (addEntries dbTx txns txLocs blockID i offset buf).2 = Panic.
Proof.
  induction txns as [|tx0 rest IH]; intros dbTx i offset buf Hlocs Hbuf; simpl in *.
  { lia. }
  destruct (txLocs !! i) as [txLoc0|] eqn:Hloc0; [|done].
  apply lookup_lt_Some in Hloc0.
  destruct (putTxIndexEntry_Some buf offset blockID txLoc0) as (buf' & -> & Hlen');
    [unfold txEntrySize in *; lia|].
  unfold dbPutTxIndexEntry. apply IH; unfold txEntrySize in *; lia.
Qed.

Lemma addEntries_other_buckets txLocs blockID txns : ∀ dbTx i offset buf,
  idByHashIndexBucket (addEntries dbTx txns txLocs blockID i offset buf).1
  = idByHashIndexBucket dbTx
  ∧ hashByIDIndexBucket (addEntries dbTx txns txLocs blockID i offset buf).1
    = hashByIDIndexBucket dbTx.
Proof.
  induction txns as [|tx0 rest IH]; intros dbTx i offset buf; simpl; [done|].
  destruct (txLocs !! i) as [txLoc0|]; [|done].
  destruct (putTxIndexEntry buf offset blockID txLoc0) as [buf'|]; [|done].
  unfold dbPutTxIndexEntry.
  apply (IH {| txIndexBucket := _; idByHashIndexBucket := idByHashIndexBucket dbTx;
               hashByIDIndexBucket := hashByIDIndexBucket dbTx |}).
Qed.

Lemma ConnectBlock_Ok idx dbTx block txLocs :
  BlockTxLoc block = Ok txLocs →
  (length (Transactions block) ≤ length txLocs)%nat →
  ∃ dbTx1,
    addEntries dbTx (Transactions block) txLocs (uint32 (curBlockID idx + 1)) 0 0
      (replicate (length (Transactions block) * txEntrySize) x00) = (dbTx1, Ok ())
    ∧ idByHashIndexBucket dbTx1 = idByHashIndexBucket dbTx
    ∧ hashByIDIndexBucket dbTx1 = hashByIDIndexBucket dbTx
    ∧ (∀ h, h ∉ TxCachedHash <$> Transactions block →
         txIndexBucket dbTx1 !! h = txIndexBucket dbTx !! h)
    ∧ ConnectBlock idx dbTx block
      = ({| db := db idx; curBlockID := uint32 (curBlockID idx + 1) |},
         {| txIndexBucket := txIndexBucket dbTx1;
            idByHashIndexBucket :=
              <[BlockHash block := PutUint32 (uint32 (curBlockID idx + 1))]>
                (idByHashIndexBucket dbTx);
            hashByIDIndexBucket :=
              <[PutUint32 (uint32 (curBlockID idx + 1)) := BlockHash block]>
                (hashByIDIndexBucket dbTx) |},
         Ok ()).
Proof.
  intros Hlocs Hlen.
  destruct (addEntries_spec txLocs (uint32 (curBlockID idx + 1)) (Transactions block)
              dbTx 0 0 (replicate (length (Transactions block) * txEntrySize) x00))
    as (dbTxA & Hrun & HidA & HhashA & HinA & HoutA);
    [lia|rewrite length_replicate; lia|].
  exists dbTxA. split; [done|]. split; [done|]. split; [done|]. split; [done|].
  unfold ConnectBlock, dbAddTxIndexEntries. rewrite Hlocs, Hrun.
  unfold dbPutBlockIDIndexEntry. simpl. by rewrite HidA, HhashA.
Qed.

(** X11. After a [ConnectBlock] of a block that yields a location for
    each of its transactions, the lookup of a transaction of the block
    returns the block's hash and the location of that transaction
    (truncated to [uint32]), whatever was stored for the hash before; if
    the block lists the hash more than once, the last occurrence counts. *)
Theorem ConnectBlock_then_TxBlockRegion
    (idx : TxIndex) (dbTx : DbTx) (block : SerializedBlock) (txLocs : list TxLoc)
    (k : nat) (tx : Tx) (txLoc : TxLoc) :
  BlockTxLoc block = Ok txLocs →
  (length (Transactions block) ≤ length txLocs)%nat →
  Transactions block !! k = Some tx → txLocs !! k = Some txLoc →
  (∀ j tx', (k < j)%nat → Transactions block !! j = Some tx' →
     TxCachedHash tx' ≠ TxCachedHash tx) →
  ∃ idx1 dbTx1,
    ConnectBlock idx dbTx block = (idx1, dbTx1, Ok ())
    ∧ TxBlockRegion {| db := dbTx1; curBlockID := curBlockID idx1 |} (TxCachedHash tx)
      = Ok (Some {| RegionHash := copyInto HashSize (BlockHash block);
                    Offset := uint32 (TxStart txLoc);
                    Len := uint32 (TxLen txLoc) |})
    ∧ (length (BlockHash block) = HashSize →
       copyInto HashSize (BlockHash block) = BlockHash block).
Proof.
  intros Hlocs Hlen Hk Hloc Hlast.
  destruct (ConnectBlock_Ok idx dbTx block txLocs Hlocs Hlen)
    as (dbTxA & Hrun & _ & _ & _ & Hconn).
  eexists _, _. split; [exact Hconn|]. split; [|apply copyInto_exact].
  unfold TxBlockRegion. cbn [db].
  apply (dbFetchTxIndexEntry_txEntry _ _ (uint32 (curBlockID idx + 1)) txLoc []);
    [apply uint32_range| |cbn; apply lookup_insert_eq].
  cbn [txIndexBucket]. rewrite app_nil_r.
  pose proof (addEntries_lookup txLocs (uint32 (curBlockID idx + 1)) (Transactions block)
                dbTx 0 0 (replicate (length (Transactions block) * txEntrySize) x00)
                ltac:(lia) ltac:(rewrite length_replicate; lia) k tx txLoc Hk Hloc Hlast)
    as Hlook.
  by rewrite Hrun in Hlook.
Qed.

(** X12. The outcomes of [ConnectBlock]: an error of [block.TxLoc()] is
    returned as it is, with counter and buckets unchanged; with fewer
    locations than transactions the call panics, with the counter and the
    two block ID buckets unchanged; otherwise it succeeds, the counter is
    incremented (modulo [2 ^ 32]), the block's hash and the new ID are
    mapped to each other, every transaction of the block has a 12-byte
    record, and the records of other hashes are unchanged. *)
Theorem ConnectBlock_outcomes (idx : TxIndex) (dbTx : DbTx) (block : SerializedBlock) :
  match BlockTxLoc block with
  | Err e => ConnectBlock idx dbTx block = (idx, dbTx, Err e)
  | Panic => ConnectBlock idx dbTx block = (idx, dbTx, Panic)
  | Ok txLocs =>
      if decide (length (Transactions block) ≤ length txLocs)%nat then
        ∃ dbTx1, ConnectBlock idx dbTx block
                 = ({| db := db idx; curBlockID := uint32 (curBlockID idx + 1) |},
                    dbTx1, Ok ())
          ∧ idByHashIndexBucket dbTx1 !! BlockHash block
            = Some (PutUint32 (uint32 (curBlockID idx + 1)))
          ∧ hashByIDIndexBucket dbTx1 !! PutUint32 (uint32 (curBlockID idx + 1))
            = Some (BlockHash block)
          ∧ (∀ tx, tx ∈ Transactions block →
               length (default [] (txIndexBucket dbTx1 !! TxCachedHash tx)) = 12%nat)
          ∧ (∀ h, h ∉ TxCachedHash <$> Transactions block →
               txIndexBucket dbTx1 !! h = txIndexBucket dbTx !! h)
      else
        ∃ dbTx1, ConnectBlock idx dbTx block = (idx, dbTx1, Panic)
          ∧ idByHashIndexBucket dbTx1 = idByHashIndexBucket dbTx
          ∧ hashByIDIndexBucket dbTx1 = hashByIDIndexBucket dbTx
  end.
Proof.
  destruct (BlockTxLoc block) as [txLocs|e|] eqn:Hlocs.
  - case_decide as Hlen.
    + destruct (addEntries_spec txLocs (uint32 (curBlockID idx + 1)) (Transactions block)
                  dbTx 0 0 (replicate (length (Transactions block) * txEntrySize) x00))
        as (dbTxA & Hrun & HidA & HhashA & HinA & HoutA);
        [lia|rewrite length_replicate; lia|].
      unfold ConnectBlock, dbAddTxIndexEntries. rewrite Hlocs, Hrun.
      unfold dbPutBlockIDIndexEntry. simpl. eexists. split; [done|]. simpl.
      split; [apply lookup_insert_eq|]. split; [apply lookup_insert_eq|].
      split; [apply HinA|apply HoutA].
    + unfold ConnectBlock, dbAddTxIndexEntries. rewrite Hlocs.
      pose proof (addEntries_short txLocs (uint32 (curBlockID idx + 1)) (Transactions block)
                    dbTx 0 0 (replicate (length (Transactions block) * txEntrySize) x00)
                    ltac:(lia) ltac:(rewrite length_replicate; lia)) as Hpanic.
      pose proof (addEntries_other_buckets txLocs (uint32 (curBlockID idx + 1))
                    (Transactions block) dbTx 0 0
                    (replicate (length (Transactions block) * txEntrySize) x00)) as [Hid Hhash].
      destruct (addEntries _ _ _ _ _ _ _) as [dbTxA r]. simpl in *. subst r.
      by exists dbTxA.
  - unfold ConnectBlock, dbAddTxIndexEntries. by rewrite Hlocs.
  - unfold ConnectBlock, dbAddTxIndexEntries. by rewrite Hlocs.
Qed.
End ConnectLookup.

(** ** The invariant of the transaction index *)

Section IndexInvariant.
Context `{ByteOrder}.

Lemma holdsLocators_insert dbTx c bh dbTx' :
  0 ≤ c → c + 1 < 2 ^ 32 →
  holdsLocators dbTx c →
  hashByIDIndexBucket dbTx' = <[PutUint32 (c + 1) := bh]> (hashByIDIndexBucket dbTx) →
  holdsLocators dbTx' (c + 1).
Proof.
  intros Hc Hmax Hhold Hbucket id Hid. rewrite Hbucket.
  destruct (decide (id = c + 1)) as [->|Hne].
  - rewrite lookup_insert_eq. split; [lia|by eexists].
  - rewrite lookup_insert_ne by (intros Heq; apply PutUint32_inj in Heq; lia).
    rewrite (Hhold id Hid). lia.
Qed.

Lemma locatorsInverse_insert dbTx h s dbTx' :
  locatorsInverse dbTx →
  idByHashIndexBucket dbTx !! h = None →
  hashByIDIndexBucket dbTx !! s = None →
  idByHashIndexBucket dbTx' = <[h := s]> (idByHashIndexBucket dbTx) →
  hashByIDIndexBucket dbTx' = <[s := h]> (hashByIDIndexBucket dbTx) →
  locatorsInverse dbTx'.
Proof.
  intros Hinv Hh Hs Hid Hhash h' s'. rewrite Hid, Hhash.
  destruct (decide (h' = h)) as [->|Hneh], (decide (s' = s)) as [->|Hnes].
  - rewrite !lookup_insert_eq. done.
  - rewrite lookup_insert_eq, lookup_insert_ne by done. split; [congruence|].
    intros Hold. apply Hinv in Hold. congruence.
  - rewrite lookup_insert_ne, lookup_insert_eq by done. split; [|congruence].
    intros Hold. apply Hinv in Hold. congruence.
  - rewrite !lookup_insert_ne by done. apply Hinv.
Qed.

Lemma locatorsInverse_delete dbTx h s dbTx' :
  locatorsInverse dbTx →
  idByHashIndexBucket dbTx !! h = Some s →
  idByHashIndexBucket dbTx' = delete h (idByHashIndexBucket dbTx) →
  hashByIDIndexBucket dbTx' = delete s (hashByIDIndexBucket dbTx) →
  locatorsInverse dbTx'.
Proof.
  intros Hinv Hh Hid Hhash h' s'. rewrite Hid, Hhash.
  pose proof (proj1 (Hinv h s) Hh) as Hs.
  destruct (decide (h' = h)) as [->|Hneh], (decide (s' = s)) as [->|Hnes].
  - rewrite !lookup_delete_eq. done.
  - rewrite lookup_delete_eq, lookup_delete_ne by done. split; [done|].
    intros Hold. apply Hinv in Hold. congruence.
  - rewrite lookup_delete_ne, lookup_delete_eq by done. split; [|done].
    intros Hold. apply Hinv in Hold. congruence.
  - rewrite !lookup_delete_ne by done. apply Hinv.
Qed.

Lemma holdsLocators_empty : holdsLocators emptyDbTx 0.
Proof.
  intros id Hid. simpl. rewrite lookup_empty. split; [by intros [? [=]]|lia].
Qed.

Lemma indexInv_empty : indexInv (NewTxIndex emptyDbTx) emptyDbTx.
Proof.
  split; [simpl; lia|]. split; [apply holdsLocators_empty|].
  intros h s. simpl. by rewrite !lookup_empty.
Qed.

Lemma ConnectBlock_indexInv idx dbTx block :
  indexInv idx dbTx → curBlockID idx + 1 < 2 ^ 32 →
  wellLocated block →
  idByHashIndexBucket dbTx !! BlockHash block = None →
  ∃ idx1 dbTx1, ConnectBlock idx dbTx block = (idx1, dbTx1, Ok ())
    ∧ curBlockID idx1 = curBlockID idx + 1
    ∧ db idx1 = db idx
    ∧ indexInv idx1 dbTx1.
Proof.
  intros (Hc & Hhold & Hinv) Hmax (txLocs & Hlocs & Hlen) Hfresh.
  destruct (ConnectBlock_Ok idx dbTx block txLocs Hlocs Hlen)
    as (dbTxA & _ & _ & _ & _ & Hconn).
  rewrite uint32_small in Hconn by lia.
  eexists _, _. split; [exact Hconn|]. split; [done|]. split; [done|].
  split; [simpl; lia|]. split.
  - by apply (holdsLocators_insert dbTx (curBlockID idx) (BlockHash block)); [lia..|done|].
  - apply (locatorsInverse_insert dbTx (BlockHash block) (PutUint32 (curBlockID idx + 1)));
      [done|done| |done..].
    destruct (hashByIDIndexBucket dbTx !! PutUint32 (curBlockID idx + 1)) as [v|] eqn:Hv;
      [|done].
    assert (Hsome : is_Some (hashByIDIndexBucket dbTx !! PutUint32 (curBlockID idx + 1)))
      by (by eexists).
    apply Hhold in Hsome; lia.
Qed.

Lemma DisconnectBlock_Ok idx dbTx block idx1 dbTx1 :
  DisconnectBlock idx dbTx block = (idx1, dbTx1, Ok ()) →
  ∃ dbTxR, removeEntries dbTx (Transactions block) = (dbTxR, Ok ())
    ∧ idByHashIndexBucket dbTxR = idByHashIndexBucket dbTx
    ∧ hashByIDIndexBucket dbTxR = hashByIDIndexBucket dbTx
    ∧ idx1 = {| db := db idx; curBlockID := uint32 (curBlockID idx - 1) |}
    ∧ dbRemoveBlockIDIndexEntry dbTxR (BlockHash block) = (dbTx1, Ok ()).
Proof.
  unfold DisconnectBlock, dbRemoveTxIndexEntries. intros Hrun.
  pose proof (removeEntries_other_buckets (Transactions block) dbTx) as [Hid Hhash].
  destruct (removeEntries dbTx (Transactions block)) as [dbTxR [[]|e|]]; [|done..].
  simpl in Hid, Hhash. exists dbTxR. split; [done|]. split; [done|]. split; [done|].
  destruct (dbRemoveBlockIDIndexEntry dbTxR (BlockHash block)) as [dbTx2 [[]|e|]];
    [|done..].
  by injection Hrun as <- <-.
Qed.

(** X13. The invariant of the index (the counter is the highest block
    ID, the block IDs in use are [1 .. counter], and the two block ID
    buckets are inverse to each other) is kept by a [ConnectBlock] of a
    block whose hash is not yet indexed, and by a successful
    [DisconnectBlock] of the block that holds the highest block ID. *)
Theorem ConnectBlock_DisconnectBlock_keep_invariant
    (idx : TxIndex) (dbTx : DbTx) (block : SerializedBlock) :
  indexInv idx dbTx →
  (curBlockID idx + 1 < 2 ^ 32 → wellLocated block →
   idByHashIndexBucket dbTx !! BlockHash block = None →
   ∃ idx1 dbTx1, ConnectBlock idx dbTx block = (idx1, dbTx1, Ok ())
     ∧ curBlockID idx1 = curBlockID idx + 1
     ∧ indexInv idx1 dbTx1)
  ∧ (∀ idx1 dbTx1,
       DisconnectBlock idx dbTx block = (idx1, dbTx1, Ok ()) →
       idByHashIndexBucket dbTx !! BlockHash block = Some (PutUint32 (curBlockID idx)) →
       1 ≤ curBlockID idx →
       curBlockID idx1 = curBlockID idx - 1 ∧ indexInv idx1 dbTx1).
Proof.
  intros Hinv. split.
  - intros Hmax Hwell Hfresh.
    destruct (ConnectBlock_indexInv idx dbTx block Hinv Hmax Hwell Hfresh)
      as (idx1 & dbTx1 & Hrun & Hc & _ & Hinv1).
    by exists idx1, dbTx1.
  - intros idx1 dbTx1 Hrun Htop Hpos.
    destruct Hinv as (Hc & Hhold & Hinverse).
    apply DisconnectBlock_Ok in Hrun as (dbTxR & _ & HidR & HhashR & -> & Hrem).
    unfold dbRemoveBlockIDIndexEntry in Hrem. rewrite HidR, Htop in Hrem.
    injection Hrem as <-. cbn [curBlockID]. rewrite uint32_small by lia.
    split; [done|]. split; [simpl; lia|]. split.
    + intros id Hid. cbn [hashByIDIndexBucket curBlockID]. rewrite HhashR.
      destruct (decide (id = curBlockID idx)) as [->|Hne].
      * rewrite lookup_delete_eq. split; [by intros [? [=]]|lia].
      * rewrite lookup_delete_ne by (intros Heq; apply PutUint32_inj in Heq; lia).
        rewrite (Hhold id Hid). lia.
    + apply (locatorsInverse_delete dbTx (BlockHash block) (PutUint32 (curBlockID idx)));
        [done|done|cbn; by rewrite ?HidR|cbn; by rewrite ?HhashR].
Qed.

Lemma connectBlocks_indexInv blocks : ∀ idx dbTx,
  indexInv idx dbTx →
  curBlockID idx + Z.of_nat (length blocks) < 2 ^ 32 →
  Forall wellLocated blocks →
  NoDup (BlockHash <$> blocks) →
  (∀ b, b ∈ blocks → idByHashIndexBucket dbTx !! BlockHash b = None) →
  ∃ idx1 dbTx1, connectBlocks idx dbTx blocks = (idx1, dbTx1, Ok ())
    ∧ curBlockID idx1 = curBlockID idx + Z.of_nat (length blocks)
    ∧ db idx1 = db idx
    ∧ indexInv idx1 dbTx1.
Proof.
  induction blocks as [|b rest IH]; intros idx dbTx Hinv Hmax Hwell Hnodup Hfresh.
  { exists idx, dbTx. simpl. split; [done|]. split; [lia|]. done. }
  simpl in Hmax. apply Forall_cons in Hwell as [Hb Hrest].
  rewrite fmap_cons in Hnodup. apply NoDup_cons in Hnodup as [Hnotin Hnodup].
  pose proof Hb as Hwell_b. destruct Hb as (txLocs & Hlocs & Hlen).
  destruct (ConnectBlock_indexInv idx dbTx b Hinv ltac:(lia) Hwell_b)
    as (idx1 & dbTx1 & Hrun & Hc1 & Hdb1 & Hinv1); [apply Hfresh; by left|].
  destruct (ConnectBlock_Ok idx dbTx b txLocs Hlocs Hlen)
    as (dbTxA & _ & _ & _ & _ & Hconn).
  destruct (IH idx1 dbTx1 Hinv1 ltac:(lia) Hrest Hnodup)
    as (idx2 & dbTx2 & Hrun2 & Hc2 & Hdb2 & Hinv2).
  { intros b' Hb'. rewrite Hrun in Hconn. injection Hconn as _ ->. cbn.
    rewrite lookup_insert_ne; [apply Hfresh; by right|].
    intros Heq. apply Hnotin. rewrite Heq. by apply list_elem_of_fmap_2. }
  exists idx2, dbTx2. simpl. rewrite Hrun. split; [done|]. split; [lia|].
  split; [congruence|done].
Qed.

Lemma connectBlocks_holdsLocators blocks : ∀ idx dbTx,
  0 ≤ curBlockID idx → holdsLocators dbTx (curBlockID idx) →
  curBlockID idx + Z.of_nat (length blocks) < 2 ^ 32 →
  Forall wellLocated blocks →
  ∃ idx1 dbTx1, connectBlocks idx dbTx blocks = (idx1, dbTx1, Ok ())
    ∧ curBlockID idx1 = curBlockID idx + Z.of_nat (length blocks)
    ∧ holdsLocators dbTx1 (curBlockID idx1).
Proof.
  induction blocks as [|b rest IH]; intros idx dbTx Hc Hhold Hmax Hwell.
  { exists idx, dbTx. simpl. split; [done|]. split; [lia|]. done. }
  simpl in Hmax. apply Forall_cons in Hwell as [(txLocs & Hlocs & Hlen) Hrest].
  destruct (ConnectBlock_Ok idx dbTx b txLocs Hlocs Hlen)
    as (dbTxA & _ & _ & _ & _ & Hconn).
  rewrite uint32_small in Hconn by lia.
  simpl. rewrite Hconn.
  match type of Hconn with _ = (?i, ?d, _) =>
    destruct (IH i d) as (idx2 & dbTx2 & Hrun2 & Hc2 & Hhold2)
  end; [simpl; lia| |simpl; lia|done|].
  { by apply (holdsLocators_insert dbTx (curBlockID idx) (BlockHash b)); [lia..|done|]. }
  exists idx2, dbTx2. split; [done|]. split; [simpl in Hc2; lia|done].
Qed.

(** X14. Restart: if the store holds the block IDs [1 .. c] and the
    counter is [c], then after connecting [n] blocks, each with a location
    for each of its transactions, the counter is [c + n] and [Init] on a
    fresh index over the resulting store recovers [c + n].
    ([2 * (c + n) + 100000 < 2 ^ 32].) *)
Theorem Init_after_connectBlocks
    (idx : TxIndex) (dbTx : DbTx) (blocks : list SerializedBlock) (fuel : nat) :
  0 ≤ curBlockID idx → holdsLocators dbTx (curBlockID idx) →
  Forall wellLocated blocks →
  2 * (curBlockID idx + Z.of_nat (length blocks)) + increment < 2 ^ 32 →
  (curBlockID idx + Z.of_nat (length blocks)) / increment + 18 ≤ Z.of_nat fuel →
  ∃ idx1 dbTx1,
    connectBlocks idx dbTx blocks = (idx1, dbTx1, Ok ())
    ∧ curBlockID idx1 = curBlockID idx + Z.of_nat (length blocks)
    ∧ Init fuel (NewTxIndex dbTx1)
      = Some ({| db := dbTx1; curBlockID := curBlockID idx1 |}, None).
Proof.
  unfold increment. intros Hc Hhold Hwell Hmax Hfuel.
  destruct (connectBlocks_holdsLocators blocks idx dbTx Hc Hhold ltac:(lia) Hwell)
    as (idx1 & dbTx1 & Hrun & Hc1 & Hhold1).
  exists idx1, dbTx1. split; [done|]. split; [done|].
  rewrite (Init_scan_then_search (curBlockID idx1) (NewTxIndex dbTx1) fuel);
    [|lia|unfold increment; lia|done|unfold increment; rewrite Hc1; lia].
  simpl. case_decide as Hz; [by rewrite Hz|done].
Qed.
End IndexInvariant.

(** ** DisconnectBlock and the lookup *)

Section DisconnectLookup.
Context `{ByteOrder}.

(** A successful removal deletes the keys of the transactions and no
    others. *)
Lemma removeEntries_Ok txns : ∀ dbTx dbTx',
  removeEntries dbTx txns = (dbTx', Ok ()) →
  ∀ h, txIndexBucket dbTx' !! h
       = if decide (h ∈ TxCachedHash <$> txns) then None else txIndexBucket dbTx !! h.
Proof.
  induction txns as [|tx rest IH]; intros dbTx dbTx' Hrun h.
  { injection Hrun as <-. rewrite decide_False; [done|]. apply not_elem_of_nil. }
  simpl in Hrun. unfold dbRemoveTxIndexEntry in Hrun.
  destruct (sliceLen (txIndexBucket dbTx !! TxCachedHash tx) =? 0)%nat; [done|].
  rewrite (IH _ _ Hrun h). simpl. rewrite ?fmap_cons.
  destruct (decide (h ∈ TxCachedHash <$> rest)) as [Hin|Hnin].
  - rewrite decide_True; [done|by right].
  - destruct (decide (h = TxCachedHash tx)) as [->|Hne].
    + rewrite decide_True by left. apply lookup_delete_eq.
    + rewrite decide_False by (by apply not_elem_of_cons).
      by rewrite lookup_delete_ne.
Qed.

Lemma removeEntries_Ok_present txns : ∀ dbTx dbTx',
  removeEntries dbTx txns = (dbTx', Ok ()) →
  NoDup (TxCachedHash <$> txns)
  ∧ ∀ tx, tx ∈ txns → sliceLen (txIndexBucket dbTx !! TxCachedHash tx) ≠ 0%nat.
Proof.
  induction txns as [|tx rest IH]; intros dbTx dbTx' Hrun.
  { split; [apply NoDup_nil_2|]. by intros tx ?%elem_of_nil. }
  simpl in Hrun. unfold dbRemoveTxIndexEntry in Hrun.
  destruct (sliceLen (txIndexBucket dbTx !! TxCachedHash tx) =? 0)%nat eqn:Hlen; [done|].
  apply Nat.eqb_neq in Hlen.
  destruct (IH _ _ Hrun) as [Hnodup Hpresent]. simpl in Hpresent.
  assert (Hfresh : TxCachedHash tx ∉ TxCachedHash <$> rest).
  { intros (tx' & Heq & Hin)%list_elem_of_fmap.
    apply (Hpresent tx' Hin). by rewrite <- Heq, lookup_delete_eq. }
  split; [rewrite fmap_cons; by apply NoDup_cons|].
  intros tx' [->|Hin]%elem_of_cons; [done|].
  intros Hz. apply (Hpresent tx' Hin). rewrite lookup_delete_ne; [done|].
  intros Heq. apply Hfresh. rewrite Heq. by apply list_elem_of_fmap_2.
Qed.

(** X15. When [DisconnectBlock] succeeds, the transactions of the block
    had pairwise distinct hashes, each with a non-empty record;
    afterwards the lookup of each of them finds nothing, and the records
    of all other hashes are unchanged. *)
Theorem DisconnectBlock_then_TxBlockRegion
    (idx idx1 : TxIndex) (dbTx dbTx1 : DbTx) (block : SerializedBlock) :
  DisconnectBlock idx dbTx block = (idx1, dbTx1, Ok ()) →
  (∀ tx, tx ∈ Transactions block →
     TxBlockRegion {| db := dbTx1; curBlockID := curBlockID idx1 |} (TxCachedHash tx)
     = Ok None)
  ∧ (∀ h, h ∉ TxCachedHash <$> Transactions block →
       txIndexBucket dbTx1 !! h = txIndexBucket dbTx !! h)
  ∧ NoDup (TxCachedHash <$> Transactions block)
  ∧ (∀ tx, tx ∈ Transactions block →
       ∃ data, txIndexBucket dbTx !! TxCachedHash tx = Some data ∧ data ≠ []).
Proof.
  intros Hrun.
  apply DisconnectBlock_Ok in Hrun as (dbTxR & Hrem & _ & _ & -> & Hid).
  assert (Htx : txIndexBucket dbTx1 = txIndexBucket dbTxR).
  { unfold dbRemoveBlockIDIndexEntry in Hid.
    destruct (idByHashIndexBucket dbTxR !! BlockHash block); by injection Hid as <-. }
  pose proof (removeEntries_Ok _ _ _ Hrem) as Hlook.
  destruct (removeEntries_Ok_present _ _ _ Hrem) as [Hnodup Hpresent].
  split; [|split; [|split; [done|]]].
  - intros tx Hin. unfold TxBlockRegion, dbFetchTxIndexEntry. cbn [db].
    rewrite Htx, Hlook, decide_True; [done|]. by apply list_elem_of_fmap_2.
  - intros h Hh. by rewrite Htx, Hlook, decide_False.
  - intros tx Hin. specialize (Hpresent tx Hin).
    destruct (txIndexBucket dbTx !! TxCachedHash tx) as [data|]; [|done].
    exists data. split; [done|]. by intros ->.
Qed.
End DisconnectLookup.

(** ** Block ID entries *)

Section BlockIDEntries.
Context `{ByteOrder}.

(** X16. After [dbPutBlockIDIndexEntry] of a hash and a block ID, the ID
    is fetched by the hash and the hash by the ID; after
    [dbRemoveBlockIDIndexEntry] of the hash both fetches return
    [errNoBlockIDEntry]; the transaction bucket is not touched.  A stored
    ID of fewer than 4 bytes makes [dbFetchBlockIDByHash] panic. *)
Theorem BlockIDIndexEntry_roundtrip (dbTx : DbTx) (h : Hash) (id : Z) :
  0 ≤ id < 2 ^ 32 →
  let dbTx1 := (dbPutBlockIDIndexEntry dbTx h id).1 in
  let dbTx2 := (dbRemoveBlockIDIndexEntry dbTx1 h).1 in
  (dbPutBlockIDIndexEntry dbTx h id).2 = Ok ()
  ∧ dbFetchBlockIDByHash dbTx1 h = Ok id
  ∧ dbFetchBlockHashByID dbTx1 id = Ok (copyInto HashSize h)
  ∧ (length h = HashSize → dbFetchBlockHashByID dbTx1 id = Ok h)
  ∧ (dbRemoveBlockIDIndexEntry dbTx1 h).2 = Ok ()
  ∧ dbFetchBlockIDByHash dbTx2 h = Err errNoBlockIDEntry
  ∧ dbFetchBlockHashByID dbTx2 id = Err errNoBlockIDEntry
  ∧ txIndexBucket dbTx2 = txIndexBucket dbTx
  ∧ (∀ s, idByHashIndexBucket dbTx !! h = Some s → (length s < 4)%nat →
       dbFetchBlockIDByHash dbTx h = Panic).
Proof.
  intros Hid dbTx1 dbTx2.
  assert (Hshort : ∀ s, idByHashIndexBucket dbTx !! h = Some s → (length s < 4)%nat →
                     dbFetchBlockIDByHash dbTx h = Panic).
  { intros s Hs Hlen. unfold dbFetchBlockIDByHash. rewrite Hs. by rewrite decide_True. }
  unfold dbTx2, dbTx1, dbPutBlockIDIndexEntry, dbRemoveBlockIDIndexEntry,
    dbFetchBlockIDByHash, dbFetchBlockHashByID, dbFetchBlockHashBySerializedID.
  cbn. rewrite !lookup_insert_eq. cbn. rewrite !lookup_delete_eq.
  rewrite PutUint32_length. cbn.
  rewrite Uint32_PutUint32 by done.
  repeat split; try done. intros Hlen. f_equal. by apply (copyInto_exact HashSize h).
Qed.
End BlockIDEntries.

(** ** Init on a store with gaps *)

Section InitAnyStore.
Context `{ByteOrder}.

Lemma probe_hasLocator dbTx id :
  hasLocator dbTx id → ∃ h, dbFetchBlockHashByID dbTx id = Ok h.
Proof.
  intros [v Hv]. unfold dbFetchBlockHashByID, dbFetchBlockHashBySerializedID.
  rewrite Hv. by eexists.
Qed.

Lemma probe_no_locator dbTx id :
  ¬ hasLocator dbTx id → dbFetchBlockHashByID dbTx id = Err errNoBlockIDEntry.
Proof.
  intros Hno. unfold dbFetchBlockHashByID, dbFetchBlockHashBySerializedID.
  destruct (hashByIDIndexBucket dbTx !! PutUint32 id) as [v|] eqn:Hv; [|done].
  exfalso. apply Hno. by eexists.
Qed.

(** The forward scan over probes that have entries up to the [m]-th. *)
Lemma forwardScan_any dbTx (m : nat) : ∀ fuel highestKnown testBlockID,
  (∀ k, 0 ≤ k < Z.of_nat m → hasLocator dbTx (testBlockID + increment * k)) →
  ¬ hasLocator dbTx (testBlockID + increment * Z.of_nat m) →
  0 ≤ testBlockID → testBlockID + increment * Z.of_nat m < 2 ^ 32 →
  (m < fuel)%nat →
  forwardScan fuel dbTx highestKnown testBlockID
  = Some (if decide (m = 0%nat) then highestKnown
          else testBlockID + increment * (Z.of_nat m - 1),
          testBlockID + increment * Z.of_nat m).
Proof.
  unfold increment.
  induction m as [|m IH]; intros fuel h t Hpresent Habsent Ht Hmax Hfuel;
    (destruct fuel as [|fuel]; [lia|]); simpl forwardScan.
  - replace (t + 100000 * Z.of_nat 0) with t in * by lia.
    by rewrite (probe_no_locator dbTx t Habsent).
  - destruct (probe_hasLocator dbTx t) as [v ->].
    { specialize (Hpresent 0 ltac:(lia)). by replace (t + 100000 * 0) with t in * by lia. }
    unfold increment. rewrite uint32_small by lia.
    rewrite (IH fuel t (t + 100000)); [| | |lia|lia|lia].
    + destruct (decide (S m = 0%nat)) as [|_]; [lia|]. f_equal. f_equal; [|lia].
      case_decide as Hm; [subst m; lia|lia].
    + intros k Hk. specialize (Hpresent (k + 1) ltac:(lia)).
      by replace (t + 100000 + 100000 * k) with (t + 100000 * (k + 1)) by lia.
    + by replace (t + 100000 + 100000 * Z.of_nat m)
        with (t + 100000 * Z.of_nat (S m)) by lia.
Qed.

(** The binary search between a block ID with an entry and a higher one
    without ends on a block ID with an entry whose successor has none. *)
Lemma binarySearch_any dbTx : ∀ fuel highestKnown nextUnknown,
  hasLocator dbTx highestKnown → ¬ hasLocator dbTx nextUnknown →
  0 ≤ highestKnown → 2 * nextUnknown ≤ 2 ^ 32 →
  2 ≤ nextUnknown - highestKnown ≤ 2 ^ Z.of_nat fuel →
  ∃ c, binarySearch fuel dbTx highestKnown nextUnknown = Some c
    ∧ highestKnown ≤ c < nextUnknown
    ∧ hasLocator dbTx c ∧ ¬ hasLocator dbTx (c + 1).
Proof.
  induction fuel as [|fuel IH]; intros h n Hh Hn Hpos Hsum Hgap.
  { simpl in Hgap. lia. }
  rewrite Nat2Z.inj_succ, Z.pow_succ_r in Hgap by lia.
  simpl. rewrite (uint32_small (h + n)) by lia.
  assert (Hmid : h < (h + n) / 2 < n ∧ 2 * ((h + n) / 2) ≤ h + n < 2 * ((h + n) / 2) + 2).
  { pose proof (Z.div_mod (h + n) 2 ltac:(lia)).
    pose proof (Z.mod_pos_bound (h + n) 2 ltac:(lia)). lia. }
  set (mid := (h + n) / 2) in *. clearbody mid.
  destruct (dbFetchBlockHashByID dbTx mid) as [v|e|] eqn:Hprobe.
  - assert (Hm : hasLocator dbTx mid).
    { destruct (decide (hasLocator dbTx mid)) as [|Hno]; [done|].
      by rewrite (probe_no_locator dbTx mid Hno) in Hprobe. }
    rewrite (uint32_small (mid + 1)) by lia.
    destruct (mid + 1 =? n) eqn:Hexit.
    + apply Z.eqb_eq in Hexit. exists mid. split; [done|]. split; [lia|].
      split; [done|]. by rewrite Hexit.
    + apply Z.eqb_neq in Hexit.
      destruct (IH mid n Hm Hn) as (c & Hrun & Hc & Hpc & Hnc); [lia..|].
      exists c. split; [done|]. split; [lia|done].
  - assert (Hm : ¬ hasLocator dbTx mid).
    { intros Hyes. destruct (probe_hasLocator dbTx mid Hyes) as [v Hv]. congruence. }
    rewrite (uint32_small (h + 1)) by lia.
    destruct (h + 1 =? mid) eqn:Hexit.
    + apply Z.eqb_eq in Hexit. exists h. split; [done|]. split; [lia|].
      split; [done|]. by rewrite Hexit.
    + apply Z.eqb_neq in Hexit.
      destruct (IH h mid Hh Hm) as (c & Hrun & Hc & Hpc & Hnc); [lia..|].
      exists c. split; [done|]. split; [lia|done].
  - exfalso. unfold dbFetchBlockHashByID, dbFetchBlockHashBySerializedID in Hprobe.
    by destruct (hashByIDIndexBucket dbTx !! PutUint32 mid).
Qed.

(** X17. [Init] on a store whose block IDs need not be contiguous.  If
    block ID 1 has no entry, [Init] returns after one probe and leaves the
    counter as it was, whatever else is stored.  If the probes
    [1, 100001, ..] have entries up to the [m]-th, which has none, [Init]
    returns without error and sets the counter to a block ID [c] between
    the last two probes that has an entry while [c + 1] has none.
    ([2 * (1 + 100000 * m) ≤ 2 ^ 32]; [m + 17] probes per loop
    suffice.) *)
Theorem Init_finds_boundary (idx : TxIndex) (m : Z) (fuel : nat) :
  (¬ hasLocator (db idx) 1 → Init (S fuel) idx = Some (idx, None))
  ∧ (1 ≤ m →
     (∀ k, 0 ≤ k < m → hasLocator (db idx) (1 + increment * k)) →
     ¬ hasLocator (db idx) (1 + increment * m) →
     2 * (1 + increment * m) ≤ 2 ^ 32 →
     m + 17 ≤ Z.of_nat fuel →
     ∃ c, Init fuel idx = Some ({| db := db idx; curBlockID := c |}, None)
       ∧ 1 + increment * (m - 1) ≤ c < 1 + increment * m
       ∧ hasLocator (db idx) c ∧ ¬ hasLocator (db idx) (c + 1)).
Proof.
  split.
  - intros Hno. unfold Init. simpl forwardScan.
    by rewrite (probe_no_locator (db idx) 1 Hno).
  - unfold increment. intros Hm Hpresent Habsent Hmax Hfuel. unfold Init.
    rewrite (forwardScan_any (db idx) (Z.to_nat m) fuel 0 1);
      unfold increment; rewrite ?Z2Nat.id by lia; [|done|done|lia|lia|lia].
    rewrite decide_False by lia. simpl.
    destruct (1 + 100000 * m =? 1) eqn:H1; [apply Z.eqb_eq in H1; lia|].
    destruct (binarySearch_any (db idx) fuel (1 + 100000 * (m - 1)) (1 + 100000 * m))
      as (c & -> & Hc & Hpc & Hnc); [apply Hpresent; lia|done|lia|lia| |].
    { split; [lia|]. apply Z.le_trans with (2 ^ 17); [lia|].
      apply Z.pow_le_mono_r; lia. }
    by exists c.
Qed.
End InitAnyStore.

(** ** The block index: lookups *)

Section BlockIndexLookup.

Lemma addNode_index hp bi p n :
  hp !! p = Some n → (∀ q, parent n = Some q → is_Some (hp !! q)) →
  ∃ bi', addNode hp bi p = Some bi' ∧ index bi' = <[hash n := p]> (index bi).
Proof.
  intros Hn Hparent. unfold addNode. rewrite Hn. simpl.
  destruct (addChainTip_spec hp
              {| index := <[hash n := p]> (index bi); chainTips := chainTips bi |} p n Hn)
    as (bi2 & -> & Hidx2 & _). simpl.
  destruct (parent n) as [q|] eqn:Hpar.
  - destruct (Hparent q eq_refl) as [nq Hq].
    destruct (removeChainTip_spec hp bi2 q nq Hq) as (bi3 & -> & Hidx3 & _).
    exists bi3. split; [done|]. by rewrite Hidx3, Hidx2.
  - exists bi2. by split.
Qed.

Lemma addNodes_index hp nodes : ∀ bi,
  (∀ p, p ∈ nodes → is_Some (hp !! p)) →
  parentsInHeap hp nodes →
  ∃ bi', addNodes hp bi nodes = Some bi'
    ∧ (∀ k p n, nodes !! k = Some p → hp !! p = Some n →
         (∀ j q, (k < j)%nat → nodes !! j = Some q → hashOfNode hp q ≠ Some (hash n)) →
         index bi' !! hash n = Some p)
    ∧ (∀ h, Some h ∉ hashOfNode hp <$> nodes → index bi' !! h = index bi !! h).
Proof.
  induction nodes as [|p0 rest IH]; intros bi Hvalid Hparents.
  { exists bi. split; [done|]. split; [|done]. intros k p n Hk. by rewrite lookup_nil in Hk. }
  destruct (Hvalid p0 ltac:(by left)) as [n0 Hn0].
  destruct (addNode_index hp bi p0 n0 Hn0) as (bi1 & Hadd & Hidx1).
  { intros q Hq. apply (Hparents p0 q); [by left|]. unfold refParentNode. by rewrite Hn0. }
  destruct (IH bi1) as (bi' & Hrun & Hin & Hout).
  { intros p Hp. apply Hvalid. by right. }
  { intros p q Hp. apply Hparents. by right. }
  exists bi'. simpl. rewrite Hadd. simpl. split; [done|]. split.
  - intros [|k] p n Hk Hn Hlast; simpl in Hk.
    + injection Hk as <-. rewrite Hn0 in Hn. injection Hn as <-.
      rewrite Hout, Hidx1; [apply lookup_insert_eq|].
      intros (q & Heq & Hq)%list_elem_of_fmap.
      apply list_elem_of_lookup in Hq as [j Hj].
      by apply (Hlast (S j) q ltac:(lia)).
    + apply (Hin k p n Hk Hn). intros j q Hj Hq. by apply (Hlast (S j) q ltac:(lia)).
  - intros h Hh. rewrite ?fmap_cons in Hh. apply not_elem_of_cons in Hh as [Hne Hh].
    rewrite Hout, Hidx1 by done. apply lookup_insert_ne.
    intros Heq. apply Hne. unfold hashOfNode. rewrite Hn0. simpl. by rewrite Heq.
Qed.

(** X18. After a sequence of [addNode] calls, [LookupNode] of the hash
    of an added node returns the node added last under that hash, and
    [HaveBlock] is true for it; for a hash of no added node both answer as
    before.  [AddNode] is one such call. *)
Theorem addNodes_LookupNode (hp : nodeHeap) (bi : blockIndex) (nodes : list positive) :
  (∀ p, p ∈ nodes → is_Some (hp !! p)) →
  parentsInHeap hp nodes →
  ∃ bi', addNodes hp bi nodes = Some bi'
    ∧ (∀ k p n, nodes !! k = Some p → hp !! p = Some n →
         (∀ j q, (k < j)%nat → nodes !! j = Some q → hashOfNode hp q ≠ Some (hash n)) →
         LookupNode bi' (hash n) = Some p ∧ HaveBlock bi' (hash n) = true)
    ∧ (∀ h, Some h ∉ hashOfNode hp <$> nodes →
         LookupNode bi' h = LookupNode bi h ∧ HaveBlock bi' h = HaveBlock bi h)
    ∧ (∀ p, nodes = [p] → AddNode hp bi p = Some bi').
Proof.
  intros Hvalid Hparents.
  destruct (addNodes_index hp nodes bi Hvalid Hparents) as (bi' & Hrun & Hin & Hout).
  exists bi'. split; [done|]. split; [|split].
  - intros k p n Hk Hn Hlast. unfold LookupNode, lookupNode, HaveBlock.
    rewrite (Hin k p n Hk Hn Hlast). split; [done|]. by apply bool_decide_eq_true_2.
  - intros h Hh. unfold LookupNode, lookupNode, HaveBlock. by rewrite (Hout h Hh).
  - intros p ->. simpl in Hrun. unfold AddNode. by destruct (addNode hp bi p).
Qed.
End BlockIndexLookup.

(** ** The block index: composing status updates *)

Section StatusAlgebra.

Lemma byte_lor s f : 0 ≤ s < 256 → 0 ≤ f < 256 → 0 ≤ Z.lor s f < 256.
Proof.
  intros Hs Hf.
  assert (Hmod : Z.lor s f mod 2 ^ 8 = Z.lor s f).
  { rewrite <- Z.land_ones, Z.land_lor_distr_l, !Z.land_ones by lia.
    rewrite !Z.mod_small by (change (2 ^ 8) with 256; lia). done. }
  rewrite <- Hmod. change 256 with (2 ^ 8). apply Z.mod_pos_bound. lia.
Qed.

Lemma byte_ldiff s f : 0 ≤ s < 256 → 0 ≤ Z.ldiff s f < 256.
Proof.
  intros Hs.
  assert (Hmod : Z.ldiff s f mod 2 ^ 8 = Z.ldiff s f).
  { rewrite <- Z.land_ones, !Z.ldiff_land by lia.
    rewrite <- Z.land_assoc, (Z.land_comm (Z.lnot f)), Z.land_assoc, Z.land_ones by lia.
    rewrite Z.mod_small by (change (2 ^ 8) with 256; lia). done. }
  rewrite <- Hmod. change 256 with (2 ^ 8). apply Z.mod_pos_bound. lia.
Qed.

Lemma ldiff_lor_same s f : Z.ldiff (Z.lor s f) f = Z.ldiff s f.
Proof.
  apply Z.bits_inj'. intros i _. rewrite !Z.ldiff_spec, Z.lor_spec.
  by destruct (Z.testbit s i), (Z.testbit f i).
Qed.

Lemma lor_ldiff_same s f : Z.lor (Z.ldiff s f) f = Z.lor s f.
Proof.
  apply Z.bits_inj'. intros i _. rewrite !Z.lor_spec, Z.ldiff_spec.
  by destruct (Z.testbit s i), (Z.testbit f i).
Qed.

Lemma land_lor_same s f : Z.land (Z.lor s f) f = f.
Proof.
  apply Z.bits_inj'. intros i _. rewrite Z.land_spec, Z.lor_spec.
  by destruct (Z.testbit s i), (Z.testbit f i).
Qed.

(** X19. Setting flags [f] and then [g] is setting [f OR g], and the
    same for unsetting; unsetting [f] after setting [f] is unsetting [f],
    and setting [f] after unsetting [f] is setting [f].  After
    [SetStatusFlags] every flag of [f] is set in the node's status, after
    [UnsetStatusFlags] none is; and a status and flags that fit a byte
    give a status that fits a byte. *)
Theorem StatusFlags_algebra (hp : nodeHeap) (bi : blockIndex) (node : positive) (f g : Z) :
  thenSet (SetStatusFlags hp bi node f) node g = SetStatusFlags hp bi node (Z.lor f g)
  ∧ thenUnset (UnsetStatusFlags hp bi node f) node g
    = UnsetStatusFlags hp bi node (Z.lor f g)
  ∧ thenUnset (SetStatusFlags hp bi node f) node f = UnsetStatusFlags hp bi node f
  ∧ thenSet (UnsetStatusFlags hp bi node f) node f = SetStatusFlags hp bi node f
  ∧ (∀ hp1 bi1, SetStatusFlags hp bi node f = Some (hp1, bi1) →
       ∃ s, NodeStatus hp1 node = Some s ∧ Z.land s f = f)
  ∧ (∀ hp1 bi1, UnsetStatusFlags hp bi node f = Some (hp1, bi1) →
       ∃ s, NodeStatus hp1 node = Some s ∧ Z.land s f = 0)
  ∧ (∀ n, hp !! node = Some n → 0 ≤ status n < 256 → 0 ≤ f < 256 →
       0 ≤ Z.lor (status n) f < 256 ∧ 0 ≤ Z.ldiff (status n) f < 256).
Proof.
  unfold thenSet, thenUnset, SetStatusFlags, UnsetStatusFlags, NodeStatus.
  destruct (hp !! node) as [n|] eqn:Hn; simpl.
  - rewrite !lookup_insert_eq. simpl. rewrite !insert_insert_eq. unfold withStatus. simpl.
    rewrite Z.lor_assoc, Z.ldiff_ldiff_l, ldiff_lor_same, lor_ldiff_same.
    split; [done|]. split; [done|]. split; [done|]. split; [done|]. split; [|split].
    + intros hp1 bi1 [= <- <-]. rewrite lookup_insert_eq. simpl. eexists. split; [done|].
      apply land_lor_same.
    + intros hp1 bi1 [= <- <-]. rewrite lookup_insert_eq. simpl. eexists. split; [done|].
      apply Z.land_ldiff.
    + intros n' [= <-] Hs Hf. split; [by apply byte_lor|by apply byte_ldiff].
  - repeat split; done.
Qed.
End StatusAlgebra.

(** ** The block index: removing a tip, adding a node twice *)

Section TipRemoval.

Lemma removeFirst_not_in tip l : tip ∉ l → removeFirst tip l = l.
Proof.
  induction l as [|x l IH]; intros Hnin; simpl; [done|].
  apply not_elem_of_cons in Hnin as [Hne Hnin].
  rewrite decide_False by done. by rewrite IH.
Qed.

Lemma removeFirst_split tip l1 l2 :
  tip ∉ l1 → removeFirst tip (l1 ++ tip :: l2) = l1 ++ l2.
Proof.
  induction l1 as [|x l1 IH]; intros Hnin; simpl.
  - by rewrite decide_True.
  - apply not_elem_of_cons in Hnin as [Hne Hnin].
    rewrite decide_False by done. by rewrite IH.
Qed.

Lemma removeFirst_twice tip l1 l2 : tip ∈ removeFirst tip (l1 ++ tip :: tip :: l2).
Proof.
  induction l1 as [|x l1 IH]; simpl.
  - rewrite decide_True by done. by left.
  - case_decide as Hx.
    + apply elem_of_app. right. by left.
    + by right.
Qed.

(** X20. [removeChainTip] removes the first occurrence of the node from
    the tip list of its height and keeps the order of the others; it
    leaves the other heights and the hash index as they were, never leaves
    an empty list under the node's height, and changes nothing when the
    node is not a tip (and no empty list was stored). *)
Theorem removeChainTip_first_occurrence
    (hp : nodeHeap) (bi : blockIndex) (tip : positive) (t : blockNode) :
  hp !! tip = Some t →
  ∃ bi', removeChainTip hp bi tip = Some bi'
    ∧ index bi' = index bi
    ∧ (∀ h, h ≠ height t → chainTips bi' !! h = chainTips bi !! h)
    ∧ (∀ l1 l2, tipsAt bi (height t) = l1 ++ tip :: l2 → tip ∉ l1 →
         tipsAt bi' (height t) = l1 ++ l2)
    ∧ (tip ∉ tipsAt bi (height t) → tipsAt bi' (height t) = tipsAt bi (height t))
    ∧ (tip ∉ tipsAt bi (height t) → chainTips bi !! height t ≠ Some [] → bi' = bi)
    ∧ chainTips bi' !! height t ≠ Some [].
Proof.
  intros Ht.
  destruct (removeChainTip_spec hp bi tip t Ht) as (bi' & Hrun & Hidx & Hat & Hne).
  exists bi'. split; [done|]. split; [done|].
  assert (Hother : ∀ h, h ≠ height t → chainTips bi' !! h = chainTips bi !! h).
  { intros h Hh. unfold removeChainTip in Hrun. rewrite Ht in Hrun. simpl in Hrun.
    injection Hrun as <-. simpl.
    destruct (length _ =? 0)%nat; [by rewrite lookup_delete_ne|by rewrite lookup_insert_ne]. }
  assert (Hnonempty : chainTips bi' !! height t ≠ Some []).
  { intros Hnil. unfold removeChainTip in Hrun. rewrite Ht in Hrun. simpl in Hrun.
    injection Hrun as <-. simpl in Hnil.
    destruct (length _ =? 0)%nat eqn:Hlen.
    - by rewrite lookup_delete_eq in Hnil.
    - rewrite lookup_insert_eq in Hnil. injection Hnil as Hnil.
      by rewrite Hnil in Hlen. }
  split; [done|]. split; [|split; [|split; [|done]]].
  - intros l1 l2 Hl Hnin. rewrite Hat, decide_True, Hl by done.
    by apply removeFirst_split.
  - intros Hnin. rewrite Hat, decide_True by done. by apply removeFirst_not_in.
  - intros Hnin Hstored. destruct bi as [ix ct], bi' as [ix' ct']. simpl in *.
    subst ix'. f_equal. apply map_eq. intros h.
    destruct (decide (h = height t)) as [->|Hh]; [|by apply Hother].
    specialize (Hat (height t)). rewrite decide_True in Hat by done.
    rewrite removeFirst_not_in in Hat by done. unfold tipsAt in Hat, Hnin. simpl in *.
    destruct (ct' !! height t) as [l'|] eqn:Hl', (ct !! height t) as [l|] eqn:Hl;
      simpl in *; subst; try done;
      solve [by destruct (Hnonempty eq_refl) | by destruct (Hstored eq_refl)].
Qed.

(** X21. Duplicate entries are not checked: adding a parentless node
    twice lists it twice among the tips of its height (the hash index is
    as after one call), and adding a child of it afterwards removes one
    copy only, so the node is still listed as a tip though it has a
    child. *)
Theorem addNode_duplicate_stays_tip
    (hp : nodeHeap) (bi : blockIndex) (p c : positive) (n nc : blockNode) :
  hp !! p = Some n → parent n = None →
  hp !! c = Some nc → parent nc = Some p →
  ∃ bi1 bi2 bi3,
    addNode hp bi p = Some bi1
    ∧ addNode hp bi1 p = Some bi2
    ∧ addNode hp bi2 c = Some bi3
    ∧ index bi2 = index bi1
    ∧ tipsAt bi2 (height n) = tipsAt bi (height n) ++ [p; p]
    ∧ p ∈ tipsAt bi3 (height n)
    ∧ refParentNode hp c = Some p.
Proof.
  intros Hn Hroot Hc Hchild.
  assert (Hstep : ∀ b, ∃ b', addNode hp b p = Some b'
            ∧ index b' = <[hash n := p]> (index b)
            ∧ ∀ h, tipsAt b' h
                = if decide (h = height n) then tipsAt b h ++ [p] else tipsAt b h).
  { intros b. unfold addNode. rewrite Hn. simpl.
    destruct (addChainTip_spec hp
                {| index := <[hash n := p]> (index b); chainTips := chainTips b |} p n Hn)
      as (b2 & -> & Hidx2 & Hat2 & _). simpl. rewrite Hroot.
    exists b2. split; [done|]. split; [done|]. done. }
  destruct (Hstep bi) as (bi1 & Hadd1 & Hidx1 & Hat1).
  destruct (Hstep bi1) as (bi2 & Hadd2 & Hidx2 & Hat2).
  assert (Htips2 : tipsAt bi2 (height n) = tipsAt bi (height n) ++ [p; p]).
  { rewrite Hat2, Hat1, !decide_True by done. by rewrite <- app_assoc. }
  unfold addNode at 3. rewrite Hc. simpl.
  destruct (addChainTip_spec hp
              {| index := <[hash nc := c]> (index bi2); chainTips := chainTips bi2 |} c nc Hc)
    as (b3 & Hadd3 & _ & Hat3 & _).
  rewrite Hchild.
  destruct (removeChainTip_spec hp b3 p n Hn) as (bi3 & Hrem & _ & Hat4 & _).
  exists bi1, bi2, bi3. split; [done|]. split; [done|].
  split; [by rewrite Hadd3; simpl|]. split.
  { rewrite Hidx2, Hidx1. by rewrite insert_insert_eq. }
  split; [done|]. split; [|unfold refParentNode; by rewrite Hc].
  rewrite Hat4, decide_True, Hat3 by done.
  change (tipsAt {| index := _; chainTips := chainTips bi2 |} (height n))
    with (tipsAt bi2 (height n)). rewrite Htips2.
  case_decide.
  - rewrite <- app_assoc. apply removeFirst_twice.
  - apply (removeFirst_twice p _ []).
Qed.
End TipRemoval.

(** * Concrete runs

    The theorems above applied to small inputs, and the inputs on which a
    claim of the specification fails as it is stated.  The byte order is
    little-endian and the hash primitives are the stand-ins of
    [sampleHashFunctions]. *)

Section ConcreteRuns.
#[local] Existing Instance littleEndian.
#[local] Existing Instance sampleHashFunctions.
#[local] Existing Instance exactLog2.

(** Witness of C1: three locators. *)
Lemma Init_recovers_counter_witness :
  Init 18 {| db := locatorStore 3; curBlockID := 9 |}
  = Some ({| db := locatorStore 3; curBlockID := 3 |}, None)
  ∧ Init 18 (NewTxIndex (locatorStore 3))
    = Some ({| db := locatorStore 3; curBlockID := 3 |}, None).
Proof.
  apply (Init_recovers_counter 3 {| db := locatorStore 3; curBlockID := 9 |} 18);
    [lia|by vm_compute| |by vm_compute].
  apply (holdsLocators_locatorStore 3). by vm_compute.
Defined.

(** C1 as stated fails on an empty store when the counter is not already
    0: [Init] returns after the first probe and the counter keeps its
    value (here 7), where the claim says the counter is 0. *)
Lemma Init_empty_store_keeps_counter :
  holdsLocators (locatorStore 0) 0
  ∧ ∀ fuel, Init (S fuel) {| db := locatorStore 0; curBlockID := 7 |}
            = Some ({| db := locatorStore 0; curBlockID := 7 |}, None).
Proof.
  split; [apply (holdsLocators_locatorStore 0); by vm_compute|].
  intros fuel. reflexivity.
Qed.

(** Witness of C2: three transactions. *)
Lemma BuildMerkleTreeStore_correct_witness :
  ∃ merkles,
    BuildMerkleTreeStore [sampleTx 1; sampleTx 2; sampleTx 3] false = Some merkles
    ∧ length merkles = 7%nat
    ∧ last merkles
      = Some (refMerkleRoot (leafHashes false [sampleTx 1; sampleTx 2; sampleTx 3])).
Proof.
  destruct (BuildMerkleTreeStore_correct [sampleTx 1; sampleTx 2; sampleTx 3] false)
    as (merkles & Hrun & _ & Hpos); [by vm_compute|intros _; reflexivity|].
  destruct Hpos as [Hlen Hlast]; [simpl; lia|].
  exists merkles. split; [done|]. split; [|done].
  change (nextPowerOfTwo (Z.of_nat (length [sampleTx 1; sampleTx 2; sampleTx 3])))
    with 4 in Hlen. lia.
Defined.

(** Witness of C3: the commitment embedded in [committedBlock] is not the
    computed one, and the error says so. *)
Lemma ValidateWitnessCommitment_error_iff_witness :
  ∃ computed,
    ValidateWitnessCommitment committedBlock
    = Some (Some (commitmentMismatch computed (sampleHash x07))).
Proof.
  destruct (ValidateWitnessCommitment_error_iff committedBlock)
    as (r & Hrun & _ & Hreport); [by vm_compute|intros _; reflexivity|].
  eexists. rewrite Hrun. f_equal.
  eapply (Hreport _ _ eq_refl); [by vm_compute|by vm_compute|by vm_compute].
Defined.

(** Witness of C4: [sampleBlock] on the empty store, counter 0. *)
Lemma ConnectBlock_DisconnectBlock_restores_witness :
  ∃ idx1 dbTx1,
    ConnectBlock (NewTxIndex emptyDbTx) emptyDbTx sampleBlock = (idx1, dbTx1, Ok ())
    ∧ curBlockID idx1 = 1
    ∧ DisconnectBlock idx1 dbTx1 sampleBlock = (NewTxIndex emptyDbTx, emptyDbTx, Ok ()).
Proof.
  apply (ConnectBlock_DisconnectBlock_restores (NewTxIndex emptyDbTx) emptyDbTx
           sampleBlock [ {| TxStart := 80; TxLen := 100 |};
                         {| TxStart := 180; TxLen := 250 |} ]);
    [by vm_compute|reflexivity|simpl; lia| |done|done|done].
  apply (bool_decide_unpack _). by vm_compute.
Defined.

(** C4 as stated fails on a block that lists one transaction twice, though
    the hash is not in the store beforehand: [ConnectBlock] succeeds,
    [DisconnectBlock] removes the entry once and then returns an error;
    the counter stays advanced and the block's two mappings stay in. *)
Lemma ConnectBlock_DisconnectBlock_duplicate_tx :
  txIndexBucket emptyDbTx !! sampleHash x01 = None
  ∧ (ConnectBlock (NewTxIndex emptyDbTx) emptyDbTx duplicateTxBlock).2 = Ok ()
  ∧ (let '(idx1, dbTx1, _) := ConnectBlock (NewTxIndex emptyDbTx) emptyDbTx duplicateTxBlock in
     let '(idx2, dbTx2, r) := DisconnectBlock idx1 dbTx1 duplicateTxBlock in
     r = Err (Errorf "can't remove non-existent transaction %s from the transaction index"
                [ArgHash (sampleHash x01)])
     ∧ curBlockID idx2 = 1
     ∧ idByHashIndexBucket dbTx2 !! sampleHash xb1 = Some (PutUint32 1)
     ∧ hashByIDIndexBucket dbTx2 !! PutUint32 1 = Some (sampleHash xb1)).
Proof. vm_compute. repeat split. Qed.

(** Witness of C5: a 5-byte record, and a 12-byte record whose locator is
    unknown. *)
Lemma TxBlockRegion_outcomes_witness :
  TxBlockRegion (NewTxIndex (storeWithEntry 5)) (sampleHash x01)
  = Err (DatabaseError ErrCorruption "corrupt transaction index entry for %s"
           [ArgHash (sampleHash x01)])
  ∧ TxBlockRegion (NewTxIndex (storeWithEntry 12)) (sampleHash x01)
    = Err (DatabaseError ErrCorruption "corrupt transaction index entry for %s: %v"
             [ArgHash (sampleHash x01); ArgError errNoBlockIDEntry]).
Proof.
  split.
  - destruct (TxBlockRegion_outcomes (NewTxIndex (storeWithEntry 5)) (sampleHash x01))
      as (_ & _ & Hshort & _).
    apply (Hshort (replicate 5 x00)); [by vm_compute|simpl; lia].
  - destruct (TxBlockRegion_outcomes (NewTxIndex (storeWithEntry 12)) (sampleHash x01))
      as (_ & _ & _ & Hdangling).
    apply (Hdangling (replicate 12 x00)); [by vm_compute|simpl; lia|by vm_compute].
Defined.

(** C5 as stated fails on a stored record of length 0: it exists and is
    shorter than 12 bytes, and the lookup answers as for an absent key, with
    no error. *)
Lemma TxBlockRegion_empty_record :
  txIndexBucket (storeWithEntry 0) !! sampleHash x01 = Some []
  ∧ TxBlockRegion (NewTxIndex (storeWithEntry 0)) (sampleHash x01) = Ok None.
Proof. by vm_compute. Qed.

(** Witness of C6: [sampleBlock] was never connected to the empty store;
    [oneTxBlock] has its transaction indexed and its hash unknown. *)
Lemma DisconnectBlock_unindexed_witness :
  (∃ e, DisconnectBlock (NewTxIndex emptyDbTx) emptyDbTx sampleBlock
        = (NewTxIndex emptyDbTx, emptyDbTx, Err e))
  ∧ DisconnectBlock {| db := emptyDbTx; curBlockID := 5 |} (storeWithEntry 12) oneTxBlock
    = ({| db := emptyDbTx; curBlockID := 4 |}, emptyDbTx, Ok ()).
Proof.
  split.
  - destruct (DisconnectBlock_unindexed (NewTxIndex emptyDbTx) emptyDbTx sampleBlock)
      as [Hmissing _].
    apply (Hmissing (sampleIndexedTx x01)); [by left|done].
  - destruct (DisconnectBlock_unindexed {| db := emptyDbTx; curBlockID := 5 |}
                (storeWithEntry 12) oneTxBlock) as [_ Hunknown].
    apply (Hunknown emptyDbTx); by vm_compute.
Defined.

(** C6 as stated fails on a block whose hash has no entry in the
    hash-to-locator bucket: [DisconnectBlock] returns no error, and the
    counter goes from 5 to 4. *)
Lemma DisconnectBlock_unknown_block_hash :
  idByHashIndexBucket (storeWithEntry 12) !! BlockHash oneTxBlock = None
  ∧ DisconnectBlock {| db := emptyDbTx; curBlockID := 5 |} (storeWithEntry 12) oneTxBlock
    = ({| db := emptyDbTx; curBlockID := 4 |}, emptyDbTx, Ok ()).
Proof. by vm_compute. Qed.

(** Witness of C7, the siblings of the spec: after genesis, the siblings 2
    and 3 and the child 4 of sibling 2, the tips are 3 at height 1 and 4 at
    height 2, and height 0 has no entry. *)
Lemma addNodes_chainTips_witness :
  ∃ bi, addNodes sampleHeap newBlockIndex [1; 2; 3; 4]%positive = Some bi
    ∧ chainTips bi = {[ 1 := [3%positive]; 2 := [4%positive] ]}
    ∧ (∀ h p, p ∈ tipsAt bi h ↔ isTipOf sampleHeap [1; 2; 3; 4]%positive h p).
Proof.
  destruct (addNodes_chainTips sampleHeap [1; 2; 3; 4]%positive)
    as (bi & Hrun & Htips & _).
  - intros p Hp. repeat (apply elem_of_cons in Hp as [->|Hp]);
      [apply (bool_decide_unpack _); by vm_compute..|by apply elem_of_nil in Hp].
  - apply (bool_decide_unpack _). by vm_compute.
  - intros before p after q Heq Hq.
    destruct before as [|b1 [|b2 [|b3 [|b4 [|b5 before]]]]];
      simplify_eq/=; vm_compute in Hq; simplify_eq; set_solver.
  - exists bi. split; [done|]. split; [|done].
    assert (Hbi : addNodes sampleHeap newBlockIndex [1; 2; 3; 4]%positive
                  = Some {| index := index bi;
                            chainTips := {[ 1 := [3%positive]; 2 := [4%positive] ]} |}).
    { rewrite Hrun. f_equal. destruct bi as [ix ct]. simpl. f_equal.
      assert (Hct : chainTips <$> addNodes sampleHeap newBlockIndex [1; 2; 3; 4]%positive
                    = Some {[ 1 := [3%positive]; 2 := [4%positive] ]}) by by vm_compute.
      rewrite Hrun in Hct. by injection Hct. }
    rewrite Hrun in Hbi. by injection Hbi as ->.
Defined.

(** Witness of C8: the values 3, 5 and 1025, which consult the
    logarithm. *)
Lemma nextPowerOfTwo_least_power_witness :
  nextPowerOfTwo 3 = 4 ∧ nextPowerOfTwo 5 = 8 ∧ nextPowerOfTwo 1025 = 2048.
Proof.
  destruct (nextPowerOfTwo_least_power 3) as [_ H3].
  destruct (nextPowerOfTwo_least_power 5) as [_ H5].
  destruct (nextPowerOfTwo_least_power 1025) as [_ H1025].
  destruct H3 as [H3 _]; [lia|intros _; reflexivity|].
  destruct H5 as [H5 _]; [lia|intros _; reflexivity|].
  destruct H1025 as [H1025 _]; [lia|intros _; reflexivity|].
  split; [exact H3|]. split; [exact H5|exact H1025].
Defined.

(** C8 as stated fails above [2 ^ 62]: [2 ^ 62 + 1] is a value of Go's
    [int], and the result, computed in [int], is below it whatever the
    float logarithm returns, so it is no power of two that is at least
    [n]. *)
Lemma nextPowerOfTwo_above_2_62 :
  1 ≤ 2 ^ 62 + 1 < 2 ^ 63
  ∧ ∀ F : FloatLog2, @nextPowerOfTwo F (2 ^ 62 + 1) < 2 ^ 62 + 1.
Proof.
  split; [lia|]. intros F. unfold nextPowerOfTwo.
  assert (Hland : (Z.land (2 ^ 62 + 1) (int64 (2 ^ 62 + 1 - 1)) =? 0) = false)
    by reflexivity.
  rewrite Hland.
  pose proof (Z.mod_pos_bound (@uintLog2 F (2 ^ 62 + 1) + 1) (2 ^ 64) ltac:(lia)) as He.
  pose proof (shiftl_one_int64_le (uint64 (@uintLog2 F (2 ^ 62 + 1) + 1)) (proj1 He)).
  lia.
Qed.

(** Witness of C9: flags 2 on the node at address 3, whose status is 5. *)
Lemma StatusFlags_frame_witness :
  NodeStatus sampleHeap 3 = Some 5
  ∧ (∃ hp', SetStatusFlags sampleHeap newBlockIndex 3 2 = Some (hp', newBlockIndex)
       ∧ NodeStatus hp' 3 = Some 7 ∧ NodeStatus hp' 2 = Some 1)
  ∧ (∃ hp', UnsetStatusFlags sampleHeap newBlockIndex 3 4 = Some (hp', newBlockIndex)
       ∧ NodeStatus hp' 3 = Some 1 ∧ NodeStatus hp' 2 = Some 1).
Proof.
  split; [by vm_compute|].
  destruct (StatusFlags_frame sampleHeap newBlockIndex 3 2
              {| hash := sampleHash x0c; parent := Some 1%positive; height := 1;
                 status := 5 |}) as ((Hset & _) & _ & _); [by vm_compute|].
  destruct (StatusFlags_frame sampleHeap newBlockIndex 3 4
              {| hash := sampleHash x0c; parent := Some 1%positive; height := 1;
                 status := 5 |}) as (_ & (Hunset & _) & _); [by vm_compute|].
  split; eexists; (split; [eassumption|]); by vm_compute.
Defined.
(** Witness of X1: three hash pointers, the second [nil]. *)
Lemma BuildParentsMerkleTreeStore_layout_witness :
  ∃ merkles,
    BuildParentsMerkleTreeStore [Some (sampleHash x01); None; Some (sampleHash x03)]
    = Some merkles
    ∧ length merkles = 7%nat
    ∧ merkles !! 1%nat = Some None
    ∧ merkles !! 3%nat = Some None.
Proof.
  destruct (BuildParentsMerkleTreeStore_layout
              [Some (sampleHash x01); None; Some (sampleHash x03)])
    as (_ & _ & Hlayout).
  destruct Hlayout as (merkles & P & Hrun & HP & Hlen & Hleaves & Hpad & _);
    [simpl; lia|by vm_compute|intros _; reflexivity|].
  change (nextPowerOfTwo (Z.of_nat (length [Some (sampleHash x01); None;
                                            Some (sampleHash x03)]))) with 4 in HP.
  assert (P = 4%nat) as -> by lia.
  exists merkles. split; [done|]. split; [done|]. split.
  - apply (Hleaves 1%nat). simpl. lia.
  - apply (Hpad 3%nat). simpl. lia.
Defined.

(** Witness of X2: a [nil] first entry gives a [nil] root. *)
Lemma BuildParentsMerkleTreeStore_root_witness :
  ∃ merkles,
    BuildParentsMerkleTreeStore [None; Some (sampleHash x02)] = Some merkles
    ∧ last merkles = Some None.
Proof.
  destruct (BuildParentsMerkleTreeStore_root [None; Some (sampleHash x02)])
    as (_ & Hroot).
  destruct Hroot as (merkles & root & Hrun & Hlast & _ & Hnil);
    [simpl; lia|by vm_compute|intros _; reflexivity|].
  exists merkles. split; [done|]. rewrite Hlast. f_equal. by apply Hnil.
Defined.

(** Witness of X3: three transactions in witness mode. *)
Lemma BuildMerkleTreeStore_as_parents_store_witness :
  BuildMerkleTreeStore [sampleTx 1; sampleTx 2; sampleTx 3] true
  = BuildParentsMerkleTreeStore
      (Some <$> leafHashes true [sampleTx 1; sampleTx 2; sampleTx 3]).
Proof.
  destruct (BuildMerkleTreeStore_as_parents_store [sampleTx 1; sampleTx 2; sampleTx 3] true)
    as (_ & _ & Hsame).
  apply Hsame; [by vm_compute|intros _; reflexivity].
Defined.

(** Witness of X4: three transactions; slot 3 is [nil] and slot 5, the
    second of level 1, pairs the third leaf with itself. *)
Lemma BuildMerkleTreeStore_levels_witness :
  ∃ merkles,
    BuildMerkleTreeStore [sampleTx 1; sampleTx 2; sampleTx 3] false = Some merkles
    ∧ merkles !! 3%nat = Some None
    ∧ merkles !! 5%nat
      = Some (Some (HashMerkleBranches (TxHash (TxTx (sampleTx 3)))
                                       (TxHash (TxTx (sampleTx 3))))).
Proof.
  destruct (BuildMerkleTreeStore_levels [sampleTx 1; sampleTx 2; sampleTx 3] false)
    as (merkles & Hrun & _ & Hpad & Hlevels);
    [simpl; lia|by vm_compute|intros _; reflexivity|].
  exists merkles. split; [done|]. split.
  - apply (Hpad 3%nat). vm_compute. lia.
  - apply (Hlevels 1%nat 1%nat); vm_compute; lia.
Defined.

(** Witness of X5: three transactions. *)
Lemma CalcMerkleRoot_reference_witness :
  ∃ root,
    CalcMerkleRoot [TxTx (sampleTx 1); TxTx (sampleTx 2); TxTx (sampleTx 3)] = Some root
    ∧ refMerkleRoot (TxHash <$> [TxTx (sampleTx 1); TxTx (sampleTx 2); TxTx (sampleTx 3)])
      = Some root.
Proof.
  destruct (CalcMerkleRoot_reference
              [TxTx (sampleTx 1); TxTx (sampleTx 2); TxTx (sampleTx 3)])
    as (_ & _ & _ & Hroot).
  destruct Hroot as (root & Hrun & _ & Href);
    [simpl; lia|by vm_compute|intros _; reflexivity|].
  by exists root.
Defined.

(** Witness of X6: three transactions and the same three with the last one
    repeated. *)
Lemma CalcMerkleRoot_duplicate_last_witness :
  ∃ root,
    CalcMerkleRoot ([TxTx (sampleTx 1); TxTx (sampleTx 2)] ++ [TxTx (sampleTx 3)])
    = Some root
    ∧ CalcMerkleRoot ([TxTx (sampleTx 1); TxTx (sampleTx 2)]
                      ++ [TxTx (sampleTx 3); TxTx (sampleTx 3)]) = Some root.
Proof.
  apply (CalcMerkleRoot_duplicate_last [TxTx (sampleTx 1); TxTx (sampleTx 2)]
           (TxTx (sampleTx 3)));
    [simpl; lia|by exists 1%nat|by vm_compute
    |intros _; reflexivity|intros _; reflexivity].
Defined.

(** Witness of X7: three transactions. *)
Lemma Nox_BuildMerkleTreeStore_full_hashes_witness :
  Nox.BuildMerkleTreeStore [sampleTx 1; sampleTx 2; sampleTx 3]
  = BuildParentsMerkleTreeStore (Some <$> fullHashes [sampleTx 1; sampleTx 2; sampleTx 3])
  ∧ ∃ root,
      Nox.calcMerkleRoot (TxTx <$> [sampleTx 1; sampleTx 2; sampleTx 3]) = Some root
      ∧ refMerkleRoot (fullHashes [sampleTx 1; sampleTx 2; sampleTx 3]) = Some root.
Proof.
  destruct (Nox_BuildMerkleTreeStore_full_hashes [sampleTx 1; sampleTx 2; sampleTx 3] [])
    as (_ & Hstore).
  destruct Hstore as (Hnox & Hroot); [by vm_compute|intros _; reflexivity|].
  split; [done|].
  destruct Hroot as (merkles & root & _ & _ & Href & Hcalc); [simpl; lia|].
  by exists root.
Defined.

(** Witness of X8: 8 is a power of two and 6 is not. *)
Lemma nextPowerOfTwo_fixed_points_witness :
  nextPowerOfTwo 8 = 8 ∧ nextPowerOfTwo 6 ≠ 6.
Proof.
  split.
  - destruct (nextPowerOfTwo_fixed_points 8) as (_ & Hfix).
    destruct Hfix as [Hiff _]; [lia|]. apply Hiff. exists 3. split; [lia|reflexivity].
  - destruct (nextPowerOfTwo_fixed_points 6) as (_ & Hfix).
    destruct Hfix as [Hiff _]; [lia|]. intros Heq. apply Hiff in Heq as (k & Hk & Hpow).
    assert (Hcase : k = 0 ∨ k = 1 ∨ k = 2 ∨ 3 ≤ k) by lia.
    destruct Hcase as [->|[->|[->|Hbig]]]; [done..|].
    assert (2 ^ 3 ≤ 2 ^ k) by (apply Z.pow_le_mono_r; lia). lia.
Defined.

(** Witness of X9: [committedBlock] and the block with another coinbase
    that has the same inputs. *)
Lemma ValidateWitnessCommitment_ignores_coinbase_witness :
  ValidateWitnessCommitment committedBlock = ValidateWitnessCommitment recommittedBlock.
Proof.
  destruct (ValidateWitnessCommitment_ignores_coinbase
              {| TxTx := {| Version := 1;
                            TxIn := [ {| PreviousOut := {| OutPointHash := sampleHash x07;
                                                           OutIndex := 0 |};
                                         Sequence := 0; SignScript := [x51; x52] |} ];
                            TxOut := []; LockTime := 0; Expire := 0 |};
                 TxCachedHash := sampleHash x03 |}
              {| TxTx := {| Version := 9;
                            TxIn := [ {| PreviousOut := {| OutPointHash := sampleHash x07;
                                                           OutIndex := 0 |};
                                         Sequence := 0; SignScript := [x51; x52] |} ];
                            TxOut := [ {| Amount := 50; PkScript := [x51] |} ];
                            LockTime := 7; Expire := 0 |};
                 TxCachedHash := sampleHash x09 |}
              [sampleIndexedTx x04] (sampleHash xb2) (sampleHash xb4) (Ok []) (Ok []))
    as [_ Hsame].
  apply Hsame. reflexivity.
Defined.

(** Witness of X10: a record with two bytes after the entry. *)
Lemma TxIndexEntry_roundtrip_witness :
  dbFetchTxIndexEntry
    {| txIndexBucket :=
         {[ sampleHash x01 := txEntry 7 {| TxStart := 80; TxLen := 100 |} ++ [x01; x02] ]};
       idByHashIndexBucket := ∅;
       hashByIDIndexBucket := {[ PutUint32 7 := sampleHash xb0 ]} |}
    (sampleHash x01)
  = Ok (Some {| RegionHash := sampleHash xb0; Offset := 80; Len := 100 |}).
Proof.
  destruct (TxIndexEntry_roundtrip
              {| txIndexBucket :=
                   {[ sampleHash x01
                      := txEntry 7 {| TxStart := 80; TxLen := 100 |} ++ [x01; x02] ]};
                 idByHashIndexBucket := ∅;
                 hashByIDIndexBucket := {[ PutUint32 7 := sampleHash xb0 ]} |}
              (sampleHash x01) (sampleHash xb0) 7 {| TxStart := 80; TxLen := 100 |}
              [x01; x02] []) as (_ & _ & Hfetch).
  apply Hfetch; [lia|by vm_compute|by vm_compute].
Defined.

(** Witness of X11: the second transaction of [sampleBlock]. *)
Lemma ConnectBlock_then_TxBlockRegion_witness :
  ∃ idx1 dbTx1,
    ConnectBlock (NewTxIndex emptyDbTx) emptyDbTx sampleBlock = (idx1, dbTx1, Ok ())
    ∧ TxBlockRegion {| db := dbTx1; curBlockID := curBlockID idx1 |} (sampleHash x02)
      = Ok (Some {| RegionHash := sampleHash xb0; Offset := 180; Len := 250 |}).
Proof.
  destruct (ConnectBlock_then_TxBlockRegion (NewTxIndex emptyDbTx) emptyDbTx sampleBlock
              [ {| TxStart := 80; TxLen := 100 |}; {| TxStart := 180; TxLen := 250 |} ]
              1 (sampleIndexedTx x02) {| TxStart := 180; TxLen := 250 |})
    as (idx1 & dbTx1 & Hrun & Hregion & _);
    [reflexivity|simpl; lia|reflexivity|reflexivity| |].
  - intros [|[|j]] tx' Hj Htx'; [lia|lia|done].
  - by exists idx1, dbTx1.
Defined.

(** Witness of X12: [sampleBlock] is connected, and [committedBlock], which
    has two transactions and no location, makes the call panic. *)
Lemma ConnectBlock_outcomes_witness :
  (∃ dbTx1, ConnectBlock (NewTxIndex emptyDbTx) emptyDbTx sampleBlock
            = ({| db := emptyDbTx; curBlockID := 1 |}, dbTx1, Ok ()))
  ∧ (∃ dbTx1, ConnectBlock (NewTxIndex emptyDbTx) emptyDbTx committedBlock
              = (NewTxIndex emptyDbTx, dbTx1, Panic)).
Proof.
  split.
  - pose proof (ConnectBlock_outcomes (NewTxIndex emptyDbTx) emptyDbTx sampleBlock)
      as Hout.
    cbn [BlockTxLoc sampleBlock] in Hout. rewrite decide_True in Hout by (simpl; lia).
    destruct Hout as (dbTx1 & Hrun & _). by exists dbTx1.
  - pose proof (ConnectBlock_outcomes (NewTxIndex emptyDbTx) emptyDbTx committedBlock)
      as Hout.
    cbn [BlockTxLoc committedBlock] in Hout. rewrite decide_False in Hout by (simpl; lia).
    destruct Hout as (dbTx1 & Hrun & _). by exists dbTx1.
Defined.

(** Witness of X13: [sampleBlock] on the empty store. *)
Lemma ConnectBlock_DisconnectBlock_keep_invariant_witness :
  ∃ idx1 dbTx1,
    ConnectBlock (NewTxIndex emptyDbTx) emptyDbTx sampleBlock = (idx1, dbTx1, Ok ())
    ∧ curBlockID idx1 = 1
    ∧ indexInv idx1 dbTx1.
Proof.
  destruct (ConnectBlock_DisconnectBlock_keep_invariant (NewTxIndex emptyDbTx) emptyDbTx
              sampleBlock indexInv_empty) as [Hconnect _].
  apply Hconnect; [by vm_compute| |done].
  eexists. split; [reflexivity|simpl; lia].
Defined.

(** Witness of X14: two blocks connected to the empty store. *)
Lemma Init_after_connectBlocks_witness :
  ∃ idx1 dbTx1,
    connectBlocks (NewTxIndex emptyDbTx) emptyDbTx [sampleBlock; oneTxBlock]
    = (idx1, dbTx1, Ok ())
    ∧ curBlockID idx1 = 2
    ∧ Init 18 (NewTxIndex dbTx1)
      = Some ({| db := dbTx1; curBlockID := curBlockID idx1 |}, None).
Proof.
  apply (Init_after_connectBlocks (NewTxIndex emptyDbTx) emptyDbTx
           [sampleBlock; oneTxBlock] 18);
    [simpl; lia|apply holdsLocators_empty| |by vm_compute|by vm_compute].
  repeat apply Forall_cons_2; [| |apply Forall_nil_2];
    (eexists; split; [reflexivity|simpl; lia]).
Defined.

(** Witness of X15: [oneTxBlock] disconnected from the store that holds
    its transaction. *)
Lemma DisconnectBlock_then_TxBlockRegion_witness :
  TxBlockRegion {| db := emptyDbTx; curBlockID := 4 |} (sampleHash x01) = Ok None.
Proof.
  destruct (DisconnectBlock_then_TxBlockRegion {| db := emptyDbTx; curBlockID := 5 |}
              {| db := emptyDbTx; curBlockID := 4 |} (storeWithEntry 12) emptyDbTx
              oneTxBlock) as (Hgone & _); [by vm_compute|].
  apply (Hgone (sampleIndexedTx x01)). by left.
Defined.

(** Witness of X16: block ID 7 for the hash [sampleHash xb0]. *)
Lemma BlockIDIndexEntry_roundtrip_witness :
  dbFetchBlockIDByHash (dbPutBlockIDIndexEntry emptyDbTx (sampleHash xb0) 7).1
    (sampleHash xb0) = Ok 7
  ∧ dbFetchBlockHashByID (dbPutBlockIDIndexEntry emptyDbTx (sampleHash xb0) 7).1 7
    = Ok (sampleHash xb0).
Proof.
  destruct (BlockIDIndexEntry_roundtrip emptyDbTx (sampleHash xb0) 7)
    as (_ & Hid & _ & Hhash & _); [lia|].
  split; [done|]. apply Hhash. reflexivity.
Defined.

(** Witness of X17: a store with the block IDs 1, 2 and 4. *)
Lemma Init_finds_boundary_witness :
  ∃ c, Init 18 (NewTxIndex gapStore) = Some ({| db := gapStore; curBlockID := c |}, None)
    ∧ 1 ≤ c < 100001
    ∧ hasLocator gapStore c ∧ ¬ hasLocator gapStore (c + 1).
Proof.
  destruct (Init_finds_boundary (NewTxIndex gapStore) 1 18) as [_ Hsearch].
  apply Hsearch; [lia| | |by vm_compute|by vm_compute].
  - intros k Hk. replace k with 0 by lia. apply (bool_decide_unpack _). by vm_compute.
  - apply (bool_decide_unpack _). by vm_compute.
Defined.

(** Witness of X18: the four nodes of [sampleHeap]. *)
Lemma addNodes_LookupNode_witness :
  ∃ bi, addNodes sampleHeap newBlockIndex [1; 2; 3; 4]%positive = Some bi
    ∧ LookupNode bi (sampleHash x0c) = Some 3%positive
    ∧ HaveBlock bi (sampleHash x0c) = true
    ∧ LookupNode bi (sampleHash xb0) = None.
Proof.
  destruct (addNodes_LookupNode sampleHeap newBlockIndex [1; 2; 3; 4]%positive)
    as (bi & Hrun & Hin & Hout & _).
  - intros p Hp. repeat (apply elem_of_cons in Hp as [->|Hp]);
      [apply (bool_decide_unpack _); by vm_compute..|by apply elem_of_nil in Hp].
  - intros p q Hp Hq. repeat (apply elem_of_cons in Hp as [->|Hp]);
      [vm_compute in Hq; simplify_eq; apply (bool_decide_unpack _); by vm_compute..
      |by apply elem_of_nil in Hp].
  - exists bi. split; [done|].
    destruct (Hin 2%nat 3%positive
                {| hash := sampleHash x0c; parent := Some 1%positive; height := 1;
                   status := 5 |}) as [Hlook Hhave]; [reflexivity|by vm_compute| |].
    { intros [|[|[|[|j]]]] q Hj Hq; try lia; [|done].
      injection Hq as <-. by vm_compute. }
    split; [done|]. split; [done|].
    destruct (Hout (sampleHash xb0)) as [Hnone _]; [|by rewrite Hnone].
    apply (bool_decide_unpack _). by vm_compute.
Defined.

(** Witness of X19: flags 2 on the node at address 3, whose status is 5. *)
Lemma StatusFlags_algebra_witness :
  thenUnset (SetStatusFlags sampleHeap newBlockIndex 3 2) 3 2
  = UnsetStatusFlags sampleHeap newBlockIndex 3 2
  ∧ 0 ≤ Z.lor 5 2 < 256.
Proof.
  destruct (StatusFlags_algebra sampleHeap newBlockIndex 3 2 2)
    as (_ & _ & Hcancel & _ & _ & _ & Hbyte).
  split; [done|].
  apply (Hbyte {| hash := sampleHash x0c; parent := Some 1%positive; height := 1;
                  status := 5 |}); [by vm_compute|simpl; lia|lia].
Defined.

(** Witness of X20: the tips 2 and 3 at height 1; node 2 is removed. *)
Lemma removeChainTip_first_occurrence_witness :
  ∃ bi', removeChainTip sampleHeap
           {| index := ∅; chainTips := {[ 1 := [2; 3]%positive ]} |} 2 = Some bi'
    ∧ tipsAt bi' 1 = [3%positive].
Proof.
  destruct (removeChainTip_first_occurrence sampleHeap
              {| index := ∅; chainTips := {[ 1 := [2; 3]%positive ]} |} 2
              {| hash := sampleHash x0b; parent := Some 1%positive; height := 1;
                 status := 1 |}) as (bi' & Hrun & _ & _ & Hcut & _); [by vm_compute|].
  exists bi'. split; [done|].
  apply (Hcut [] [3%positive]); [by vm_compute|apply not_elem_of_nil].
Defined.

(** Witness of X21: genesis added twice, then its child at address 2. *)
Lemma addNode_duplicate_stays_tip_witness :
  ∃ bi1 bi2 bi3,
    addNode sampleHeap newBlockIndex 1 = Some bi1
    ∧ addNode sampleHeap bi1 1 = Some bi2
    ∧ addNode sampleHeap bi2 2 = Some bi3
    ∧ 1%positive ∈ tipsAt bi3 0.
Proof.
  destruct (addNode_duplicate_stays_tip sampleHeap newBlockIndex 1 2
              {| hash := sampleHash x0a; parent := None; height := 0; status := 1 |}
              {| hash := sampleHash x0b; parent := Some 1%positive; height := 1;
                 status := 1 |})
    as (bi1 & bi2 & bi3 & H1 & H2 & H3 & _ & _ & Htip & _);
    [by vm_compute|done|by vm_compute|done|].
  by exists bi1, bi2, bi3.
Defined.

End ConcreteRuns.
